(** * Route solver (android/app/src/main/cpp/solver.cpp): model and properties

    A shallow embedding of the bitmask dynamic-programming route solver.

    Conventions of the model.
    - C [int] values are [Z].  Every integer the solver computes stays far
      inside 32 bits when [n_checkpoints <= 17] (masks are below [2^17],
      state indices below [17 * 2^17], packed parents below [2^22]), so no
      wrap-around is written out.
    - A C [float] is the rational number it denotes, and every [float]
      operation rounds as binary32 does: [fadd], [fmul] and [(float)] of an
      [int] round the exact result to the nearest number with a 24-bit
      significand (ties to even, subnormal grid below [2^-126]).  The
      exponent is not capped: a sum beyond the binary32 range keeps its
      huge value where C++ gives an infinity, which compares the same way
      against the minutes the solver tests it with.  Infinite and NaN
      inputs have no counterpart, and [valid_input] bounds every
      magnitude.
    - [(int)] of a [float] truncates toward zero when the result fits 32
      bits; outside that range C++ leaves the cast undefined and the model
      returns [INT_MIN], the value the x86-64 conversion produces.  Every
      property that depends on the cast bounds its argument.
    - The specification words its properties over real-valued times; the
      walk with exact sums is modelled separately ([real_visit],
      [real_finish], [real_feasible]).
    - Fixed-size arrays of [SolverInput] are lists read with a default of
      [0] / [false] (the JNI bridge zero-fills the struct before copying the
      caller's arrays into it).
    - [std::vector] tables are lists read and written by index. *)

From Stdlib Require Import ZArith QArith Qround Qabs Qpower Lia Lqa List Bool.
From stdpp Require Import base list.
Import ListNotations.

#[local] Open Scope Z_scope.

(** ** Constants and the input / result structs *)

Definition MAX_CP : Z := 17.
Definition MAX_SLOTS : Z := 15.
Definition ALL_NODES : Z := 19.
Definition START_IDX : Z := 17.
Definition FINISH_IDX : Z := 18.
Definition INF_TIME : Q := 1000000000 # 1.

Record SolverInput := mkInput {
  n_checkpoints : Z;
  n_slots : Z;
  travel_time : list (list Q);
  open_at : list (list bool);
  finish_open : list bool;
  slot_starts : list Z;
  speed : Q;
  dwell : Z;
  naismith : Q;
  start_time : Z;
  end_time : Z
}.

Record SolverResult := mkResult {
  count : Z;
  route : list Z;
  route_length : Z;
  finish_time : Q
}.

(** Array reads: [input->travel_time[u][v]], [input->open_at[c][s]],
    [input->finish_open[s]], [input->slot_starts[s]]. *)
Definition tt (input : SolverInput) (u v : Z) : Q :=
  nth (Z.to_nat v) (nth (Z.to_nat u) (travel_time input) []) 0%Q.

Definition is_open (input : SolverInput) (c s : Z) : bool :=
  nth (Z.to_nat s) (nth (Z.to_nat c) (open_at input) []) false.

Definition fin_open (input : SolverInput) (s : Z) : bool :=
  nth (Z.to_nat s) (finish_open input) false.

Definition slot_start (input : SolverInput) (s : Z) : Z :=
  nth (Z.to_nat s) (slot_starts input) 0.

(** ** binary32 arithmetic *)

Definition pow2 (e : Z) : Q := (2 ^ e)%Q.

(** The position of the leading bit of [x <> 0]: the [k] with
    [2^k <= |x| < 2^(k+1)]. *)
Definition ilog2 (x : Q) : Z :=
  let k := Z.log2 (Z.abs (Qnum x)) - Z.log2 (Z.pos (Qden x)) in
  if Qle_bool (pow2 k) (Qabs x) then k else k - 1.

(** Rounding to the nearest integer, ties to even. *)
Definition rne (q : Q) : Z :=
  let f := Qfloor q in
  match (q - inject_Z f ?= 1 # 2)%Q with
  | Lt => f
  | Gt => f + 1
  | Eq => if Z.even f then f else f + 1
  end.

(** The exponent of the unit in the last place of a binary32 number near
    [x]: 24 significant bits, and no finer than the subnormal grid
    [2^-149]. *)
Definition ulp_exponent (x : Q) : Z := Z.max (-149) (ilog2 x - 23).

(** Rounding of a real result to binary32, round to nearest, ties to even. *)
Definition round32 (x : Q) : Q :=
  if Qeq_bool x 0 then 0%Q
  else Qred (inject_Z (rne (x / pow2 (ulp_exponent x))) * pow2 (ulp_exponent x)).

(** [a + b] and [a * b] on [float]s. *)
Definition fadd (a b : Q) : Q := round32 (a + b).
Definition fmul (a b : Q) : Q := round32 (a * b).

(** [(float)z] for an [int] [z]. *)
Definition of_int (z : Z) : Q := round32 (inject_Z z).

Definition INT_MIN : Z := -2147483648.
Definition INT_MAX : Z := 2147483647.

(** [(int)q] for a [float] [q]: truncation toward zero; [INT_MIN] when the
    truncated value does not fit 32 bits. *)
Definition to_int (q : Q) : Z :=
  let z := Z.quot (Qnum q) (Z.pos (Qden q)) in
  if (INT_MIN <=? z) && (z <=? INT_MAX) then z else INT_MIN.

Definition Qltb (x y : Q) : bool := negb (Qle_bool y x).
Definition Qgtb (x y : Q) : bool := Qltb y x.
Definition Qgeb (x y : Q) : bool := Qle_bool y x.

(** [a > b ? a : b] *)
Definition fmax (a b : Q) : Q := if Qgtb a b then a else b.

(** ** popcount *)

(** [while (x) { c += x & 1; x >>= 1; }] walks the binary digits of a
    positive [x]; the solver only calls it on masks in [1, 2^N). *)
Fixpoint popcount_pos (p : positive) : Z :=
  match p with
  | xH => 1
  | xO p' => popcount_pos p'
  | xI p' => 1 + popcount_pos p'
  end.

Definition popcount (x : Z) : Z :=
  match x with
  | Z.pos p => popcount_pos p
  | _ => 0
  end.

(** ** Time-slot arithmetic *)

(** [h * 60 + (m > 30 ? 30 : 0)] with [h = whole / 60], [m = whole % 60]
    (C division and remainder). *)
Definition slot_time_of (whole : Z) : Z :=
  let h := Z.quot whole 60 in
  let m := Z.rem whole 60 in
  h * 60 + (if m >? 30 then 30 else 0).

Definition arrival_to_slot_index (arrival_minutes : Q) (input : SolverInput) : Z :=
  if Qltb arrival_minutes (of_int (slot_start input 0)) then -1
  else
    let whole := to_int arrival_minutes in
    let slot_time := slot_time_of whole in
    if slot_time >? slot_start input (n_slots input - 1) then n_slots input - 1
    else
      match find (fun s => slot_start input s =? slot_time) (seqZ 0 (n_slots input)) with
      | Some s => s
      | None => -1
      end.

(** ** Feasibility oracle *)

Definition find_next_open_time (cp_idx : Z) (arrival_minutes : Q) (input : SolverInput) : Q :=
  let slot := arrival_to_slot_index arrival_minutes input in
  let slot := if slot <? 0 then 0 else slot in
  match find (fun s => is_open input cp_idx s) (seqZ slot (n_slots input - slot)) with
  | Some s => fmax arrival_minutes (of_int (slot_start input s))
  | None => (-1)%Q
  end.

Definition can_reach_finish (current_time : Q) (current_idx : Z) (input : SolverInput) : bool :=
  let t_to_finish := tt input current_idx FINISH_IDX in
  let finish_arrival := fadd current_time t_to_finish in
  if Qgtb finish_arrival (of_int (end_time input)) then false
  else
    let slot := arrival_to_slot_index finish_arrival input in
    if (slot <? 0) || (slot >=? n_slots input) then false
    else
      existsb
        (fun s =>
           fin_open input s &&
           Qle_bool (fmax finish_arrival (of_int (slot_start input s)))
                    (of_int (end_time input)))
        (seqZ slot (n_slots input - slot)).

(** ** The DP tables *)

(** [v[i]] and [v[i] = x] on a [std::vector]; an index outside the vector
    (undefined behaviour in C++) reads the default and writes nothing. *)
Definition vget {A} (d : A) (v : list A) (i : Z) : A := nth (Z.to_nat i) v d.
Definition vset {A} (v : list A) (i : Z) (x : A) : list A := <[Z.to_nat i := x]> v.

(** [masks_by_pc[k].push_back(m)] *)
Definition push_mask (b : list (list Z)) (k : Z) (m : Z) : list (list Z) :=
  vset b k (vget [] b k ++ [m]).

(** [std::sort] followed by [erase(unique(...))] on a vector of ints. *)
Fixpoint insert_sorted (x : Z) (l : list Z) : list Z :=
  match l with
  | [] => [x]
  | y :: l' => if x <=? y then x :: l else y :: insert_sorted x l'
  end.

Definition sort_ints (l : list Z) : list Z := fold_right insert_sorted [] l.

Fixpoint unique (l : list Z) : list Z :=
  match l with
  | [] => []
  | x :: l' =>
      match l' with
      | [] => [x]
      | y :: _ => if x =? y then unique l' else x :: unique l'
      end
  end.

Definition sort_unique (l : list Z) : list Z := unique (sort_ints l).

Definition dedup_bucket (b : list (list Z)) (k : Z) : list (list Z) :=
  vset b k (sort_unique (vget [] b k)).

Record DPState := mkState {
  dp : list Q;
  parent : list Z;
  masks_by_pc : list (list Z)
}.

(** [idx(mask, pos) = mask * N + pos] *)
Definition idx (N mask pos : Z) : Z := mask * N + pos.

Definition dp_at (N : Z) (st : DPState) (mask pos : Z) : Q :=
  vget INF_TIME (dp st) (idx N mask pos).

Definition parent_at (N : Z) (st : DPState) (mask pos : Z) : Z :=
  vget (-2) (parent st) (idx N mask pos).

(** ** solve: initialisation (Start -> each checkpoint) *)

Definition init_step (input : SolverInput) (st : DPState) (j : Z) : DPState :=
  let N := n_checkpoints input in
  let arr := fadd (of_int (start_time input)) (tt input START_IDX j) in
  let open_time := find_next_open_time j arr input in
  if Qltb open_time 0 then st
  else
    let depart_j := fadd open_time (of_int (dwell input)) in
    if Qgtb depart_j (of_int (end_time input)) then st
    else if negb (can_reach_finish depart_j j input) then st
    else
      let mask := Z.shiftl 1 j in
      let si := idx N mask j in
      if Qltb depart_j (vget INF_TIME (dp st) si)
      then mkState (vset (dp st) si depart_j) (vset (parent st) si (-1)) (masks_by_pc st)
      else st.

Definition first_bucket_step (N : Z) (st : DPState) (j : Z) : DPState :=
  let mask := Z.shiftl 1 j in
  if Qltb (dp_at N st mask j) INF_TIME
  then mkState (dp st) (parent st) (push_mask (masks_by_pc st) 1 mask)
  else st.

Definition dedup_state (st : DPState) (k : Z) : DPState :=
  mkState (dp st) (parent st) (dedup_bucket (masks_by_pc st) k).

Definition init_state (input : SolverInput) : DPState :=
  let N := n_checkpoints input in
  let total_states := Z.shiftl 1 N * N in
  let st0 := mkState (replicate (Z.to_nat total_states) INF_TIME)
                     (replicate (Z.to_nat total_states) (-2))
                     (replicate (Z.to_nat (N + 1)) []) in
  let st1 := fold_left (init_step input) (seqZ 0 N) st0 in
  let st2 := fold_left (first_bucket_step N) (seqZ 0 N) st1 in
  dedup_state st2 1.

(** ** solve: the main DP loop *)

(** Body of the innermost loop (one candidate extension [i -> j]). *)
Definition extend_step (input : SolverInput) (pc mask i : Z) (depart_i : Q)
    (st : DPState) (j : Z) : DPState :=
  let N := n_checkpoints input in
  if negb (Z.land mask (Z.shiftl 1 j) =? 0) then st
  else
    let arr_j := fadd depart_i (tt input i j) in
    if Qgtb arr_j (of_int (end_time input)) then st
    else
      let open_time := find_next_open_time j arr_j input in
      if Qltb open_time 0 then st
      else
        let depart_j := fadd open_time (of_int (dwell input)) in
        if Qgtb depart_j (of_int (end_time input)) then st
        else if negb (can_reach_finish depart_j j input) then st
        else
          let new_mask := Z.lor mask (Z.shiftl 1 j) in
          let new_si := idx N new_mask j in
          if Qltb depart_j (vget INF_TIME (dp st) new_si)
          then mkState (vset (dp st) new_si depart_j)
                       (vset (parent st) new_si (Z.lor (Z.shiftl mask 5) i))
                       (push_mask (masks_by_pc st) (pc + 1) new_mask)
          else st.

(** Body of the loop over the last position [i] of [mask]. *)
Definition last_step (input : SolverInput) (pc mask : Z) (st : DPState) (i : Z) : DPState :=
  let N := n_checkpoints input in
  if Z.land mask (Z.shiftl 1 i) =? 0 then st
  else
    let si := idx N mask i in
    if Qgeb (vget INF_TIME (dp st) si) INF_TIME then st
    else
      let depart_i := vget INF_TIME (dp st) si in
      fold_left (extend_step input pc mask i depart_i) (seqZ 0 N) st.

Definition mask_step (input : SolverInput) (pc : Z) (st : DPState) (mask : Z) : DPState :=
  fold_left (last_step input pc mask) (seqZ 0 (n_checkpoints input)) st.

(** One iteration of [for (pc = 1; pc < N; pc++)]: the bucket being read is
    never the bucket being appended to. *)
Definition pc_step (input : SolverInput) (st : DPState) (pc : Z) : DPState :=
  let st' := fold_left (mask_step input pc) (vget [] (masks_by_pc st) pc) st in
  if pc + 1 <=? n_checkpoints input then dedup_state st' (pc + 1) else st'.

Definition run_dp (input : SolverInput) : DPState :=
  let N := n_checkpoints input in
  fold_left (pc_step input) (seqZ 1 (N - 1)) (init_state input).

(** ** solve: objective scan *)

Record Best := mkBest {
  best_count : Z;
  best_finish_time : Q;
  best_mask : Z;
  best_last : Z
}.

(** The Finish minute computed in the scan for a state departing [i] at
    [d]: [None] stands for [continue]. *)
Definition actual_finish (input : SolverInput) (d : Q) (i : Z) : option Q :=
  let finish_arr := fadd d (tt input i FINISH_IDX) in
  if Qgtb finish_arr (of_int (end_time input)) then None
  else
    let fslot := arrival_to_slot_index finish_arr input in
    if fslot <? 0 then None
    else
      let af :=
        match find (fun s => fin_open input s) (seqZ fslot (n_slots input - fslot)) with
        | Some s => fmax finish_arr (of_int (slot_start input s))
        | None => (-1)%Q
        end in
      if Qltb af 0 || Qgtb af (of_int (end_time input)) then None else Some af.

Definition scan_step (input : SolverInput) (st : DPState) (mask : Z) (b : Best) (i : Z) : Best :=
  let N := n_checkpoints input in
  let cnt := popcount mask in
  let si := idx N mask i in
  if Qgeb (vget INF_TIME (dp st) si) INF_TIME then b
  else
    match actual_finish input (vget INF_TIME (dp st) si) i with
    | None => b
    | Some af =>
        if (cnt >? best_count b) || ((cnt =? best_count b) && Qltb af (best_finish_time b))
        then mkBest cnt af mask i
        else b
    end.

Definition scan_mask (input : SolverInput) (st : DPState) (b : Best) (mask : Z) : Best :=
  fold_left (scan_step input st mask) (seqZ 0 (n_checkpoints input)) b.

Definition find_best (input : SolverInput) (st : DPState) : Best :=
  let N := n_checkpoints input in
  fold_left (scan_mask input st) (seqZ 1 (Z.shiftl 1 N - 1)) (mkBest (-1) INF_TIME (-1) (-1)).

(** ** solve: route reconstruction *)

(** The [while (true)] walk over the parent links.  [route_buf] has
    [MAX_CP] cells, so the walk is given [MAX_CP] iterations; needing more
    would write past the buffer and is reported as [None]. *)
Fixpoint reconstruct (fuel : nat) (N : Z) (par : list Z) (cur_mask cur_pos : Z)
    (route_buf : list Z) : option (list Z) :=
  match fuel with
  | O => None
  | S fuel' =>
      let route_buf := route_buf ++ [cur_pos] in
      let p := vget (-2) par (idx N cur_mask cur_pos) in
      if p =? -1 then Some route_buf
      else if p =? -2 then Some route_buf
      else
        let prev_pos := Z.land p 31 in
        let prev_mask := Z.shiftr p 5 in
        reconstruct fuel' N par prev_mask prev_pos route_buf
  end.

Definition solve (input : SolverInput) : option SolverResult :=
  let N := n_checkpoints input in
  let st := run_dp input in
  let b := find_best input st in
  if best_count b <? 0 then Some (mkResult 0 [] 0 0%Q)
  else
    match reconstruct (Z.to_nat MAX_CP) N (parent st) (best_mask b) (best_last b) [] with
    | None => None
    | Some route_buf =>
        Some (mkResult (best_count b) (rev route_buf)
                       (Z.of_nat (length route_buf)) (best_finish_time b))
    end.

(** ** The JNI bridge's result encoding *)

(** [count, route_length, (int)(finish_time * 100.0f), route[0], ...];
    [solveNative] is the bridge from the filled [SolverInput] on. *)
Definition encode_result (r : SolverResult) : list Z :=
  [count r; route_length r; to_int (fmul (finish_time r) 100)]
    ++ firstn (Z.to_nat (route_length r)) (route r).

Definition solveNative (input : SolverInput) : option (list Z) :=
  option_map encode_result (solve input).

(** ** Routes, as the solver evaluates them *)

(** One visit, in the solver's arithmetic: leave [prev] at [t], walk to
    [j], wait for the first open slot, dwell.  [None] when [j] never opens
    again or the departure would be after [end_time]. *)
Definition visit (input : SolverInput) (t : Q) (prev j : Z) : option Q :=
  let arr := fadd t (tt input prev j) in
  let open_time := find_next_open_time j arr input in
  if Qltb open_time 0 then None
  else
    let dep := fadd open_time (of_int (dwell input)) in
    if Qgtb dep (of_int (end_time input)) then None else Some dep.

Definition plain_step (input : SolverInput) (acc : option (Q * Z)) (j : Z) : option (Q * Z) :=
  match acc with
  | None => None
  | Some (t, prev) =>
      match visit input t prev j with
      | Some d => Some (d, j)
      | None => None
      end
  end.

(** Departure time and last node after walking [r] from Start. *)
Definition route_depart (input : SolverInput) (r : list Z) : option (Q * Z) :=
  fold_left (plain_step input) r (Some (of_int (start_time input), START_IDX)).

(** Arrival minute at Finish inside an open Finish slot, not after
    [end_time]. *)
Definition route_finish (input : SolverInput) (r : list Z) : option Q :=
  match route_depart input r with
  | Some (d, i) => actual_finish input d i
  | None => None
  end.

(** A route names distinct intermediate checkpoints. *)
Definition route_wf (N : Z) (r : list Z) : Prop :=
  NoDup r /\ Forall (fun c => 0 <= c < N) r.

(** A feasible route: it respects openings, dwell, [start_time] and
    [end_time], and reaches Finish inside an open Finish slot. *)
Definition feasible (input : SolverInput) (r : list Z) : Prop :=
  r <> [] /\ route_wf (n_checkpoints input) r /\ is_Some (route_finish input r).

(** The same walk when, in addition, Finish must be directly reachable
    ([can_reach_finish]) at the departure from every visited checkpoint. *)
Definition ok_step (input : SolverInput) (acc : option (Q * Z)) (j : Z) : option (Q * Z) :=
  match acc with
  | None => None
  | Some (t, prev) =>
      match visit input t prev j with
      | Some d => if can_reach_finish d j input then Some (d, j) else None
      | None => None
      end
  end.

Definition route_ok (input : SolverInput) (r : list Z) : option (Q * Z) :=
  fold_left (ok_step input) r (Some (of_int (start_time input), START_IDX)).

(** The set of visited checkpoints as a bit mask. *)
Definition mask_of (r : list Z) : Z :=
  fold_left (fun m j => Z.lor m (Z.shiftl 1 j)) r 0.

(** ** Routes, in the specification's real-valued time *)

(** The same visit with exact sums. *)
Definition real_visit (input : SolverInput) (t : Q) (prev j : Z) : option Q :=
  let arr := (t + tt input prev j)%Q in
  let open_time := find_next_open_time j arr input in
  if Qltb open_time 0 then None
  else
    let dep := (open_time + inject_Z (dwell input))%Q in
    if Qgtb dep (inject_Z (end_time input)) then None else Some dep.

Definition real_step (input : SolverInput) (acc : option (Q * Z)) (j : Z) : option (Q * Z) :=
  match acc with
  | None => None
  | Some (t, prev) =>
      match real_visit input t prev j with
      | Some d => Some (d, j)
      | None => None
      end
  end.

Definition real_route_depart (input : SolverInput) (r : list Z) : option (Q * Z) :=
  fold_left (real_step input) r (Some (inject_Z (start_time input), START_IDX)).

(** Leaving [i] at [d]: the minute Finish is entered, when the exact
    arrival [d + T[i, Finish]] is not after [end_time], has a slot, and the
    first open Finish slot from there on starts by [end_time]. *)
Definition real_finish (input : SolverInput) (d : Q) (i : Z) : option Q :=
  let finish_arr := (d + tt input i FINISH_IDX)%Q in
  if Qgtb finish_arr (inject_Z (end_time input)) then None
  else
    let fslot := arrival_to_slot_index finish_arr input in
    if fslot <? 0 then None
    else
      match find (fun s => fin_open input s) (seqZ fslot (n_slots input - fslot)) with
      | Some s =>
          let af := fmax finish_arr (inject_Z (slot_start input s)) in
          if Qgtb af (inject_Z (end_time input)) then None else Some af
      | None => None
      end.

Definition real_route_finish (input : SolverInput) (r : list Z) : option Q :=
  match real_route_depart input r with
  | Some (d, i) => real_finish input d i
  | None => None
  end.

(** A feasible route in the specification's sense. *)
Definition real_feasible (input : SolverInput) (r : list Z) : Prop :=
  r <> [] /\ route_wf (n_checkpoints input) r /\ is_Some (real_route_finish input r).

(** ** Valid inputs *)

Definition nodes : list Z := seqZ 0 ALL_NODES.

(** Minutes below [2^24] are binary32 numbers: [(float)] of such an [int]
    is exact. *)
Definition TIME_MAX : Z := 16777216.

(** Travel times up to [2^30] minutes keep every arrival inside the range
    of the [(int)] cast. *)
Definition TRAVEL_MAX : Q := 1073741824 # 1.

(** A travel time the struct can hold: a non-negative binary32 number, at
    most [TRAVEL_MAX]. *)
Definition valid_travel_time (x : Q) : bool :=
  Qle_bool 0 x && Qle_bool x TRAVEL_MAX && Qeq_bool (round32 x) x.

(** Ranges of [n_checkpoints] and [n_slots]; slot starts are non-negative
    multiples of 30 listing every half hour; travel times are valid; dwell
    and [start_time] are non-negative; all minutes ([dwell], [start_time],
    [end_time], the slot starts) are below [TIME_MAX]. *)
Definition valid_input (input : SolverInput) : bool :=
  (1 <=? n_checkpoints input) && (n_checkpoints input <=? MAX_CP) &&
  (1 <=? n_slots input) && (n_slots input <=? MAX_SLOTS) &&
  (0 <=? slot_start input 0) && (slot_start input 0 mod 30 =? 0) &&
  forallb (fun s => slot_start input s =? slot_start input 0 + 30 * s)
          (seqZ 0 (n_slots input)) &&
  forallb (fun u => forallb (fun v => valid_travel_time (tt input u v)) nodes) nodes &&
  (0 <=? dwell input) && (dwell input <? TIME_MAX) &&
  (0 <=? start_time input) && (start_time input <? TIME_MAX) &&
  (end_time input <? TIME_MAX) &&
  (slot_start input (n_slots input - 1) <? TIME_MAX).

(** The first slot starts on a full hour. *)
Definition on_the_hour (input : SolverInput) : bool :=
  slot_start input 0 mod 60 =? 0.

(** [b] relaxes [a]: same event, every opening of [a] is an opening of [b],
    and no travel time of [b] exceeds that of [a]. *)
Definition relaxes (a b : SolverInput) : bool :=
  (n_checkpoints a =? n_checkpoints b) && (n_slots a =? n_slots b) &&
  forallb (fun s => slot_start a s =? slot_start b s) (seqZ 0 MAX_SLOTS) &&
  (dwell a =? dwell b) && (start_time a =? start_time b) && (end_time a =? end_time b) &&
  forallb (fun c => forallb (fun s => implb (is_open a c s) (is_open b c s))
                            (seqZ 0 MAX_SLOTS)) (seqZ 0 MAX_CP) &&
  forallb (fun s => implb (fin_open a s) (fin_open b s)) (seqZ 0 MAX_SLOTS) &&
  forallb (fun u => forallb (fun v => Qle_bool (tt b u v) (tt a u v)) nodes) nodes.

(** Travel times in whole minutes. *)
Definition whole_minutes (input : SolverInput) : bool :=
  forallb (fun u => forallb (fun v => Qeq_bool (inject_Z (Qfloor (tt input u v))) (tt input u v))
                            nodes) nodes.

(** Going from a checkpoint to Finish directly is never slower than going
    through another checkpoint. *)
Definition triangle_to_finish (input : SolverInput) : bool :=
  forallb (fun i => forallb (fun j => Qle_bool (tt input i FINISH_IDX)
                                        (tt input i j + tt input j FINISH_IDX)%Q)
                            (seqZ 0 (n_checkpoints input)))
          (seqZ 0 (n_checkpoints input)).

(** Rounding to the nearest integer (halves away from zero), the reading of
    "round" in the boundary encoding's description. *)
Definition round_nearest (q : Q) : Z :=
  if Qle_bool 0 q then Qfloor (q + (1 # 2)) else Qceiling (q - (1 # 2)).

(** ** Concrete inputs *)

(** Row of the travel-time matrix: times to checkpoints [0..], then zeros
    up to column 16, the Start column, the Finish column. *)
Definition mk_row (to_cps : list Q) (to_finish : Q) : list Q :=
  to_cps ++ replicate (17 - length to_cps) 0%Q ++ [0%Q; to_finish].

(** Rows of the checkpoints, empty rows up to row 16, the Start row. *)
Definition mk_matrix (rows : list (list Q)) (start_row : list Q) : list (list Q) :=
  rows ++ replicate (17 - length rows) [] ++ [start_row].

Definition all_open (n m : nat) : list (list bool) := replicate n (replicate m true).

(** S1: one checkpoint, closed in every slot. *)
Definition s1_input : SolverInput :=
  mkInput 1 2 (mk_matrix [mk_row [0%Q] 5] (mk_row [5%Q] 0))
          [[false; false]] [true; true] [600; 630] 4 7 10 600 700.

(** S2: one checkpoint, everything open in slot 600. *)
Definition s2_input : SolverInput :=
  mkInput 1 1 (mk_matrix [mk_row [0%Q] 5] (mk_row [5%Q] 0))
          [[true]] [true] [600] 4 7 10 600 700.

(** S3: checkpoint 0 is closed in slot 600 and open in slot 630. *)
Definition s3_input : SolverInput :=
  mkInput 1 2 (mk_matrix [mk_row [0%Q] 5] (mk_row [10%Q] 0))
          [[false; true]] [true; true] [600; 630] 4 7 10 600 700.

(** S3 with checkpoint 0 open in slot 600 as well. *)
Definition s3_open_input : SolverInput :=
  mkInput 1 2 (mk_matrix [mk_row [0%Q] 5] (mk_row [10%Q] 0))
          [[true; true]] [true; true] [600; 630] 4 7 10 600 700.

(** Finish is not directly reachable from checkpoint 0, but it is from
    checkpoint 1, and 0 -> 1 is short. *)
Definition prune_count_input : SolverInput :=
  mkInput 2 2
    (mk_matrix [mk_row [0; 5]%Q 500; mk_row [5; 0]%Q 5] (mk_row [5; 5]%Q 0))
    (all_open 2 2) [true; true] [600; 630] 4 7 10 600 700.

(** Finish is not directly reachable from checkpoint 2; the quickest pair
    of checkpoints starts with 2. *)
Definition prune_finish_input : SolverInput :=
  mkInput 3 2
    (mk_matrix [mk_row [0; 20; 20]%Q 1; mk_row [10; 0; 20]%Q 1; mk_row [1; 20; 0]%Q 500]
               (mk_row [20; 10; 1]%Q 0))
    (all_open 3 2) [true; true] [600; 630] 4 7 10 600 640.

(** Slots start on a half hour (630); checkpoint 3 is only reachable in
    time from checkpoint 2 (or, in [t03] minutes, from checkpoint 0). *)
Definition half_hour_input (t03 : Q) : SolverInput :=
  mkInput 4 3
    (mk_matrix [mk_row [0; 1; 0; t03]%Q 1; mk_row [0; 0; 0; 100]%Q 1;
                mk_row [0; 0; 0; 1 # 2]%Q 1; mk_row [100; 100; 100; 0]%Q 0]
               (mk_row [0; 0; 0; 100]%Q 0))
    (all_open 4 3) [true; true; true] [630; 660; 690] 4 0 10 630 700.

(** Slots start on a half hour (630), the travel times are whole minutes
    and the triangle inequality toward Finish holds; checkpoint 1 is only
    reachable in time through 0, which is at Finish. *)
Definition half_hour_triangle_input : SolverInput :=
  mkInput 2 2
    (mk_matrix [mk_row [0; 1]%Q 0; mk_row [0; 0]%Q 0]
               (mk_row [0; 100]%Q 0))
    (all_open 2 2) [true; true] [630; 660] 4 0 10 630 700.

(** One checkpoint, slots starting at 630, Start -> 0 takes [ts0] minutes. *)
Definition relax_input (ts0 : Q) : SolverInput :=
  mkInput 1 2 (mk_matrix [mk_row [0%Q] 0] (mk_row [ts0] 0))
          (all_open 1 2) [true; true] [630; 660] 4 0 10 600 700.

(** S2 with Start -> 0 taking 5 + 1/128 minutes. *)
Definition fraction_input : SolverInput :=
  mkInput 1 1 (mk_matrix [mk_row [0%Q] 5] (mk_row [(641 # 128)%Q] 0))
          [[true]] [true] [600] 4 7 10 600 700.


(** Two checkpoints five minutes from Start, from each other and from
    Finish, open all day. *)
Definition two_stop_input : SolverInput :=
  mkInput 2 2
    (mk_matrix [mk_row [0; 5]%Q 5; mk_row [5; 0]%Q 5] (mk_row [5; 5]%Q 0))
    (all_open 2 2) [true; true] [600; 630] 4 7 10 600 700.

(** S2 with Finish 88 + 2^-17 minutes from checkpoint 0: leaving at 612
    the exact arrival is after [end_time = 700], the binary32 sum is 700. *)
Definition rounding_input : SolverInput :=
  mkInput 1 1 (mk_matrix [mk_row [0%Q] (11534337 # 131072)] (mk_row [5%Q] 0))
          [[true]] [true] [600] 4 7 10 600 700.

(** S2 with Finish 40 - 2^-18 minutes from checkpoint 0: leaving at 560
    the exact arrival is before the first slot start 600, the binary32 sum
    is 600. *)
Definition early_input : SolverInput :=
  mkInput 1 1 (mk_matrix [mk_row [0%Q] (10485759 # 262144)] (mk_row [5%Q] 0))
          [[true]] [true] [600] 4 7 10 600 700.

(** One checkpoint reached at 612 + 819/16384 and left at once, Finish at
    the checkpoint: the finish time times 100 is 61204.99878..., which is
    61205 in binary32. *)
Definition product_input : SolverInput :=
  mkInput 1 1 (mk_matrix [mk_row [0%Q] 0] (mk_row [(197427 # 16384)%Q] 0))
          [[true]] [true] [600] 4 0 10 600 700.

(** One checkpoint at Finish, [ts0] minutes from Start, in an event that
    starts at minute 67108980, a multiple of 60 that is not a binary32
    number: [(float)67108980] is 67108976. *)
Definition large_minutes_input (ts0 : Q) : SolverInput :=
  mkInput 1 1 (mk_matrix [mk_row [0%Q] 0] (mk_row [ts0] 0))
          [[true]] [true] [67108980] 4 0 10 67108980 67109100.

(** ** Statements of the properties as the specification words them *)

Definition strictly_increasing (input : SolverInput) : Prop :=
  forall s s', 0 <= s -> s < s' -> s' < n_slots input ->
    slot_start input s < slot_start input s'.


(** Coverage first: no feasible route visits more checkpoints than [count]. *)
Definition count_maximal (input : SolverInput) : Prop :=
  forall res r, solve input = Some res -> real_feasible input r ->
    Z.of_nat (length r) <= count res.

(** Earliest tie-break: no feasible route with [count] checkpoints reaches
    Finish before [finish_time]. *)
Definition finish_minimal (input : SolverInput) : Prop :=
  forall res r f, solve input = Some res -> real_feasible input r ->
    Z.of_nat (length r) = count res -> real_route_finish input r = Some f ->
    (finish_time res <= f)%Q.

(** Infeasibility: with no feasible route the result is all zero. *)
Definition infeasible_zero (input : SolverInput) : Prop :=
  (forall r, ~ real_feasible input r) -> solve input = Some (mkResult 0 [] 0 0%Q).

(** A Finish arrival below the first slot start is refused. *)
Definition early_arrival_refused (input : SolverInput) : Prop :=
  forall t i,
    (t + tt input i FINISH_IDX < inject_Z (slot_start input 0))%Q ->
    can_reach_finish t i input = false.

(** Relaxation never lowers [count] nor, at equal [count], raises
    [finish_time]. *)
Definition relaxation_monotone (a b : SolverInput) : Prop :=
  forall ra rb, solve a = Some ra -> solve b = Some rb ->
    count ra <= count rb /\ (count ra = count rb -> (finish_time rb <= finish_time ra)%Q).

(** Boundary encoding with a rounded centi-minute field. *)
Definition encoding_rounds (input : SolverInput) : Prop :=
  forall res out, solve input = Some res -> solveNative input = Some out ->
    out = [count res; route_length res; round_nearest (finish_time res * 100)%Q]
            ++ route res.

(** ** Invariants of the DP tables *)

Definition in_range (N m i : Z) : Prop := 0 <= m < Z.shiftl 1 N /\ 0 <= i < N.

(** DP-fill invariant: from every recorded state, leaving at the recorded
    time, Finish is entered by [end_time], and the recorded time is not
    after [end_time]. *)
Definition recorded_reach_finish (input : SolverInput) : Prop :=
  forall m i,
    in_range (n_checkpoints input) m i ->
    (dp_at (n_checkpoints input) (run_dp input) m i < INF_TIME)%Q ->
    is_Some (real_finish input (dp_at (n_checkpoints input) (run_dp input) m i) i) /\
    (dp_at (n_checkpoints input) (run_dp input) m i <= inject_Z (end_time input))%Q.

(** The parent link of a recorded state [(m, i)]: either the from-Start
    marker on the singleton mask, or a packed recorded predecessor whose
    mask is [m] without [i]. *)
Definition chain_ok (N : Z) (st : DPState) (m i : Z) : Prop :=
  Z.testbit m i = true /\
  ((parent_at N st m i = -1 /\ m = Z.shiftl 1 i) \/
   exists pm pi,
     parent_at N st m i = Z.lor (Z.shiftl pm 5) pi /\ in_range N pm pi /\
     Z.testbit pm i = false /\ m = Z.lor pm (Z.shiftl 1 i) /\
     parent_at N st pm pi <> -2).

Record Inv (input : SolverInput) (st : DPState) : Prop := mkInv {
  inv_len_dp :
    length (dp st) = Z.to_nat (Z.shiftl 1 (n_checkpoints input) * n_checkpoints input);
  inv_len_parent :
    length (parent st) = Z.to_nat (Z.shiftl 1 (n_checkpoints input) * n_checkpoints input);
  inv_len_buckets :
    length (masks_by_pc st) = Z.to_nat (n_checkpoints input + 1);
  inv_bucket : forall k m,
    0 <= k <= n_checkpoints input -> In m (vget [] (masks_by_pc st) k) ->
    0 < m < Z.shiftl 1 (n_checkpoints input) /\ popcount m = k;
  inv_sound : forall m i,
    in_range (n_checkpoints input) m i ->
    (dp_at (n_checkpoints input) st m i < INF_TIME)%Q ->
    exists r, r <> [] /\ route_wf (n_checkpoints input) r /\ mask_of r = m /\
              route_ok input r = Some (dp_at (n_checkpoints input) st m i, i);
  inv_parent : forall m i,
    in_range (n_checkpoints input) m i ->
    (dp_at (n_checkpoints input) st m i < INF_TIME)%Q ->
    parent_at (n_checkpoints input) st m i <> -2;
  inv_chain : forall m i,
    in_range (n_checkpoints input) m i ->
    parent_at (n_checkpoints input) st m i <> -2 ->
    chain_ok (n_checkpoints input) st m i
}.

(** Every recorded state's mask sits in the bucket of its popcount. *)
Definition Registered (input : SolverInput) (st : DPState) : Prop :=
  forall m i,
    in_range (n_checkpoints input) m i ->
    (dp_at (n_checkpoints input) st m i < INF_TIME)%Q ->
    In m (vget [] (masks_by_pc st) (popcount m)).

(** [st'] comes after [st]: no table entry grew, no bucket lost a mask. *)
Definition Le (st st' : DPState) : Prop :=
  (forall si, (vget INF_TIME (dp st') si <= vget INF_TIME (dp st) si)%Q) /\
  (forall k m, In m (vget [] (masks_by_pc st) k) -> In m (vget [] (masks_by_pc st') k)).

(** Every checked route of [k] checkpoints is dominated by its state. *)
Definition Complete (input : SolverInput) (k : Z) (st : DPState) : Prop :=
  forall r d i,
    route_wf (n_checkpoints input) r -> Z.of_nat (length r) = k ->
    route_ok input r = Some (d, i) ->
    In (mask_of r) (vget [] (masks_by_pc st) k) /\
    (dp_at (n_checkpoints input) st (mask_of r) i <= d)%Q.

(** The tables before any state is recorded. *)
Definition empty_tables (input : SolverInput) : DPState :=
  mkState (replicate (Z.to_nat (Z.shiftl 1 (n_checkpoints input) * n_checkpoints input)) INF_TIME)
          (replicate (Z.to_nat (Z.shiftl 1 (n_checkpoints input) * n_checkpoints input)) (-2))
          (replicate (Z.to_nat (n_checkpoints input + 1)) []).

(** During initialisation only singleton masks are recorded. *)
Definition InitOnly (input : SolverInput) (st : DPState) : Prop :=
  forall m i,
    in_range (n_checkpoints input) m i ->
    (dp_at (n_checkpoints input) st m i < INF_TIME)%Q -> m = Z.shiftl 1 i.

(** The tables after [k] rounds of the main loop. *)
Definition dp_after (input : SolverInput) (k : nat) : DPState :=
  fold_left (pc_step input) (seqZ 1 (Z.of_nat k)) (init_state input).

(** While the state [(mask, i)] is being extended its entry stays
    [depart_i]. *)
Definition Reading (input : SolverInput) (mask i : Z) (depart_i : Q) (st : DPState) : Prop :=
  Inv input st /\ Registered input st /\
  dp_at (n_checkpoints input) st mask i = depart_i.

(** A terminal state the scan accepts, with its Finish minute. *)
Definition candidate (input : SolverInput) (st : DPState) (mask i : Z) (af : Q) : Prop :=
  (dp_at (n_checkpoints input) st mask i < INF_TIME)%Q /\
  actual_finish input (dp_at (n_checkpoints input) st mask i) i = Some af.

(** [b] is at least as good as the candidate [(cnt, af)]. *)
Definition beats (cnt : Z) (af : Q) (b : Best) : Prop :=
  cnt <= best_count b /\ (cnt = best_count b -> (best_finish_time b <= af)%Q).

(** [b] is the initial record or a scanned candidate. *)
Definition attained (input : SolverInput) (st : DPState) (b : Best) : Prop :=
  b = mkBest (-1) INF_TIME (-1) (-1) \/
  (1 <= best_mask b < Z.shiftl 1 (n_checkpoints input) /\
   0 <= best_last b < n_checkpoints input /\
   best_count b = popcount (best_mask b) /\
   candidate input st (best_mask b) (best_last b) (best_finish_time b)).

(** The extension [mask -> j] has been registered with a departure no
    later than [d]. *)
Definition Extended (input : SolverInput) (pc mask j : Z) (d : Q) (st : DPState) : Prop :=
  In (Z.lor mask (Z.shiftl 1 j)) (vget [] (masks_by_pc st) (pc + 1)) /\
  (dp_at (n_checkpoints input) st (Z.lor mask (Z.shiftl 1 j)) j <= d)%Q.

(** The predecessor state [(mask, i)] is recorded with a departure no later
    than [d']. *)
Definition Ready (input : SolverInput) (mask i : Z) (d' : Q) (st : DPState) : Prop :=
  Inv input st /\ Registered input st /\ (dp_at (n_checkpoints input) st mask i <= d')%Q.

(** ** The JNI bridge: filling the input struct *)

(** [memset(&input, 0, sizeof(input))]: the arrays at their declared sizes,
    every cell zero. *)
Definition zero_input : SolverInput :=
  mkInput 0 0
          (replicate (Z.to_nat ALL_NODES) (replicate (Z.to_nat ALL_NODES) 0%Q))
          (replicate (Z.to_nat MAX_CP) (replicate (Z.to_nat MAX_SLOTS) false))
          (replicate (Z.to_nat MAX_SLOTS) false)
          (replicate (Z.to_nat MAX_SLOTS) 0)
          0 0 0 0 0.

(** [a[i][j] = x] on a two-dimensional array; a cell outside the array
    (undefined behaviour in C++) is not written. *)
Definition vset2 {A} (a : list (list A)) (i j : Z) (x : A) : list (list A) :=
  vset a i (vset (vget [] a i) j x).

(** [input.travel_time[i][j] = ttFlat[i * ALL_NODES + j]] for all [i], [j]. *)
Definition copy_travel_time (ttFlat : list Q) (a : list (list Q)) : list (list Q) :=
  fold_left
    (fun a i =>
       fold_left (fun a j => vset2 a i j (vget 0%Q ttFlat (i * ALL_NODES + j)))
                 (seqZ 0 ALL_NODES) a)
    (seqZ 0 ALL_NODES) a.

(** [input.open_at[i][s] = openFlat[i * nSlots + s] != 0]; a [jboolean] is
    a byte. *)
Definition copy_openings (openFlat : list Z) (nCheckpoints nSlots : Z)
    (a : list (list bool)) : list (list bool) :=
  fold_left
    (fun a i =>
       fold_left (fun a s => vset2 a i s (negb (vget 0 openFlat (i * nSlots + s) =? 0)))
                 (seqZ 0 nSlots) a)
    (seqZ 0 nCheckpoints) a.

(** [input.finish_open[s] = finOpen[s] != 0] *)
Definition copy_finish_open (finOpen : list Z) (nSlots : Z) (a : list bool) : list bool :=
  fold_left (fun a s => vset a s (negb (vget 0 finOpen s =? 0))) (seqZ 0 nSlots) a.

(** [input.slot_starts[s] = slotStartsArr[s]] *)
Definition copy_slot_starts (slotStartsArr : list Z) (nSlots : Z) (a : list Z) : list Z :=
  fold_left (fun a s => vset a s (vget 0 slotStartsArr s)) (seqZ 0 nSlots) a.

(** The struct handed to [solve]. *)
Definition fill_input (travelTimeMatrix : list Q) (openingsFlat finishOpenings : list Z)
    (slotStarts : list Z) (speed' : Q) (dwell' : Z) (naismith' : Q)
    (startTime endTime nCheckpoints nSlots : Z) : SolverInput :=
  mkInput nCheckpoints nSlots
          (copy_travel_time travelTimeMatrix (travel_time zero_input))
          (copy_openings openingsFlat nCheckpoints nSlots (open_at zero_input))
          (copy_finish_open finishOpenings nSlots (finish_open zero_input))
          (copy_slot_starts slotStarts nSlots (slot_starts zero_input))
          speed' dwell' naismith' startTime endTime.

(** The exported entry point: fill the struct, solve, encode. *)
Definition Java_com_scout_routeplanner_solver_NativeSolver_solveNative
    (travelTimeMatrix : list Q) (openingsFlat finishOpenings : list Z)
    (slotStarts : list Z) (speed' : Q) (dwell' : Z) (naismith' : Q)
    (startTime endTime nCheckpoints nSlots : Z) : option (list Z) :=
  solveNative (fill_input travelTimeMatrix openingsFlat finishOpenings slotStarts
                          speed' dwell' naismith' startTime endTime nCheckpoints nSlots).

(** ** The route spelled out by the parent links *)

(** [Traces N st m i r]: following the parent links from the state
    [(m, i)] back to Start visits the checkpoints of [r], last one first. *)
Inductive Traces (N : Z) (st : DPState) : Z -> Z -> list Z -> Prop :=
| Traces_start i :
    0 <= i < N ->
    parent_at N st (Z.shiftl 1 i) i = -1 ->
    Traces N st (Z.shiftl 1 i) i [i]
| Traces_link pm pi i r :
    in_range N pm pi -> 0 <= i < N -> Z.testbit pm i = false ->
    parent_at N st (Z.lor pm (Z.shiftl 1 i)) i = Z.lor (Z.shiftl pm 5) pi ->
    Traces N st pm pi r ->
    Traces N st (Z.lor pm (Z.shiftl 1 i)) i (r ++ [i]).

(** Every recorded state's dp value is the departure of the route its
    parent links spell out. *)
Definition Traced (input : SolverInput) (st : DPState) : Prop :=
  forall m i,
    in_range (n_checkpoints input) m i ->
    (dp_at (n_checkpoints input) st m i < INF_TIME)%Q ->
    exists r, Traces (n_checkpoints input) st m i r /\
              route_ok input r = Some (dp_at (n_checkpoints input) st m i, i).

(** No recorded state has more than [k] checkpoints. *)
Definition Layered (input : SolverInput) (k : Z) (st : DPState) : Prop :=
  forall m i,
    in_range (n_checkpoints input) m i ->
    (dp_at (n_checkpoints input) st m i < INF_TIME)%Q -> popcount m <= k.

(** [st] and [st'] agree on every state of at most [k] checkpoints. *)
Definition Settled (input : SolverInput) (k : Z) (st st' : DPState) : Prop :=
  forall m i,
    in_range (n_checkpoints input) m i -> popcount m <= k ->
    dp_at (n_checkpoints input) st' m i = dp_at (n_checkpoints input) st m i /\
    parent_at (n_checkpoints input) st' m i = parent_at (n_checkpoints input) st m i.

(** During round [pc], entered with the tables [st0]: the parent links
    spell out the recorded departures, no recorded state has more than
    [pc + 1] checkpoints, and the states of at most [pc] checkpoints are as
    in [st0]. *)
Definition Tracked (input : SolverInput) (pc : Z) (st0 st : DPState) : Prop :=
  Traced input st /\ Layered input (pc + 1) st /\ Settled input pc st0 st.

(** The reconstruction walk once more, answering how it ends: [Some false]
    at a from-Start marker, [Some true] at an unvisited parent (the branch
    that logs "Parent chain broken"), [None] when [route_buf] is full. *)
Fixpoint chain_broken (fuel : nat) (N : Z) (par : list Z) (cur_mask cur_pos : Z)
    : option bool :=
  match fuel with
  | O => None
  | S fuel' =>
      let p := vget (-2) par (idx N cur_mask cur_pos) in
      if p =? -1 then Some false
      else if p =? -2 then Some true
      else chain_broken fuel' N par (Z.shiftr p 5) (Z.land p 31)
  end.

(** The scan visits [(m, i)] before [(m', i')]. *)
Definition scanned_before (m i m' i' : Z) : Prop := m < m' \/ (m = m' /\ i <= i').

(** The checkpoints of a mask, in increasing order. *)
Definition members (N m : Z) : list Z := List.filter (Z.testbit m) (seqZ 0 N).

(** A list of ints in strictly increasing order. *)
Fixpoint increasing (l : list Z) : Prop :=
  match l with
  | [] => True
  | x :: l' => match l' with [] => True | y :: _ => x < y end /\ increasing l'
  end.

(** * Proofs *)

(** ** Comparisons on times *)

Lemma Qltb_true x y : Qltb x y = true <-> (x < y)%Q.
Proof.
  unfold Qltb. rewrite negb_true_iff, <- not_true_iff_false, Qle_bool_iff.
  split; [apply Qnot_le_lt | apply Qlt_not_le].
Qed.

Lemma Qltb_false x y : Qltb x y = false <-> (y <= x)%Q.
Proof. unfold Qltb. rewrite negb_false_iff. apply Qle_bool_iff. Qed.

Lemma Qgtb_true x y : Qgtb x y = true <-> (y < x)%Q.
Proof. apply Qltb_true. Qed.

Lemma Qgtb_false x y : Qgtb x y = false <-> (x <= y)%Q.
Proof. apply Qltb_false. Qed.

Lemma Qgeb_true x y : Qgeb x y = true <-> (y <= x)%Q.
Proof. apply Qle_bool_iff. Qed.

Lemma Qgeb_false x y : Qgeb x y = false <-> (x < y)%Q.
Proof.
  unfold Qgeb. rewrite <- not_true_iff_false, Qle_bool_iff.
  split; [apply Qnot_le_lt | apply Qlt_not_le].
Qed.

Lemma Qle_bool_false x y : Qle_bool x y = false <-> (y < x)%Q.
Proof. apply (Qgeb_false y x). Qed.

(** Turn every boolean comparison among the hypotheses into its
    proposition. *)
Ltac qprop :=
  repeat match goal with
  | H : Qltb _ _ = true |- _ => apply Qltb_true in H
  | H : Qltb _ _ = false |- _ => apply Qltb_false in H
  | H : Qgtb _ _ = true |- _ => apply Qgtb_true in H
  | H : Qgtb _ _ = false |- _ => apply Qgtb_false in H
  | H : Qgeb _ _ = true |- _ => apply Qgeb_true in H
  | H : Qgeb _ _ = false |- _ => apply Qgeb_false in H
  | H : Qle_bool _ _ = true |- _ => apply Qle_bool_iff in H
  | H : Qle_bool _ _ = false |- _ => apply Qle_bool_false in H
  end.

Lemma fmax_l a b : (a <= fmax a b)%Q.
Proof. unfold fmax. destruct (Qgtb a b) eqn:E; qprop; lra. Qed.

Lemma fmax_r a b : (b <= fmax a b)%Q.
Proof. unfold fmax. destruct (Qgtb a b) eqn:E; qprop; lra. Qed.

Lemma fmax_cases a b : fmax a b = a \/ fmax a b = b.
Proof. unfold fmax. destruct (Qgtb a b); auto. Qed.

Lemma fmax_lub a b c : (a <= c)%Q -> (b <= c)%Q -> (fmax a b <= c)%Q.
Proof. intros. destruct (fmax_cases a b) as [-> | ->]; assumption. Qed.

Lemma fmax_mono a b a' b' : (a <= a')%Q -> (b <= b')%Q -> (fmax a b <= fmax a' b')%Q.
Proof.
  intros Ha Hb. apply fmax_lub.
  - pose proof (fmax_l a' b'). lra.
  - pose proof (fmax_r a' b'). lra.
Qed.

(** ** binary32 rounding *)

Lemma two_neq_0 : ~ (2 == 0)%Q.
Proof. intros H. discriminate H. Qed.

Lemma pow2_pos e : (0 < pow2 e)%Q.
Proof. apply Qpower_0_lt. reflexivity. Qed.

Lemma pow2_add a b : (pow2 (a + b) == pow2 a * pow2 b)%Q.
Proof. apply Qpower_plus, two_neq_0. Qed.

Lemma pow2_sub a b : (pow2 (a - b) == pow2 a / pow2 b)%Q.
Proof. apply Qpower_minus, two_neq_0. Qed.

Lemma pow2_le a b : a <= b -> (pow2 a <= pow2 b)%Q.
Proof. intros H. apply Qpower_le_compat_l; [assumption | discriminate]. Qed.

Lemma pow2_lt a b : a < b -> (pow2 a < pow2 b)%Q.
Proof. intros H. apply Qpower_lt_compat_l; [assumption | reflexivity]. Qed.

Lemma pow2_lt_inv a b : (pow2 a < pow2 b)%Q -> a < b.
Proof. intros H. apply (Qpower_lt_compat_l_inv 2); [assumption | reflexivity]. Qed.

Lemma pow2_Z e : 0 <= e -> (pow2 e == inject_Z (2 ^ e))%Q.
Proof. intros He. unfold pow2. rewrite Zpower_Qpower by assumption. reflexivity. Qed.

Lemma pow2_0 : (pow2 0 == 1)%Q.
Proof. reflexivity. Qed.

Lemma pow2_neq_0 e : ~ (pow2 e == 0)%Q.
Proof. pose proof (pow2_pos e). intros H0. rewrite H0 in H. revert H. apply Qlt_irrefl. Qed.

Lemma div_mul_pow2 x e : (x / pow2 e * pow2 e == x)%Q.
Proof. unfold Qdiv. rewrite <- Qmult_assoc, (Qmult_comm (/ _)), Qmult_inv_r by apply pow2_neq_0. apply Qmult_1_r. Qed.

Lemma mul_div_pow2 x e : (x * pow2 e / pow2 e == x)%Q.
Proof. apply Qdiv_mult_l, pow2_neq_0. Qed.

Lemma div_pow2_le x y e : (x <= y)%Q -> (x / pow2 e <= y / pow2 e)%Q.
Proof.
  intros H. unfold Qdiv. apply Qmult_le_compat_r; [assumption |].
  apply Qlt_le_weak, Qinv_lt_0_compat, pow2_pos.
Qed.

Lemma mul_pow2_le x y e : (x <= y)%Q -> (x * pow2 e <= y * pow2 e)%Q.
Proof. intros H. apply Qmult_le_compat_r; [assumption | apply Qlt_le_weak, pow2_pos]. Qed.

Lemma le_div_pow2 c x e : (inject_Z c * pow2 e <= x)%Q -> (inject_Z c <= x / pow2 e)%Q.
Proof. intros H. apply (div_pow2_le _ _ e) in H. rewrite mul_div_pow2 in H. assumption. Qed.

Lemma div_pow2_le_Z c x e : (x <= inject_Z c * pow2 e)%Q -> (x / pow2 e <= inject_Z c)%Q.
Proof. intros H. apply (div_pow2_le _ _ e) in H. rewrite mul_div_pow2 in H. assumption. Qed.

(** [2^a / 2^b] as a fraction. *)
Lemma pow2_frac a b : 0 <= a -> 0 <= b -> (pow2 (a - b) == 2 ^ a # Z.to_pos (2 ^ b))%Q.
Proof.
  intros Ha Hb. rewrite pow2_sub, !pow2_Z by assumption.
  rewrite (Qmake_Qdiv (2 ^ a) (Z.to_pos (2 ^ b))).
  rewrite Z2Pos.id by (apply Z.pow_pos_nonneg; lia). reflexivity.
Qed.

(** ** Rounding to the nearest integer, ties to even *)

Lemma rne_bounds q : Qfloor q <= rne q <= Qfloor q + 1.
Proof. unfold rne. destruct (_ ?= _)%Q; [destruct (Z.even _) |..]; lia. Qed.

Lemma rne_Z z : rne (inject_Z z) = z.
Proof.
  unfold rne. rewrite Qfloor_Z.
  destruct (Qcompare_spec (inject_Z z - inject_Z z) (1 # 2)) as [H | H | H]; try reflexivity;
    exfalso; lra.
Qed.

Lemma rne_comp q q' : (q == q')%Q -> rne q = rne q'.
Proof.
  intros H. unfold rne. rewrite (Qfloor_comp q q' H).
  assert (E : (q - inject_Z (Qfloor q') ?= 1 # 2)%Q = (q' - inject_Z (Qfloor q') ?= 1 # 2)%Q).
  { apply Qcompare_comp; [rewrite H; reflexivity | reflexivity]. }
  rewrite E. reflexivity.
Qed.

Lemma rne_le q q' : (q <= q')%Q -> rne q <= rne q'.
Proof.
  intros H. pose proof (Qfloor_resp_le q q' H) as Hf.
  pose proof (rne_bounds q) as Hb. pose proof (rne_bounds q') as Hb'.
  destruct (Z_lt_le_dec (Qfloor q) (Qfloor q')) as [Hlt | Hge]; [lia |].
  assert (E : Qfloor q = Qfloor q') by lia.
  unfold rne in *. rewrite E in *.
  destruct (Qcompare_spec (q - inject_Z (Qfloor q')) (1 # 2)) as [H1 | H1 | H1];
    destruct (Qcompare_spec (q' - inject_Z (Qfloor q')) (1 # 2)) as [H2 | H2 | H2];
    try lia; try (exfalso; lra); destruct (Z.even _); lia.
Qed.

(** ** The position of the leading bit *)

Lemma Qabs_frac x : Qabs x = (Z.abs (Qnum x) # Qden x)%Q.
Proof. destruct x. reflexivity. Qed.

Lemma Qnum_abs_pos x : ~ (x == 0)%Q -> 0 < Z.abs (Qnum x).
Proof.
  intros Hx. destruct (Z.eq_dec (Qnum x) 0) as [E | Hne]; [| lia].
  exfalso. apply Hx. destruct x as [n d]. simpl in E. subst n. reflexivity.
Qed.

Lemma ilog2_spec x :
  ~ (x == 0)%Q -> (pow2 (ilog2 x) <= Qabs x)%Q /\ (Qabs x < pow2 (ilog2 x + 1))%Q.
Proof.
  intros Hx. pose proof (Qnum_abs_pos x Hx) as HN.
  unfold ilog2.
  set (a := Z.log2 (Z.abs (Qnum x))). set (b := Z.log2 (Z.pos (Qden x))).
  assert (Ha : 0 <= a) by apply Z.log2_nonneg.
  assert (Hb : 0 <= b) by apply Z.log2_nonneg.
  destruct (Z.log2_spec (Z.abs (Qnum x)) HN) as [Ha1 Ha2]. fold a in Ha1, Ha2.
  destruct (Z.log2_spec (Z.pos (Qden x)) ltac:(lia)) as [Hb1 Hb2]. fold b in Hb1, Hb2.
  assert (Hpa : 0 < 2 ^ a) by (apply Z.pow_pos_nonneg; lia).
  assert (Hpb : 0 < 2 ^ b) by (apply Z.pow_pos_nonneg; lia).
  rewrite Z.pow_succ_r in Ha2, Hb2 by assumption.
  destruct (Qle_bool (pow2 (a - b)) (Qabs x)) eqn:E.
  - apply Qle_bool_iff in E. split; [assumption |].
    replace (a - b + 1) with ((a + 1) - b) by lia.
    rewrite pow2_frac, Qabs_frac by lia.
    unfold Qlt. simpl. rewrite Z2Pos.id by assumption.
    rewrite Z.pow_add_r, Z.pow_1_r by lia. nia.
  - assert (E' : (Qabs x < pow2 (a - b))%Q).
    { apply Qnot_le_lt. intros H. apply Qle_bool_iff in H. congruence. }
    split; [| replace (a - b - 1 + 1) with (a - b) by lia; assumption].
    replace (a - b - 1) with (a - (b + 1)) by lia.
    rewrite pow2_frac, Qabs_frac by lia.
    unfold Qle. simpl. rewrite Z2Pos.id by (apply Z.pow_pos_nonneg; lia).
    rewrite Z.pow_add_r, Z.pow_1_r by lia. nia.
Qed.

Lemma ilog2_unique x k :
  (pow2 k <= Qabs x)%Q -> (Qabs x < pow2 (k + 1))%Q -> ilog2 x = k.
Proof.
  intros Hlo Hhi.
  assert (Hx : ~ (x == 0)%Q).
  { intros E. rewrite E in Hlo. pose proof (pow2_pos k).
    change (Qabs 0) with 0%Q in Hlo. lra. }
  destruct (ilog2_spec x Hx) as [Hlo' Hhi'].
  assert (H1 : ilog2 x < k + 1) by (apply pow2_lt_inv; lra).
  assert (H2 : k < ilog2 x + 1) by (apply pow2_lt_inv; lra).
  lia.
Qed.

Lemma ilog2_comp x y : ~ (x == 0)%Q -> (x == y)%Q -> ilog2 x = ilog2 y.
Proof.
  intros Hx E. destruct (ilog2_spec x Hx) as [Hlo Hhi]. symmetry.
  apply ilog2_unique; rewrite <- E; assumption.
Qed.

Lemma ilog2_le x y : ~ (x == 0)%Q -> (Qabs x <= Qabs y)%Q -> ilog2 x <= ilog2 y.
Proof.
  intros Hx Hle.
  assert (Hy : ~ (y == 0)%Q).
  { intros E. rewrite E in Hle.
    destruct (ilog2_spec x Hx) as [Hlo _]. pose proof (pow2_pos (ilog2 x)).
    change (Qabs 0) with 0%Q in Hle. lra. }
  destruct (ilog2_spec x Hx) as [Hlo Hhi]. destruct (ilog2_spec y Hy) as [Hlo' Hhi'].
  assert (ilog2 x < ilog2 y + 1) by (apply pow2_lt_inv; lra). lia.
Qed.

(** ** Rounding to binary32 *)

Lemma ulp_exponent_min x : -149 <= ulp_exponent x.
Proof. unfold ulp_exponent. lia. Qed.

Lemma round32_0 x : (x == 0)%Q -> round32 x = 0%Q.
Proof. intros E. unfold round32. rewrite (Qeq_eq_bool _ _ E). reflexivity. Qed.

Lemma round32_eq x :
  ~ (x == 0)%Q ->
  (round32 x == inject_Z (rne (x / pow2 (ulp_exponent x))) * pow2 (ulp_exponent x))%Q.
Proof.
  intros Hx. unfold round32.
  destruct (Qeq_bool x 0) eqn:E; [apply Qeq_bool_eq in E; contradiction |].
  apply Qred_correct.
Qed.

Lemma round32_red x : Qred (round32 x) = round32 x.
Proof.
  unfold round32. destruct (Qeq_bool x 0); [reflexivity |].
  apply Qred_complete, Qred_correct.
Qed.

Lemma round32_comp x y : (x == y)%Q -> round32 x = round32 y.
Proof.
  intros E. destruct (Qeq_dec x 0) as [H0 | Hx].
  - rewrite (round32_0 x H0), (round32_0 y); [reflexivity | rewrite <- E; assumption].
  - assert (Hy : ~ (y == 0)%Q) by (rewrite <- E; assumption).
    rewrite <- (round32_red x), <- (round32_red y). apply Qred_complete.
    rewrite (round32_eq x Hx), (round32_eq y Hy).
    assert (Ee : ulp_exponent x = ulp_exponent y)
      by (unfold ulp_exponent; rewrite (ilog2_comp x y Hx E); reflexivity).
    rewrite Ee. rewrite (rne_comp (x / pow2 (ulp_exponent y)) (y / pow2 (ulp_exponent y)));
      [reflexivity | rewrite E; reflexivity].
Qed.

(** An integer multiple of the ulp above (below) [x] is above (below) the
    rounded value. *)
Lemma round32_upper x c :
  ~ (x == 0)%Q -> (x <= inject_Z c * pow2 (ulp_exponent x))%Q ->
  (round32 x <= inject_Z c * pow2 (ulp_exponent x))%Q.
Proof.
  intros Hx H. rewrite (round32_eq x Hx). apply mul_pow2_le.
  rewrite <- Zle_Qle. rewrite <- (rne_Z c). apply rne_le. apply div_pow2_le_Z. assumption.
Qed.

Lemma round32_lower x c :
  ~ (x == 0)%Q -> (inject_Z c * pow2 (ulp_exponent x) <= x)%Q ->
  (inject_Z c * pow2 (ulp_exponent x) <= round32 x)%Q.
Proof.
  intros Hx H. rewrite (round32_eq x Hx). apply mul_pow2_le.
  rewrite <- Zle_Qle. rewrite <- (rne_Z c) at 1. apply rne_le. apply le_div_pow2. assumption.
Qed.

Lemma round32_nonneg x : (0 <= x)%Q -> (0 <= round32 x)%Q.
Proof.
  intros H. destruct (Qeq_dec x 0) as [H0 | Hx]; [rewrite (round32_0 x H0); apply Qle_refl |].
  pose proof (round32_lower x 0 Hx) as Hl.
  assert (E : (inject_Z 0 * pow2 (ulp_exponent x) == 0)%Q) by apply Qmult_0_l.
  rewrite E in Hl. apply Hl. assumption.
Qed.

Lemma round32_nonpos x : (x <= 0)%Q -> (round32 x <= 0)%Q.
Proof.
  intros H. destruct (Qeq_dec x 0) as [H0 | Hx]; [rewrite (round32_0 x H0); apply Qle_refl |].
  pose proof (round32_upper x 0 Hx) as Hl.
  assert (E : (inject_Z 0 * pow2 (ulp_exponent x) == 0)%Q) by apply Qmult_0_l.
  rewrite E in Hl. apply Hl. assumption.
Qed.

(** A power of two at or above the binade of [x], as a multiple of the ulp
    of [x]. *)
Lemma pow2_as_multiple e k :
  e <= k -> (pow2 k == inject_Z (2 ^ (k - e)) * pow2 e)%Q.
Proof.
  intros H. rewrite <- pow2_Z by lia. rewrite <- pow2_add.
  replace (k - e + e) with k by lia. reflexivity.
Qed.

Lemma round32_le_pos x y : (0 < x)%Q -> (x <= y)%Q -> (round32 x <= round32 y)%Q.
Proof.
  intros Hx0 Hxy.
  assert (Hx : ~ (x == 0)%Q) by (intros E; rewrite E in Hx0; revert Hx0; apply Qlt_irrefl).
  assert (Hy0 : (0 < y)%Q) by lra.
  assert (Hy : ~ (y == 0)%Q) by (intros E; rewrite E in Hy0; revert Hy0; apply Qlt_irrefl).
  destruct (ilog2_spec x Hx) as [Hxl Hxh]. destruct (ilog2_spec y Hy) as [Hyl Hyh].
  rewrite Qabs_pos in Hxl, Hxh, Hyl, Hyh by lra.
  assert (Hil : ilog2 x <= ilog2 y).
  { apply ilog2_le; [assumption |]. rewrite !Qabs_pos by lra. assumption. }
  assert (He : ulp_exponent x <= ulp_exponent y) by (unfold ulp_exponent; lia).
  destruct (Z.eq_dec (ulp_exponent x) (ulp_exponent y)) as [Ee | Hne].
  - rewrite (round32_eq x Hx), (round32_eq y Hy), Ee. apply mul_pow2_le.
    rewrite <- Zle_Qle. apply rne_le. apply div_pow2_le. assumption.
  - assert (Hey : ulp_exponent y = ilog2 y - 23) by (unfold ulp_exponent in *; lia).
    assert (Hk : ulp_exponent x <= ulp_exponent y + 23) by lia.
    apply Qle_trans with (pow2 (ulp_exponent y + 23)).
    + rewrite (pow2_as_multiple (ulp_exponent x) (ulp_exponent y + 23) Hk).
      apply round32_upper; [assumption |].
      rewrite <- (pow2_as_multiple (ulp_exponent x) (ulp_exponent y + 23) Hk).
      apply Qle_trans with (pow2 (ilog2 x + 1)); [lra |].
      apply pow2_le. unfold ulp_exponent in *. lia.
    + rewrite (pow2_as_multiple (ulp_exponent y) (ulp_exponent y + 23) ltac:(lia)).
      apply round32_lower; [assumption |].
      rewrite <- (pow2_as_multiple (ulp_exponent y) (ulp_exponent y + 23) ltac:(lia)).
      rewrite Hey. replace (ilog2 y - 23 + 23) with (ilog2 y) by lia. assumption.
Qed.

Lemma ulp_exponent_opp x : ulp_exponent (- x) = ulp_exponent x.
Proof.
  unfold ulp_exponent, ilog2. destruct x as [n d]. simpl Qnum. simpl Qden.
  rewrite Z.abs_opp.
  assert (E : Qabs (- (n # d)) = Qabs (n # d)).
  { unfold Qabs, Qopp. simpl. rewrite Z.abs_opp. reflexivity. }
  rewrite E. reflexivity.
Qed.

Lemma rne_opp q : rne (- q) = - rne q.
Proof.
  pose proof (Qfloor_le q) as H1. pose proof (Qlt_floor q) as H2.
  pose proof (Qfloor_le (- q)) as H3. pose proof (Qlt_floor (- q)) as H4.
  rewrite inject_Z_plus in H2, H4. change (inject_Z 1) with 1%Q in H2, H4.
  destruct (Qeq_dec q (inject_Z (Qfloor q))) as [E | Hne].
  - rewrite (rne_comp q _ E). rewrite (rne_comp (- q) (inject_Z (- Qfloor q))).
    + rewrite !rne_Z. reflexivity.
    + rewrite inject_Z_opp, <- E. reflexivity.
  - assert (Hf : Qfloor (- q) = - Qfloor q - 1).
    { assert (Hlt : (inject_Z (Qfloor q) < q)%Q).
      { apply Qle_lteq in H1. destruct H1 as [? | E]; [assumption |].
        exfalso. apply Hne. symmetry. assumption. }
      assert (A : (inject_Z (Qfloor (- q)) < inject_Z (- Qfloor q))%Q)
        by (rewrite inject_Z_opp; lra).
      assert (B : (inject_Z (- Qfloor q - 1) < inject_Z (Qfloor (- q) + 1))%Q).
      { rewrite inject_Z_plus. unfold Z.sub. rewrite inject_Z_plus, !inject_Z_opp.
        change (inject_Z 1) with 1%Q. lra. }
      rewrite <- Zlt_Qlt in A, B. lia. }
    unfold rne. rewrite Hf.
    assert (Ei : (inject_Z (- Qfloor q - 1) == - inject_Z (Qfloor q) - 1)%Q).
    { unfold Z.sub. rewrite inject_Z_plus, !inject_Z_opp. change (inject_Z 1) with 1%Q. lra. }
    destruct (Qcompare_spec (q - inject_Z (Qfloor q)) (1 # 2)) as [A | A | A];
      destruct (Qcompare_spec (- q - inject_Z (- Qfloor q - 1)) (1 # 2)) as [B | B | B];
      rewrite Ei in B; try lia; try (exfalso; lra).
    replace (- Qfloor q - 1) with (- (Qfloor q + 1)) by lia.
    rewrite Z.even_opp, Z.even_add. simpl (Z.even 1).
    destruct (Z.even (Qfloor q)); simpl; lia.
Qed.

Lemma round32_opp x : (round32 (- x) == - round32 x)%Q.
Proof.
  destruct (Qeq_dec x 0) as [H0 | Hx].
  - rewrite (round32_0 x H0), (round32_0 (- x)); [reflexivity | rewrite H0; reflexivity].
  - assert (Hx' : ~ (- x == 0)%Q) by (intros E; apply Hx; lra).
    rewrite (round32_eq x Hx), (round32_eq _ Hx'), ulp_exponent_opp.
    rewrite (rne_comp (- x / pow2 (ulp_exponent x)) (- (x / pow2 (ulp_exponent x)))).
    + rewrite rne_opp, inject_Z_opp. ring.
    + unfold Qdiv. ring.
Qed.

(** Rounding is monotone. *)
Lemma round32_le x y : (x <= y)%Q -> (round32 x <= round32 y)%Q.
Proof.
  intros H.
  destruct (Qlt_le_dec 0 x) as [Hx | Hx]; [apply round32_le_pos; assumption |].
  destruct (Qlt_le_dec y 0) as [Hy | Hy].
  - assert (Hm : (round32 (- y) <= round32 (- x))%Q) by (apply round32_le_pos; lra).
    rewrite !round32_opp in Hm. lra.
  - apply Qle_trans with 0%Q; [apply round32_nonpos | apply round32_nonneg]; assumption.
Qed.

(** Numbers with a 24-bit significand are left unchanged. *)
Lemma round32_exact_lt m k :
  Z.abs m < 2 ^ 24 -> -149 <= k ->
  (round32 (inject_Z m * pow2 k) == inject_Z m * pow2 k)%Q.
Proof.
  intros Hm Hk. set (x := (inject_Z m * pow2 k)%Q).
  destruct (Z.eq_dec m 0) as [-> | Hm0].
  - rewrite (round32_0 x); subst x; [| apply Qmult_0_l]. symmetry. apply Qmult_0_l.
  - assert (Hx : ~ (x == 0)%Q).
    { subst x. intros E. apply Qmult_integral in E. destruct E as [E | E].
      - apply Hm0. change 0%Q with (inject_Z 0) in E. exact (proj1 (inject_Z_injective m 0) E).
      - revert E. apply pow2_neq_0. }
    destruct (ilog2_spec x Hx) as [Hlo Hhi].
    assert (Habs : (Qabs x == inject_Z (Z.abs m) * pow2 k)%Q).
    { subst x. rewrite Qabs_Qmult, (Qabs_pos (pow2 k)) by (apply Qlt_le_weak, pow2_pos).
      destruct m; reflexivity. }
    assert (Hlt : (Qabs x < pow2 (24 + k))%Q).
    { rewrite Habs, pow2_add, (pow2_Z 24) by lia.
      apply Qmult_lt_compat_r; [apply pow2_pos |]. rewrite <- Zlt_Qlt. assumption. }
    assert (Hil : ilog2 x < 24 + k) by (apply pow2_lt_inv; lra).
    assert (He : ulp_exponent x <= k) by (unfold ulp_exponent; lia).
    rewrite (round32_eq x Hx).
    assert (Ex : (x == inject_Z (m * 2 ^ (k - ulp_exponent x)) * pow2 (ulp_exponent x))%Q).
    { subst x. rewrite inject_Z_mult, <- Qmult_assoc, <- (pow2_as_multiple _ k He). reflexivity. }
    rewrite (rne_comp _ (inject_Z (m * 2 ^ (k - ulp_exponent x)))).
    + rewrite rne_Z. symmetry. assumption.
    + rewrite Ex at 1. apply mul_div_pow2.
Qed.

Lemma round32_exact m k :
  Z.abs m <= 2 ^ 24 -> -149 <= k ->
  (round32 (inject_Z m * pow2 k) == inject_Z m * pow2 k)%Q.
Proof.
  intros Hm Hk.
  destruct (Z_lt_le_dec (Z.abs m) (2 ^ 24)) as [Hlt | Hge]; [apply round32_exact_lt; assumption |].
  assert (Hm' : m = 2 * (m / 2) /\ Z.abs (m / 2) < 2 ^ 24).
  { change (2 ^ 24) with 16777216 in *. split; Z.div_mod_to_equations; lia. }
  destruct Hm' as [Em Hh].
  assert (E : (inject_Z m * pow2 k == inject_Z (m / 2) * pow2 (k + 1))%Q).
  { rewrite Em at 1. rewrite inject_Z_mult, pow2_add.
    change (pow2 1) with 2%Q. change (inject_Z 2) with 2%Q. ring. }
  rewrite (round32_comp _ _ E), E. apply round32_exact_lt; [assumption | lia].
Qed.

Lemma Qred_inject_Z n : Qred (inject_Z n) = inject_Z n.
Proof.
  unfold Qred, inject_Z.
  pose proof (Z.ggcd_gcd n 1) as Hg. pose proof (Z.ggcd_correct_divisors n 1) as Hd.
  destruct (Z.ggcd n 1) as [g [aa bb]]. simpl in Hg.
  rewrite Z.gcd_1_r in Hg. subst g. destruct Hd as [Ha Hb].
  assert (Ea : aa = n) by lia. assert (Eb : bb = 1) by lia. rewrite Ea, Eb. reflexivity.
Qed.

Lemma round32_Z n : Z.abs n <= 2 ^ 24 -> round32 (inject_Z n) = inject_Z n.
Proof.
  intros Hn.
  assert (E : (round32 (inject_Z n) == inject_Z n)%Q).
  { assert (E0 : (inject_Z n == inject_Z n * pow2 0)%Q) by (rewrite pow2_0; ring).
    rewrite (round32_comp _ _ E0), (round32_exact n 0 Hn ltac:(lia)). symmetry. exact E0. }
  apply Qred_complete in E. rewrite round32_red, Qred_inject_Z in E. exact E.
Qed.

Lemma round32_idem x : round32 (round32 x) = round32 x.
Proof.
  destruct (Qeq_dec x 0) as [H0 | Hx].
  - rewrite (round32_0 x H0). reflexivity.
  - assert (E : (round32 (round32 x) == round32 x)%Q).
    { rewrite (round32_comp _ _ (round32_eq x Hx)), (round32_eq x Hx).
      apply round32_exact; [| apply ulp_exponent_min].
      destruct (ilog2_spec x Hx) as [_ Hhi].
      assert (Hlt : (Qabs x < pow2 (ulp_exponent x + 24))%Q).
      { apply Qlt_le_trans with (pow2 (ilog2 x + 1)); [assumption |].
        apply pow2_le. unfold ulp_exponent. lia. }
      rewrite pow2_add, (pow2_Z 24) in Hlt by lia.
      apply Qabs_Qlt_condition in Hlt. destruct Hlt as [Hl Hh].
      assert (A : (inject_Z (- 2 ^ 24) <= x / pow2 (ulp_exponent x))%Q).
      { apply le_div_pow2. rewrite inject_Z_opp.
        assert (Er : (- inject_Z (2 ^ 24) * pow2 (ulp_exponent x)
                      == - (pow2 (ulp_exponent x) * inject_Z (2 ^ 24)))%Q) by ring.
        rewrite Er. lra. }
      assert (B : (x / pow2 (ulp_exponent x) <= inject_Z (2 ^ 24))%Q).
      { apply div_pow2_le_Z.
        assert (Er : (inject_Z (2 ^ 24) * pow2 (ulp_exponent x)
                      == pow2 (ulp_exponent x) * inject_Z (2 ^ 24))%Q) by ring.
        rewrite Er. lra. }
      apply rne_le in A, B. rewrite rne_Z in A, B. lia. }
    apply Qred_complete in E. rewrite !round32_red in E. exact E.
Qed.

(** ** Float operations *)

Lemma fadd_le a b a' b' : (a <= a')%Q -> (b <= b')%Q -> (fadd a b <= fadd a' b')%Q.
Proof. intros Ha Hb. unfold fadd. apply round32_le. lra. Qed.

(** Adding a non-negative [float] to a [float] does not go back. *)
Lemma fadd_ge_l a b : round32 a = a -> (0 <= b)%Q -> (a <= fadd a b)%Q.
Proof.
  intros Ha Hb. rewrite <- Ha at 1. unfold fadd. apply round32_le. lra.
Qed.

Lemma fadd_float a b : round32 (fadd a b) = fadd a b.
Proof. apply round32_idem. Qed.

Lemma of_int_float z : round32 (of_int z) = of_int z.
Proof. apply round32_idem. Qed.

Lemma fmax_float a b : round32 a = a -> round32 b = b -> round32 (fmax a b) = fmax a b.
Proof. intros Ha Hb. destruct (fmax_cases a b) as [-> | ->]; assumption. Qed.

Lemma of_int_le a b : a <= b -> (of_int a <= of_int b)%Q.
Proof. intros H. unfold of_int. apply round32_le. rewrite <- Zle_Qle. assumption. Qed.

Lemma of_int_exact z : Z.abs z <= TIME_MAX -> of_int z = inject_Z z.
Proof. intros H. apply round32_Z. assumption. Qed.

Lemma of_int_nonneg z : 0 <= z -> (0 <= of_int z)%Q.
Proof.
  intros H. apply round32_nonneg. change 0%Q with (inject_Z 0). rewrite <- Zle_Qle. assumption.
Qed.


(** ** Truncation *)

Lemma to_int_floor q : (0 <= q)%Q -> (q < 2147483648)%Q -> to_int q = Qfloor q.
Proof.
  intros H0 Hb.
  assert (E : Z.quot (Qnum q) (Z.pos (Qden q)) = Qfloor q).
  { destruct q as [n d]. unfold Qfloor, Qle in *. simpl in *.
    apply Z.quot_div_nonneg; lia. }
  unfold to_int. rewrite E.
  assert (H1 : 0 <= Qfloor q).
  { replace 0 with (Qfloor 0) by reflexivity. apply Qfloor_resp_le. assumption. }
  assert (H2 : Qfloor q < 2147483648).
  { rewrite Zlt_Qlt. apply Qle_lt_trans with q; [apply Qfloor_le | assumption]. }
  unfold INT_MIN, INT_MAX.
  destruct (Z.leb_spec (-2147483648) (Qfloor q)); [| lia].
  destruct (Z.leb_spec (Qfloor q) 2147483647); [reflexivity | lia].
Qed.


Lemma to_int_mono p q :
  (0 <= p)%Q -> (p <= q)%Q -> (q < 2147483648)%Q -> to_int p <= to_int q.
Proof.
  intros Hp Hpq Hq. rewrite !to_int_floor by lra. apply Qfloor_resp_le, Hpq.
Qed.

Lemma to_int_ge z q :
  0 <= z -> (inject_Z z <= q)%Q -> (q < 2147483648)%Q -> z <= to_int q.
Proof.
  intros H0 H Hq.
  assert (H0' : (0 <= inject_Z z)%Q) by (change 0%Q with (inject_Z 0); rewrite <- Zle_Qle; assumption).
  rewrite to_int_floor by lra.
  rewrite <- (Qfloor_Z z). apply Qfloor_resp_le. assumption.
Qed.

Lemma to_int_nonneg q : (0 <= q)%Q -> (q < 2147483648)%Q -> 0 <= to_int q.
Proof. intros H0 Hq. apply to_int_ge; [lia | assumption | assumption]. Qed.


(** ** The half-hour gate *)

Lemma slot_time_of_nonneg w :
  0 <= w -> slot_time_of w = 60 * (w / 60) + (if 30 <? w mod 60 then 30 else 0).
Proof.
  intros Hw. unfold slot_time_of.
  rewrite Z.quot_div_nonneg, Z.rem_mod_nonneg by lia.
  rewrite Z.gtb_ltb. lia.
Qed.



Lemma slot_time_of_mono w w' : 0 <= w -> w <= w' -> slot_time_of w <= slot_time_of w'.
Proof.
  intros Hw Hle. rewrite !slot_time_of_nonneg by lia.
  destruct (30 <? w mod 60) eqn:E1; destruct (30 <? w' mod 60) eqn:E2;
    try apply Z.ltb_lt in E1; try apply Z.ltb_ge in E1;
    try apply Z.ltb_lt in E2; try apply Z.ltb_ge in E2;
    Z.div_mod_to_equations; lia.
Qed.

Lemma slot_time_of_mod30 w : 0 <= w -> slot_time_of w mod 30 = 0.
Proof.
  intros Hw. rewrite slot_time_of_nonneg by lia.
  destruct (30 <? w mod 60); Z.div_mod_to_equations; lia.
Qed.

Lemma slot_time_of_le w : 0 <= w -> slot_time_of w <= w.
Proof.
  intros Hw. rewrite slot_time_of_nonneg by lia.
  destruct (30 <? w mod 60) eqn:E; try apply Z.ltb_lt in E;
    Z.div_mod_to_equations; lia.
Qed.

Lemma slot_time_of_hour w : 0 <= w -> w mod 60 = 0 -> slot_time_of w = w.
Proof.
  intros Hw Hm. rewrite slot_time_of_nonneg by lia. rewrite Hm. simpl.
  Z.div_mod_to_equations; lia.
Qed.

(** ** Scanning a range of slots *)

Lemma find_seqZ_spec (p : Z -> bool) lo n :
  match find p (seqZ lo n) with
  | Some s => (lo <= s < lo + n) /\ p s = true /\ (forall s', lo <= s' < s -> p s' = false)
  | None => forall s, lo <= s < lo + n -> p s = false
  end.
Proof.
  destruct (Z_le_gt_dec n 0) as [Hn | Hn].
  { rewrite seqZ_nil by lia. simpl. intros; lia. }
  remember (Z.to_nat n) as k eqn:Hk.
  assert (Hnk : n = Z.of_nat k) by lia. clear Hk Hn. subst n.
  revert lo. induction k as [| k IH]; intros lo.
  - simpl. intros; lia.
  - rewrite seqZ_cons by lia. simpl.
    replace (Z.pred (Z.of_nat (S k))) with (Z.of_nat k) by lia.
    destruct (p lo) eqn:Hp.
    + split; [lia |]. split; [assumption |]. intros; lia.
    + specialize (IH (Z.succ lo)).
      destruct (find p (seqZ (Z.succ lo) (Z.of_nat k))) as [s |].
      * destruct IH as (Hr & Hs & Hfirst). split; [lia |]. split; [assumption |].
        intros s' Hs'. destruct (Z.eq_dec s' lo) as [-> | Hne]; [assumption |].
        apply Hfirst. lia.
      * intros s Hs. destruct (Z.eq_dec s lo) as [-> | Hne]; [assumption |].
        apply IH. lia.
Qed.

Lemma find_seqZ_first (p : Z -> bool) lo n s :
  lo <= s < lo + n -> p s = true -> (forall s', lo <= s' < s -> p s' = false) ->
  find p (seqZ lo n) = Some s.
Proof.
  intros Hr Hp Hfirst. pose proof (find_seqZ_spec p lo n) as H.
  destruct (find p (seqZ lo n)) as [s0 |].
  - destruct H as (Hr0 & Hp0 & Hf0). f_equal.
    destruct (Z.lt_trichotomy s0 s) as [Hlt | [-> | Hgt]]; [| reflexivity |].
    + rewrite Hfirst in Hp0 by lia. discriminate.
    + rewrite Hf0 in Hp by lia. discriminate.
  - rewrite H in Hp by lia. discriminate.
Qed.

(** ** Time-slot arithmetic *)

Lemma slot_index_below input t :
  (t < of_int (slot_start input 0))%Q -> arrival_to_slot_index t input = -1.
Proof.
  intros H. unfold arrival_to_slot_index. apply Qltb_true in H. rewrite H. reflexivity.
Qed.

Lemma slot_index_last input t :
  ~ (t < of_int (slot_start input 0))%Q ->
  slot_time_of (to_int t) > slot_start input (n_slots input - 1) ->
  arrival_to_slot_index t input = n_slots input - 1.
Proof.
  intros Hge Hgt. unfold arrival_to_slot_index.
  destruct (Qltb t (of_int (slot_start input 0))) eqn:E; [qprop; contradiction |].
  apply Z.gtb_gt in Hgt. rewrite Hgt. reflexivity.
Qed.

Lemma slot_index_scan input t :
  ~ (t < of_int (slot_start input 0))%Q ->
  slot_time_of (to_int t) <= slot_start input (n_slots input - 1) ->
  arrival_to_slot_index t input =
    match find (fun s => slot_start input s =? slot_time_of (to_int t))
               (seqZ 0 (n_slots input)) with
    | Some s => s
    | None => -1
    end.
Proof.
  intros Hge Hle. unfold arrival_to_slot_index.
  destruct (Qltb t (of_int (slot_start input 0))) eqn:E; [qprop; contradiction |].
  destruct (slot_time_of (to_int t) >? slot_start input (n_slots input - 1)) eqn:E2;
    [apply Z.gtb_gt in E2; lia | reflexivity].
Qed.

Lemma slot_index_found input t s :
  strictly_increasing input ->
  ~ (t < of_int (slot_start input 0))%Q ->
  slot_time_of (to_int t) <= slot_start input (n_slots input - 1) ->
  0 <= s < n_slots input -> slot_start input s = slot_time_of (to_int t) ->
  arrival_to_slot_index t input = s.
Proof.
  intros Hinc Hge Hle Hs Heq. rewrite slot_index_scan by assumption.
  rewrite (find_seqZ_first _ 0 (n_slots input) s); [reflexivity | lia | |].
  - apply Z.eqb_eq. assumption.
  - intros s' Hs'. apply Z.eqb_neq. pose proof (Hinc s' s). lia.
Qed.

Lemma slot_index_missing input t :
  ~ (t < of_int (slot_start input 0))%Q ->
  slot_time_of (to_int t) <= slot_start input (n_slots input - 1) ->
  (forall s, 0 <= s < n_slots input -> slot_start input s <> slot_time_of (to_int t)) ->
  arrival_to_slot_index t input = -1.
Proof.
  intros Hge Hle Hno. rewrite slot_index_scan by assumption.
  pose proof (find_seqZ_spec (fun s => slot_start input s =? slot_time_of (to_int t))
                0 (n_slots input)) as H.
  destruct (find _ _) as [s |]; [| reflexivity].
  destruct H as (Hr & Hp & _). apply Z.eqb_eq in Hp. exfalso. apply (Hno s); [lia | assumption].
Qed.






(** ** Feasibility oracle *)

Lemma clamp_slot x : (if x <? 0 then 0 else x) = Z.max 0 x.
Proof. destruct (x <? 0) eqn:E; [apply Z.ltb_lt in E | apply Z.ltb_ge in E]; lia. Qed.

Lemma find_next_open_time_first input c t s :
  let s0 := Z.max 0 (arrival_to_slot_index t input) in
  s0 <= s < n_slots input -> is_open input c s = true ->
  (forall s', s0 <= s' < s -> is_open input c s' = false) ->
  find_next_open_time c t input = fmax t (of_int (slot_start input s)).
Proof.
  intros s0 Hs Hopen Hfirst. unfold find_next_open_time. rewrite clamp_slot. fold s0.
  rewrite (find_seqZ_first _ s0 (n_slots input - s0) s); [reflexivity | lia | assumption |].
  intros s' Hs'. apply Hfirst. lia.
Qed.

Lemma find_next_open_time_none input c t :
  let s0 := Z.max 0 (arrival_to_slot_index t input) in
  (forall s, s0 <= s < n_slots input -> is_open input c s = false) ->
  find_next_open_time c t input = (-1)%Q.
Proof.
  intros s0 Hnone. unfold find_next_open_time. rewrite clamp_slot. fold s0.
  pose proof (find_seqZ_spec (fun s => is_open input c s) s0 (n_slots input - s0)) as H.
  destruct (find _ _) as [s |]; [| reflexivity].
  destruct H as (Hr & Hp & _). rewrite Hnone in Hp by lia. discriminate.
Qed.

(** C4: [find_next_open_time] scans upward from the arrival's slot (from
    slot 0 when the slot index is none) and returns the later of the
    arrival time and the start of the first slot in which the checkpoint is
    open, or -1 when no slot at or after that index is open.  In scenario
    S3 the arrival is 610, the open time 630 and the departure 637. *)
Theorem find_next_open_time_scan (input : SolverInput) (c : Z) (t : Q) :
  let s0 := Z.max 0 (arrival_to_slot_index t input) in
  (arrival_to_slot_index t input = -1 -> s0 = 0) /\
  (forall s, s0 <= s < n_slots input -> is_open input c s = true ->
     (forall s', s0 <= s' < s -> is_open input c s' = false) ->
     find_next_open_time c t input = fmax t (of_int (slot_start input s)) /\
     (t <= find_next_open_time c t input)%Q /\
     (of_int (slot_start input s) <= find_next_open_time c t input)%Q /\
     (find_next_open_time c t input = t \/
      find_next_open_time c t input = of_int (slot_start input s))) /\
  ((forall s, s0 <= s < n_slots input -> is_open input c s = false) ->
     find_next_open_time c t input = (-1)%Q) /\
  (let arr := fadd (of_int (start_time s3_input)) (tt s3_input START_IDX 0) in
   arr = 610 # 1 /\
   is_open s3_input 0 0 = false /\ is_open s3_input 0 1 = true /\
   find_next_open_time 0 arr s3_input = 630 # 1 /\
   visit s3_input (of_int (start_time s3_input)) START_IDX 0 = Some (637 # 1) /\
   dp_at 1 (init_state s3_input) 1 0 = 637 # 1).
Proof.
  intros s0. split; [subst s0; lia |]. split; [| split].
  - intros s Hs Hopen Hfirst.
    rewrite (find_next_open_time_first input c t s Hs Hopen Hfirst).
    split; [reflexivity |]. split; [apply fmax_l |]. split; [apply fmax_r |].
    apply fmax_cases.
  - apply find_next_open_time_none.
  - vm_compute. repeat split; reflexivity.
Qed.

(** ** Tables *)

Lemma vget_vset_eq {A} (d : A) v i x :
  (Z.to_nat i < length v)%nat -> vget d (vset v i x) i = x.
Proof.
  intros Hi. unfold vget, vset. rewrite nth_lookup, list_lookup_insert_eq by assumption.
  reflexivity.
Qed.

Lemma vget_vset_ne {A} (d : A) v i j x :
  0 <= i -> 0 <= j -> i <> j -> vget d (vset v i x) j = vget d v j.
Proof.
  intros Hi Hj Hne. unfold vget, vset. rewrite !nth_lookup, list_lookup_insert_ne by lia.
  reflexivity.
Qed.

Lemma length_vset {A} (v : list A) i x : length (vset v i x) = length v.
Proof. apply length_insert. Qed.

Lemma vget_replicate {A} (d : A) n i : vget d (replicate n d) i = d.
Proof.
  unfold vget. rewrite nth_lookup.
  destruct (replicate n d !! Z.to_nat i) eqn:E; [| reflexivity].
  apply lookup_replicate in E. simpl. apply E.
Qed.

Lemma idx_inj N m i m' i' :
  0 <= i < N -> 0 <= i' < N -> idx N m i = idx N m' i' -> m = m' /\ i = i'.
Proof.
  unfold idx. intros Hi Hi' H.
  assert (Hm : m = m').
  { destruct (Z.lt_trichotomy m m') as [Hlt | [Heq | Hgt]]; [exfalso | assumption | exfalso].
    - assert (1 * N <= (m' - m) * N) by (apply Z.mul_le_mono_nonneg_r; lia). lia.
    - assert (1 * N <= (m - m') * N) by (apply Z.mul_le_mono_nonneg_r; lia). lia. }
  subst m'. split; [reflexivity | lia].
Qed.

Lemma idx_range N P m i : 0 <= m < P -> 0 <= i < N -> 0 <= idx N m i < P * N.
Proof. unfold idx. intros Hm Hi. nia. Qed.

(** ** Bit masks *)

Lemma shiftl_1_pos j : 0 <= j -> 0 < Z.shiftl 1 j.
Proof. intros. rewrite Z.shiftl_1_l. apply Z.pow_pos_nonneg; lia. Qed.

Lemma testbit_shiftl_1 j k : 0 <= j -> Z.testbit (Z.shiftl 1 j) k = (j =? k).
Proof. intros. rewrite Z.shiftl_1_l. apply Z.pow2_bits_eqb. assumption. Qed.

Lemma land_bit m j : 0 <= j -> (Z.land m (Z.shiftl 1 j) =? 0) = negb (Z.testbit m j).
Proof.
  intros Hj. destruct (Z.testbit m j) eqn:E; simpl.
  - apply Z.eqb_neq. intros H0.
    assert (Hb : Z.testbit (Z.land m (Z.shiftl 1 j)) j = true).
    { rewrite Z.land_spec, E, testbit_shiftl_1, Z.eqb_refl by assumption. reflexivity. }
    rewrite H0, Z.bits_0 in Hb. discriminate.
  - apply Z.eqb_eq. apply Z.bits_inj'. intros k Hk.
    rewrite Z.land_spec, testbit_shiftl_1, Z.bits_0 by assumption.
    destruct (Z.eqb_spec j k) as [-> | Hne]; [rewrite E; reflexivity |].
    apply andb_false_r.
Qed.

Lemma testbit_add_bit m j k :
  0 <= j -> Z.testbit (Z.lor m (Z.shiftl 1 j)) k = Z.testbit m k || (j =? k).
Proof. intros. rewrite Z.lor_spec, testbit_shiftl_1 by assumption. reflexivity. Qed.

Lemma add_bit_range N m j :
  0 <= m < Z.shiftl 1 N -> 0 <= j < N -> 0 < Z.lor m (Z.shiftl 1 j) < Z.shiftl 1 N.
Proof.
  intros Hm Hj. rewrite (Z.shiftl_1_l N) in *.
  assert (H0 : 0 <= Z.lor m (Z.shiftl 1 j)).
  { apply Z.lor_nonneg. split; [lia |]. pose proof (shiftl_1_pos j). lia. }
  split.
  - destruct (Z.eq_dec (Z.lor m (Z.shiftl 1 j)) 0) as [E | E]; [| lia].
    assert (Hb : Z.testbit (Z.lor m (Z.shiftl 1 j)) j = true).
    { rewrite testbit_add_bit, Z.eqb_refl by lia. apply orb_true_r. }
    rewrite E, Z.bits_0 in Hb. discriminate.
  - apply Z.bounded_iff_bits_nonneg; [lia | assumption |].
    intros l Hl. rewrite testbit_add_bit by lia.
    assert (Hml : Z.testbit m l = false).
    { apply (proj1 (Z.bounded_iff_bits_nonneg N m ltac:(lia) ltac:(lia))); lia. }
    rewrite Hml. simpl. apply Z.eqb_neq. lia.
Qed.

Lemma add_bit_neq m j : 0 <= j -> Z.testbit m j = false -> Z.lor m (Z.shiftl 1 j) <> m.
Proof.
  intros Hj Hb E.
  assert (H : Z.testbit (Z.lor m (Z.shiftl 1 j)) j = true).
  { rewrite testbit_add_bit, Z.eqb_refl by lia. apply orb_true_r. }
  rewrite E in H. congruence.
Qed.

(** The packed parent [(mask << 5) | i]. *)
Lemma unpack_pos m i : 0 <= i < 32 -> Z.land (Z.lor (Z.shiftl m 5) i) 31 = i.
Proof.
  intros Hi. change 31 with (Z.ones 5). rewrite Z.land_ones by lia.
  rewrite Z.shiftl_mul_pow2 by lia.
  apply Z.bits_inj'. intros k Hk.
  rewrite Z.testbit_mod_pow2 by lia.
  destruct (Z.ltb_spec k 5) as [Hlt | Hge]; simpl.
  - rewrite Z.lor_spec, Z.mul_pow2_bits_low by lia. reflexivity.
  - symmetry. apply (proj1 (Z.bounded_iff_bits_nonneg 5 i ltac:(lia) ltac:(lia))); [| lia].
    change (2 ^ 5) with 32. lia.
Qed.

Lemma unpack_mask m i : 0 <= i < 32 -> Z.shiftr (Z.lor (Z.shiftl m 5) i) 5 = m.
Proof.
  intros Hi. rewrite Z.shiftr_lor, Z.shiftr_shiftl_l by lia.
  replace (5 - 5) with 0 by lia. rewrite Z.shiftl_0_r.
  rewrite (Z.shiftr_div_pow2 i) by lia. change (2 ^ 5) with 32.
  rewrite Z.div_small by lia. apply Z.lor_0_r.
Qed.

Lemma pack_nonneg m i : 0 <= m -> 0 <= i -> 0 <= Z.lor (Z.shiftl m 5) i.
Proof. intros. apply Z.lor_nonneg. split; [apply Z.shiftl_nonneg |]; assumption. Qed.

(** ** popcount *)

Lemma popcount_nonneg m : 0 <= popcount m.
Proof.
  destruct m as [| p | p]; simpl; try lia.
  induction p; simpl; lia.
Qed.

Lemma pow2_succ_pos n : exists q, 2 ^ Z.of_nat n = Z.pos q /\ 2 ^ Z.of_nat (S n) = Z.pos (xO q).
Proof.
  assert (H : 0 < 2 ^ Z.of_nat n) by (apply Z.pow_pos_nonneg; lia).
  destruct (2 ^ Z.of_nat n) as [| q | q] eqn:E; try lia.
  exists q. split; [reflexivity |].
  rewrite Nat2Z.inj_succ, Z.pow_succ_r, E by lia. reflexivity.
Qed.

Lemma popcount_add_bit_nat n : forall m,
  0 <= m -> Z.testbit m (Z.of_nat n) = false ->
  popcount (Z.lor m (2 ^ Z.of_nat n)) = popcount m + 1.
Proof.
  induction n as [| n IH]; intros m Hm Hb.
  - change (2 ^ Z.of_nat 0) with 1.
    destruct m as [| p | p]; [reflexivity | | lia].
    destruct p; simpl in *; try discriminate. lia.
  - destruct (pow2_succ_pos n) as (q & Hq & Hq'). rewrite Hq'.
    assert (Hq1 : popcount (Z.pos q) = 1).
    { specialize (IH 0 ltac:(lia) (Z.bits_0 _)). rewrite Z.lor_0_l, Hq in IH. exact IH. }
    assert (Hbit : forall p, Z.testbit (Z.pos p~0) (Z.of_nat (S n)) = Z.testbit (Z.pos p) (Z.of_nat n)).
    { intros p. rewrite Nat2Z.inj_succ. change (Z.pos p~0) with (2 * Z.pos p).
      apply Z.testbit_even_succ. lia. }
    assert (Hbit' : forall p, Z.testbit (Z.pos p~1) (Z.of_nat (S n)) = Z.testbit (Z.pos p) (Z.of_nat n)).
    { intros p. rewrite Nat2Z.inj_succ. change (Z.pos p~1) with (2 * Z.pos p + 1).
      apply Z.testbit_odd_succ. lia. }
    destruct m as [| p | p]; [simpl in *; lia | | lia].
    destruct p as [p | p |].
    + rewrite Hbit' in Hb. specialize (IH (Z.pos p) ltac:(lia) Hb). rewrite Hq in IH.
      simpl in *. lia.
    + rewrite Hbit in Hb. specialize (IH (Z.pos p) ltac:(lia) Hb). rewrite Hq in IH.
      simpl in *. lia.
    + simpl in *. lia.
Qed.

Lemma popcount_add_bit m j :
  0 <= m -> 0 <= j -> Z.testbit m j = false ->
  popcount (Z.lor m (Z.shiftl 1 j)) = popcount m + 1.
Proof.
  intros Hm Hj Hb. rewrite Z.shiftl_1_l. rewrite <- (Z2Nat.id j) in * by lia.
  apply popcount_add_bit_nat; assumption.
Qed.

Lemma popcount_bit j : 0 <= j -> popcount (Z.shiftl 1 j) = 1.
Proof.
  intros Hj. rewrite <- (Z.lor_0_l (Z.shiftl 1 j)).
  rewrite popcount_add_bit; [reflexivity | lia | assumption | apply Z.bits_0].
Qed.

Lemma popcount_bound_nat n : forall m, 0 <= m < 2 ^ Z.of_nat n -> popcount m <= Z.of_nat n.
Proof.
  induction n as [| n IH]; intros m Hm.
  - change (2 ^ Z.of_nat 0) with 1 in Hm. assert (m = 0) by lia. subst. simpl. lia.
  - rewrite Nat2Z.inj_succ, Z.pow_succ_r in Hm by lia.
    destruct m as [| p | p]; [simpl; lia | | lia].
    destruct p as [p | p |].
    + specialize (IH (Z.pos p) ltac:(lia)). simpl in *. lia.
    + specialize (IH (Z.pos p) ltac:(lia)). simpl in *. lia.
    + simpl. lia.
Qed.

Lemma popcount_bound N m : 0 <= N -> 0 <= m < Z.shiftl 1 N -> popcount m <= N.
Proof.
  intros HN Hm. rewrite Z.shiftl_1_l in Hm. rewrite <- (Z2Nat.id N) in * by lia.
  apply popcount_bound_nat. assumption.
Qed.

(** ** Loops as folds *)

Lemma In_seqZ k m n : In k (seqZ m n) <-> m <= k < m + n.
Proof. rewrite <- list_elem_of_In. apply elem_of_seqZ. Qed.

Lemma fold_left_inv {A B} (f : A -> B -> A) (P : A -> Prop) (l : list B) :
  (forall a b, In b l -> P a -> P (f a b)) ->
  forall a, P a -> P (fold_left f l a).
Proof.
  induction l as [| b l IH]; intros Hstep a Ha; simpl; [assumption |].
  apply IH.
  - intros a' b' Hb'. apply Hstep. right. assumption.
  - apply Hstep; [left; reflexivity | assumption].
Qed.

(** A property [Q] that the step at [b] establishes (from any state
    satisfying the loop invariant [P]) and that no step destroys holds
    after the loop. *)
Lemma fold_left_hit {A B} (f : A -> B -> A) (P Q : A -> Prop) (l : list B) (b : B) :
  In b l ->
  (forall a b', In b' l -> P a -> P (f a b')) ->
  (forall a, P a -> Q (f a b)) ->
  (forall a b', Q a -> Q (f a b')) ->
  forall a, P a -> Q (fold_left f l a).
Proof.
  intros Hin HP Hhit HQ a Ha.
  apply in_split in Hin. destruct Hin as (l1 & l2 & ->).
  rewrite fold_left_app. simpl.
  apply (fold_left_inv f Q l2); [intros; apply HQ; assumption |].
  apply Hhit. apply (fold_left_inv f P l1); [| assumption].
  intros a' b' Hb'. apply HP. apply in_or_app. left. assumption.
Qed.

(** ** Routes and masks *)

Lemma mask_of_snoc r j : mask_of (r ++ [j]) = Z.lor (mask_of r) (Z.shiftl 1 j).
Proof. unfold mask_of. rewrite fold_left_app. reflexivity. Qed.

Lemma route_ok_snoc input r j : route_ok input (r ++ [j]) = ok_step input (route_ok input r) j.
Proof. unfold route_ok. rewrite fold_left_app. reflexivity. Qed.

Lemma route_depart_snoc input r j :
  route_depart input (r ++ [j]) = plain_step input (route_depart input r) j.
Proof. unfold route_depart. rewrite fold_left_app. reflexivity. Qed.

Lemma route_wf_snoc N r j : route_wf N (r ++ [j]) <-> route_wf N r /\ ~ In j r /\ 0 <= j < N.
Proof.
  unfold route_wf. rewrite NoDup_app, Forall_app, Forall_singleton.
  split.
  - intros ((Hnd & Hdis & _) & Hall & Hj).
    split; [split; assumption |]. split; [| assumption].
    intros Hin. apply (Hdis j); [apply list_elem_of_In; assumption | left].
  - intros ((Hnd & Hall) & Hnin & Hj).
    split; [| split; assumption].
    split; [assumption |]. split; [| apply NoDup_singleton].
    intros x Hx Hx'. apply list_elem_of_singleton in Hx'. subst x.
    apply Hnin. apply list_elem_of_In. assumption.
Qed.

Lemma route_wf_nil N : route_wf N [].
Proof. split; constructor. Qed.

Lemma route_wf_In N r c : route_wf N r -> In c r -> 0 <= c < N.
Proof.
  intros [_ Hall] Hin. rewrite Forall_forall in Hall. apply Hall.
  apply list_elem_of_In. assumption.
Qed.

Lemma mask_of_nonneg N r : route_wf N r -> 0 <= mask_of r.
Proof.
  induction r as [| j r IH] using rev_ind; intros Hwf; [reflexivity |].
  apply route_wf_snoc in Hwf. destruct Hwf as (Hwf & _ & Hj).
  rewrite mask_of_snoc. apply Z.lor_nonneg. split; [apply IH; assumption |].
  pose proof (shiftl_1_pos j). lia.
Qed.

Lemma mask_of_testbit N r k :
  route_wf N r -> 0 <= k -> Z.testbit (mask_of r) k = true <-> In k r.
Proof.
  induction r as [| j r IH] using rev_ind; intros Hwf Hk.
  - simpl. rewrite Z.bits_0. split; [discriminate | contradiction].
  - apply route_wf_snoc in Hwf. destruct Hwf as (Hwf & _ & Hj).
    rewrite mask_of_snoc, testbit_add_bit, orb_true_iff, in_app_iff, IH by (assumption || lia).
    simpl. rewrite Z.eqb_eq. tauto.
Qed.

Lemma mask_of_testbit_false N r k :
  route_wf N r -> 0 <= k -> ~ In k r -> Z.testbit (mask_of r) k = false.
Proof.
  intros Hwf Hk Hnin. apply not_true_is_false. intros H.
  apply Hnin. apply (mask_of_testbit N r k Hwf Hk). assumption.
Qed.

Lemma mask_of_range N r : 0 <= N -> route_wf N r -> 0 <= mask_of r < Z.shiftl 1 N.
Proof.
  intros HN. induction r as [| j r IH] using rev_ind; intros Hwf.
  - simpl. pose proof (shiftl_1_pos N). unfold mask_of. simpl. lia.
  - apply route_wf_snoc in Hwf. destruct Hwf as (Hwf & _ & Hj).
    rewrite mask_of_snoc. pose proof (add_bit_range N (mask_of r) j (IH Hwf) Hj). lia.
Qed.

Lemma mask_of_pos N r : route_wf N r -> r <> [] -> 0 < mask_of r.
Proof.
  intros Hwf Hne. destruct r as [| j r] using rev_ind; [contradiction |].
  pose proof (mask_of_nonneg N _ Hwf) as H0.
  destruct (Z.eq_dec (mask_of (r ++ [j])) 0) as [E | E]; [| lia].
  assert (Hj : 0 <= j < N) by (apply (route_wf_In N (r ++ [j])); [assumption | apply in_or_app; right; left; reflexivity]).
  assert (Hb : Z.testbit (mask_of (r ++ [j])) j = true).
  { apply (mask_of_testbit N); [assumption | lia | apply in_or_app; right; left; reflexivity]. }
  rewrite E, Z.bits_0 in Hb. discriminate.
Qed.

Lemma popcount_mask_of N r : route_wf N r -> popcount (mask_of r) = Z.of_nat (length r).
Proof.
  induction r as [| j r IH] using rev_ind; intros Hwf; [reflexivity |].
  pose proof Hwf as Hwf0.
  apply route_wf_snoc in Hwf. destruct Hwf as (Hwf & Hnin & Hj).
  rewrite mask_of_snoc, popcount_add_bit, IH, length_app; simpl; try assumption; try lia.
  - apply (mask_of_nonneg N). assumption.
  - apply (mask_of_testbit_false N); [assumption | lia | assumption].
Qed.

Lemma popcount_pos_ge p : 1 <= popcount_pos p.
Proof. induction p; simpl; lia. Qed.

Lemma popcount_positive m : 0 < m -> 1 <= popcount m.
Proof. destruct m; simpl; try lia. intros _. apply popcount_pos_ge. Qed.

(** Walking a non-empty route ends at its last checkpoint. *)
Lemma ok_step_Some input acc j d i :
  ok_step input acc j = Some (d, i) ->
  exists t prev, acc = Some (t, prev) /\ visit input t prev j = Some d /\
                 can_reach_finish d j input = true /\ i = j.
Proof.
  unfold ok_step. destruct acc as [[t prev] |]; [| discriminate].
  destruct (visit input t prev j) as [d' |] eqn:Hv; [| discriminate].
  destruct (can_reach_finish d' j input) eqn:Hc; [| discriminate].
  intros H. injection H as <- <-. exists t, prev. auto.
Qed.

Lemma plain_step_Some input acc j d i :
  plain_step input acc j = Some (d, i) ->
  exists t prev, acc = Some (t, prev) /\ visit input t prev j = Some d /\ i = j.
Proof.
  unfold plain_step. destruct acc as [[t prev] |]; [| discriminate].
  destruct (visit input t prev j) as [d' |] eqn:Hv; [| discriminate].
  intros H. injection H as <- <-. exists t, prev. auto.
Qed.

Lemma route_ok_nonempty input r d i :
  r <> [] -> route_ok input r = Some (d, i) ->
  In i r /\ can_reach_finish d i input = true /\ (d <= of_int (end_time input))%Q.
Proof.
  intros Hne H. destruct r as [| j r] using rev_ind; [contradiction |].
  rewrite route_ok_snoc in H. apply ok_step_Some in H.
  destruct H as (t & prev & _ & Hv & Hc & ->).
  split; [apply in_or_app; right; left; reflexivity |]. split; [assumption |].
  unfold visit in Hv. destruct (Qltb _ _); [discriminate |].
  destruct (Qgtb _ _) eqn:E; [discriminate |]. injection Hv as <-. qprop. assumption.
Qed.

(** Every checked route is a plain route with the same departure. *)
Lemma route_ok_depart input r x : route_ok input r = Some x -> route_depart input r = Some x.
Proof.
  revert x. induction r as [| j r IH] using rev_ind; intros x H; [assumption |].
  rewrite route_ok_snoc in H. rewrite route_depart_snoc. destruct x as [d i].
  apply ok_step_Some in H. destruct H as (t & prev & Hacc & Hv & _ & ->).
  rewrite (IH _ Hacc). simpl. rewrite Hv. reflexivity.
Qed.

(** ** Sorting and deduplicating a bucket *)

Lemma In_insert_sorted x y l : In y (insert_sorted x l) <-> y = x \/ In y l.
Proof.
  induction l as [| z l IH]; simpl; [intuition |].
  destruct (x <=? z); simpl; [intuition |]. rewrite IH. intuition.
Qed.

Lemma In_sort_ints y l : In y (sort_ints l) <-> In y l.
Proof.
  induction l as [| x l IH]; simpl; [reflexivity |].
  rewrite In_insert_sorted, IH. intuition.
Qed.

Lemma In_unique y l : In y (unique l) <-> In y l.
Proof.
  induction l as [| x l IH]; [reflexivity |].
  destruct l as [| z l]; [reflexivity |].
  change (unique (x :: z :: l)) with (if x =? z then unique (z :: l) else x :: unique (z :: l)).
  destruct (Z.eqb_spec x z) as [-> | Hne].
  - rewrite IH. simpl. intuition.
  - simpl In at 1. rewrite IH. simpl. intuition.
Qed.

Lemma In_sort_unique y l : In y (sort_unique l) <-> In y l.
Proof. unfold sort_unique. rewrite In_unique. apply In_sort_ints. Qed.

(** ** Writes to the tables *)

Lemma vget_to_nat {A} (d : A) v i j : Z.to_nat i = Z.to_nat j -> vget d v i = vget d v j.
Proof. unfold vget. intros ->. reflexivity. Qed.

Lemma vget_vset_cases {A} (d : A) v i j x :
  vget d (vset v i x) j = vget d v j \/
  (Z.to_nat i = Z.to_nat j /\ vget d (vset v i x) j = x).
Proof.
  unfold vget, vset. rewrite !nth_lookup.
  destruct (Nat.eq_dec (Z.to_nat i) (Z.to_nat j)) as [E | E].
  - rewrite <- E. destruct (Nat.lt_ge_cases (Z.to_nat i) (length v)) as [Hlt | Hge].
    + right. rewrite list_lookup_insert_eq by assumption. split; reflexivity.
    + left. rewrite list_insert_ge by assumption. reflexivity.
  - left. rewrite list_lookup_insert_ne by assumption. reflexivity.
Qed.

Lemma In_push_mask b k x k' m :
  In m (vget [] b k') -> In m (vget [] (push_mask b k x) k').
Proof.
  intros Hin. unfold push_mask.
  destruct (vget_vset_cases [] b k k' (vget [] b k ++ [x])) as [-> | [E ->]]; [assumption |].
  apply in_or_app. left. rewrite (vget_to_nat [] b k k' E). assumption.
Qed.

Lemma In_dedup_bucket b k k' m :
  In m (vget [] (dedup_bucket b k) k') <-> In m (vget [] b k').
Proof.
  unfold dedup_bucket.
  destruct (vget_vset_cases [] b k k' (sort_unique (vget [] b k))) as [-> | [E ->]];
    [reflexivity |].
  rewrite In_sort_unique, (vget_to_nat [] b k k' E). reflexivity.
Qed.

Lemma Le_refl st : Le st st.
Proof. split; [intros; apply Qle_refl | auto]. Qed.

Lemma Le_trans st1 st2 st3 : Le st1 st2 -> Le st2 st3 -> Le st1 st3.
Proof.
  intros [H1 H1'] [H2 H2']. split.
  - intros si. eapply Qle_trans; [apply H2 | apply H1].
  - intros k m Hin. apply H2', H1', Hin.
Qed.

Lemma Le_write st si x par k m :
  (x < vget INF_TIME (dp st) si)%Q ->
  Le st (mkState (vset (dp st) si x) par (push_mask (masks_by_pc st) k m)).
Proof.
  intros Hlt. split; simpl.
  - intros si'.
    destruct (vget_vset_cases INF_TIME (dp st) si si' x) as [-> | [E ->]];
      [apply Qle_refl |].
    rewrite <- (vget_to_nat INF_TIME (dp st) si si' E). apply Qlt_le_weak. assumption.
  - intros k' m'. apply In_push_mask.
Qed.

Lemma Le_write_dp st si x par :
  (x < vget INF_TIME (dp st) si)%Q ->
  Le st (mkState (vset (dp st) si x) par (masks_by_pc st)).
Proof.
  intros Hlt. split; simpl; [| auto].
  intros si'.
  destruct (vget_vset_cases INF_TIME (dp st) si si' x) as [-> | [E ->]];
    [apply Qle_refl |].
  rewrite <- (vget_to_nat INF_TIME (dp st) si si' E). apply Qlt_le_weak. assumption.
Qed.

Lemma Le_dedup st k : Le st (dedup_state st k).
Proof.
  split; simpl; [intros; apply Qle_refl |].
  intros k' m Hin. apply In_dedup_bucket. assumption.
Qed.

Lemma fold_left_Le {B} (f : DPState -> B -> DPState) (l : list B) :
  (forall st b, Le st (f st b)) -> forall st, Le st (fold_left f l st).
Proof.
  intros Hstep. induction l as [| b l IH]; intros st; simpl; [apply Le_refl |].
  eapply Le_trans; [apply Hstep | apply IH].
Qed.

Lemma init_step_Le input st j : Le st (init_step input st j).
Proof.
  unfold init_step.
  repeat match goal with |- context [if ?c then _ else _] => destruct c eqn:? end;
    try apply Le_refl.
  apply Le_write_dp. qprop. assumption.
Qed.

Lemma first_bucket_step_Le N st j : Le st (first_bucket_step N st j).
Proof.
  unfold first_bucket_step. destruct (Qltb _ _); [| apply Le_refl].
  split; simpl; [intros; apply Qle_refl |]. intros k m. apply In_push_mask.
Qed.

Lemma extend_step_Le input pc mask i depart_i st j :
  Le st (extend_step input pc mask i depart_i st j).
Proof.
  unfold extend_step.
  repeat match goal with |- context [if ?c then _ else _] => destruct c eqn:? end;
    try apply Le_refl.
  apply Le_write. qprop. assumption.
Qed.

Lemma last_step_Le input pc mask st i : Le st (last_step input pc mask st i).
Proof.
  unfold last_step.
  repeat match goal with |- context [if ?c then _ else _] => destruct c eqn:? end;
    try apply Le_refl.
  apply fold_left_Le. intros. apply extend_step_Le.
Qed.

Lemma mask_step_Le input pc st mask : Le st (mask_step input pc st mask).
Proof. apply fold_left_Le. intros. apply last_step_Le. Qed.

Lemma pc_step_Le input st pc : Le st (pc_step input st pc).
Proof.
  unfold pc_step.
  assert (H : Le st (fold_left (mask_step input pc) (vget [] (masks_by_pc st) pc) st))
    by (apply fold_left_Le; intros; apply mask_step_Le).
  destruct (pc + 1 <=? n_checkpoints input); [| assumption].
  eapply Le_trans; [apply H | apply Le_dedup].
Qed.

Lemma Le_dp_at N st st' m i : Le st st' -> (dp_at N st' m i <= dp_at N st m i)%Q.
Proof. intros [H _]. apply H. Qed.

Lemma Complete_Le input k st st' : Le st st' -> Complete input k st -> Complete input k st'.
Proof.
  intros HLe Hc r d i Hwf Hlen Hok. destruct (Hc r d i Hwf Hlen Hok) as [Hin Hd].
  split; [apply HLe; assumption |].
  eapply Qle_trans; [apply Le_dp_at; eassumption | assumption].
Qed.

(** ** The tables' invariant is kept by every step of [solve] *)

Ltac keep := split; [assumption | split; assumption].

Section Preservation.

Variable input : SolverInput.
#[local] Abbreviation N := (n_checkpoints input).
Hypothesis HN : 1 <= N <= MAX_CP.

Lemma bit_in_range j : 0 <= j < N -> 0 < Z.shiftl 1 j < Z.shiftl 1 N.
Proof.
  intros Hj. rewrite !Z.shiftl_1_l. split; [apply Z.pow_pos_nonneg; lia |].
  apply Z.pow_lt_mono_r; lia.
Qed.

Lemma in_range_idx m i :
  in_range N m i ->
  0 <= idx N m i /\ (Z.to_nat (idx N m i) < Z.to_nat (Z.shiftl 1 N * N))%nat.
Proof.
  intros [Hm Hi]. pose proof (idx_range N (Z.shiftl 1 N) m i Hm Hi). lia.
Qed.

Lemma read_after_write st m0 i0 x p b' m i :
  Inv input st -> in_range N m0 i0 -> in_range N m i ->
  let st' := mkState (vset (dp st) (idx N m0 i0) x) (vset (parent st) (idx N m0 i0) p) b' in
  (m = m0 /\ i = i0 /\ dp_at N st' m i = x /\ parent_at N st' m i = p) \/
  ((m <> m0 \/ i <> i0) /\ dp_at N st' m i = dp_at N st m i /\
   parent_at N st' m i = parent_at N st m i).
Proof.
  intros HI H0 Hmi st'. unfold dp_at, parent_at. subst st'. simpl.
  destruct (in_range_idx _ _ H0) as [Hge0 Hlt0].
  destruct (in_range_idx _ _ Hmi) as [Hge Hlt].
  destruct (Z.eq_dec m m0) as [-> | Hm].
  - destruct (Z.eq_dec i i0) as [-> | Hi].
    + left. rewrite !vget_vset_eq; [auto | |].
      * rewrite (inv_len_parent _ _ HI). assumption.
      * rewrite (inv_len_dp _ _ HI). assumption.
    + right. split; [right; assumption |].
      assert (Hne : idx N m0 i0 <> idx N m0 i).
      { intros E. apply idx_inj in E; [| apply H0 | apply Hmi]. lia. }
      rewrite !vget_vset_ne by assumption. auto.
  - right. split; [left; assumption |].
    assert (Hne : idx N m0 i0 <> idx N m i).
    { intros E. apply idx_inj in E; [| apply H0 | apply Hmi]. lia. }
    rewrite !vget_vset_ne by assumption. auto.
Qed.

Lemma chain_ok_write st m0 i0 x p b' m i :
  Inv input st -> in_range N m0 i0 -> in_range N m i -> p <> -2 ->
  (m <> m0 \/ i <> i0) ->
  chain_ok N st m i ->
  chain_ok N (mkState (vset (dp st) (idx N m0 i0) x) (vset (parent st) (idx N m0 i0) p) b') m i.
Proof.
  intros HI H0 Hmi Hp Hne [Hbit Hc]. split; [assumption |].
  destruct (read_after_write st m0 i0 x p b' m i HI H0 Hmi) as [(-> & -> & _) | (_ & _ & Hpar)].
  { destruct Hne; contradiction. }
  rewrite Hpar. destruct Hc as [Hc | (pm & pi & Hpk & Hr & Hb & Hm & Hpp)]; [left; assumption |].
  right. exists pm, pi. repeat (split; [assumption |]).
  destruct (read_after_write st m0 i0 x p b' pm pi HI H0 Hr)
    as [(_ & _ & _ & ->) | (_ & _ & ->)]; assumption.
Qed.

(** Recording the state [(m0, i0)]. *)
Lemma Inv_record st m0 i0 x p b' :
  Inv input st -> in_range N m0 i0 ->
  length b' = Z.to_nat (N + 1) ->
  (forall k m, 0 <= k <= N -> In m (vget [] b' k) -> 0 < m < Z.shiftl 1 N /\ popcount m = k) ->
  (exists r, r <> [] /\ route_wf N r /\ mask_of r = m0 /\ route_ok input r = Some (x, i0)) ->
  p <> -2 ->
  Z.testbit m0 i0 = true ->
  ((p = -1 /\ m0 = Z.shiftl 1 i0) \/
   exists pm pi, p = Z.lor (Z.shiftl pm 5) pi /\ in_range N pm pi /\
                 Z.testbit pm i0 = false /\ m0 = Z.lor pm (Z.shiftl 1 i0) /\
                 parent_at N st pm pi <> -2) ->
  Inv input (mkState (vset (dp st) (idx N m0 i0) x) (vset (parent st) (idx N m0 i0) p) b').
Proof.
  intros HI H0 Hlen Hb Hroute Hp Hbit Hlink.
  constructor; simpl.
  - rewrite length_vset. apply (inv_len_dp _ _ HI).
  - rewrite length_vset. apply (inv_len_parent _ _ HI).
  - assumption.
  - assumption.
  - intros m i Hmi Hfin.
    destruct (read_after_write st m0 i0 x p b' m i HI H0 Hmi)
      as [(-> & -> & Hd & _) | (_ & Hd & _)]; rewrite Hd in *.
    + assumption.
    + apply (inv_sound _ _ HI); assumption.
  - intros m i Hmi Hfin.
    destruct (read_after_write st m0 i0 x p b' m i HI H0 Hmi)
      as [(-> & -> & _ & Hq) | (_ & Hd & Hq)]; rewrite Hq.
    + assumption.
    + rewrite Hd in Hfin. apply (inv_parent _ _ HI); assumption.
  - intros m i Hmi Hpar.
    destruct (read_after_write st m0 i0 x p b' m i HI H0 Hmi)
      as [(-> & -> & _ & Hq) | (Hne & _ & Hq)].
    + split; [assumption |]. rewrite Hq.
      destruct Hlink as [Hl | (pm & pi & Hpk & Hr & Hpb & Hm & Hpp)]; [left; assumption |].
      right. exists pm, pi. repeat (split; [assumption |]).
      destruct (read_after_write st m0 i0 x p b' pm pi HI H0 Hr)
        as [(_ & _ & _ & ->) | (_ & _ & ->)]; assumption.
    + rewrite Hq in Hpar. apply chain_ok_write; try assumption.
      apply (inv_chain _ _ HI); assumption.
Qed.

(** Changing the buckets only. *)
Lemma Inv_buckets st b' :
  Inv input st ->
  length b' = Z.to_nat (N + 1) ->
  (forall k m, 0 <= k <= N -> In m (vget [] b' k) -> 0 < m < Z.shiftl 1 N /\ popcount m = k) ->
  Inv input (mkState (dp st) (parent st) b').
Proof.
  intros HI Hlen Hb. constructor; simpl; try assumption.
  - apply (inv_len_dp _ _ HI).
  - apply (inv_len_parent _ _ HI).
  - apply (inv_sound _ _ HI).
  - apply (inv_parent _ _ HI).
  - intros m i Hmi Hpar. apply (inv_chain _ _ HI) in Hpar; assumption.
Qed.

Lemma push_mask_bucket st k0 m0 :
  Inv input st -> 0 <= k0 <= N -> 0 < m0 < Z.shiftl 1 N -> popcount m0 = k0 ->
  length (push_mask (masks_by_pc st) k0 m0) = Z.to_nat (N + 1) /\
  (forall k m, 0 <= k <= N -> In m (vget [] (push_mask (masks_by_pc st) k0 m0) k) ->
     0 < m < Z.shiftl 1 N /\ popcount m = k) /\
  In m0 (vget [] (push_mask (masks_by_pc st) k0 m0) k0).
Proof.
  intros HI Hk0 Hm0 Hpc. unfold push_mask. split; [| split].
  - rewrite length_vset. apply (inv_len_buckets _ _ HI).
  - intros k m Hk Hin.
    destruct (vget_vset_cases [] (masks_by_pc st) k0 k (vget [] (masks_by_pc st) k0 ++ [m0]))
      as [E | [E E']].
    + rewrite E in Hin. apply (inv_bucket _ _ HI); assumption.
    + rewrite E' in Hin. assert (k = k0) by lia. subst k.
      apply in_app_or in Hin. destruct Hin as [Hin | [<- | []]].
      * apply (inv_bucket _ _ HI); assumption.
      * split; assumption.
  - rewrite vget_vset_eq.
    + apply in_or_app. right. left. reflexivity.
    + rewrite (inv_len_buckets _ _ HI). lia.
Qed.

Lemma dedup_state_ok st k :
  Inv input st -> Registered input st ->
  Inv input (dedup_state st k) /\ Registered input (dedup_state st k).
Proof.
  intros HI HR. split.
  - apply Inv_buckets; [assumption | |].
    + unfold dedup_bucket. rewrite length_vset. apply (inv_len_buckets _ _ HI).
    + intros k' m Hk' Hin. apply In_dedup_bucket in Hin. apply (inv_bucket _ _ HI); assumption.
  - intros m i Hmi Hfin. simpl. apply In_dedup_bucket. apply (HR m i); assumption.
Qed.

(** *** The main loop *)

Section Extend.

Variables pc mask i : Z.
Variable depart_i : Q.
Hypothesis Hpc : 1 <= pc < N.
Hypothesis Hmask : 0 < mask < Z.shiftl 1 N.
Hypothesis Hpop : popcount mask = pc.
Hypothesis Hi : 0 <= i < N.
Hypothesis Hbit : Z.testbit mask i = true.
Hypothesis Hfin : (depart_i < INF_TIME)%Q.

Lemma extend_step_ok st j :
  0 <= j < N -> Reading input mask i depart_i st ->
  Reading input mask i depart_i (extend_step input pc mask i depart_i st j).
Proof.
  intros Hj (HI & HR & Hd). unfold extend_step.
  rewrite land_bit by lia.
  destruct (Z.testbit mask j) eqn:Hbj; simpl; [keep |].
  destruct (Qgtb _ _) eqn:Harr; [keep |].
  destruct (Qltb (find_next_open_time _ _ _) 0) eqn:Hopen; [keep |].
  destruct (Qgtb (fadd _ (of_int (dwell input))) _) eqn:Hdep; [keep |].
  destruct (can_reach_finish _ _ _) eqn:Hcrf; simpl; [| keep].
  destruct (Qltb _ (vget _ _ _)) eqn:Hlt; [| keep].
  set (new_mask := Z.lor mask (Z.shiftl 1 j)).
  set (depart_j := (fadd (find_next_open_time j (fadd depart_i (tt input i j)) input)
                      (of_int (dwell input)))) in *.
  assert (Hnew : in_range N new_mask j).
  { split; [| assumption]. pose proof (add_bit_range N mask j ltac:(lia) Hj). subst new_mask. lia. }
  assert (Hnewpos : 0 < new_mask < Z.shiftl 1 N)
    by (apply add_bit_range; [lia | assumption]).
  assert (Hnewpop : popcount new_mask = pc + 1).
  { subst new_mask. rewrite popcount_add_bit; [lia | lia | lia | assumption]. }
  assert (Hold : in_range N mask i) by (split; [lia | assumption]).
  destruct (push_mask_bucket st (pc + 1) new_mask HI ltac:(lia) Hnewpos Hnewpop)
    as (Hlen & Hb & Hin).
  assert (Hvisit : visit input depart_i i j = Some depart_j).
  { unfold visit. rewrite Hopen. fold depart_j. rewrite Hdep. reflexivity. }
  split; [| split].
  - apply Inv_record; try assumption.
    + destruct (inv_sound _ _ HI mask i Hold) as (r & Hne & Hwf & Hm & Hok).
      { rewrite Hd. assumption. }
      rewrite Hd in Hok.
      exists (r ++ [j]). split; [destruct r; discriminate |].
      split; [| split].
      * apply route_wf_snoc. split; [assumption |]. split; [| assumption].
        intros Hinr. apply (mask_of_testbit N r j Hwf ltac:(lia)) in Hinr.
        rewrite Hm in Hinr. congruence.
      * rewrite mask_of_snoc, Hm. reflexivity.
      * rewrite route_ok_snoc, Hok. simpl. rewrite Hvisit, Hcrf. reflexivity.
    + pose proof (pack_nonneg mask i ltac:(lia) ltac:(lia)). lia.
    + subst new_mask. rewrite testbit_add_bit, Z.eqb_refl by lia. apply orb_true_r.
    + right. exists mask, i. repeat (split; [assumption || reflexivity |]).
      apply (inv_parent _ _ HI); [assumption |]. rewrite Hd. assumption.
  - intros m i' Hmi Hf.
    destruct (read_after_write st new_mask j depart_j (Z.lor (Z.shiftl mask 5) i)
                (push_mask (masks_by_pc st) (pc + 1) new_mask) m i' HI Hnew Hmi)
      as [(-> & -> & _) | (_ & Hd' & _)]; simpl.
    + rewrite Hnewpop. assumption.
    + apply In_push_mask. apply (HR m i'); [assumption |]. rewrite <- Hd'. assumption.
  - destruct (read_after_write st new_mask j depart_j (Z.lor (Z.shiftl mask 5) i)
                (push_mask (masks_by_pc st) (pc + 1) new_mask) mask i HI Hnew Hold)
      as [(E & _) | (_ & Hd' & _)].
    + exfalso. subst new_mask. symmetry in E. revert E. apply add_bit_neq; [lia | assumption].
    + rewrite Hd'. assumption.
Qed.

End Extend.

Lemma last_step_ok pc mask st i :
  1 <= pc < N -> 0 < mask < Z.shiftl 1 N -> popcount mask = pc -> 0 <= i < N ->
  Inv input st /\ Registered input st ->
  Inv input (last_step input pc mask st i) /\ Registered input (last_step input pc mask st i).
Proof.
  intros Hpc Hmask Hpop Hi [HI HR]. unfold last_step.
  rewrite land_bit by lia.
  destruct (Z.testbit mask i) eqn:Hbit; simpl; [| split; assumption].
  destruct (Qgeb _ _) eqn:Hfin; [split; assumption |]. qprop.
  assert (H : Reading input mask i (vget INF_TIME (dp st) (idx N mask i))
                (fold_left (extend_step input pc mask i (vget INF_TIME (dp st) (idx N mask i)))
                           (seqZ 0 N) st)).
  { apply fold_left_inv.
    - intros a j Hj Ha. apply In_seqZ in Hj. apply (extend_step_ok pc); try assumption; lia.
    - split; [assumption | split; [assumption | reflexivity]]. }
  destruct H as (H1 & H2 & _). split; assumption.
Qed.

Lemma mask_step_ok pc st mask :
  1 <= pc < N -> 0 < mask < Z.shiftl 1 N -> popcount mask = pc ->
  Inv input st /\ Registered input st ->
  Inv input (mask_step input pc st mask) /\ Registered input (mask_step input pc st mask).
Proof.
  intros Hpc Hmask Hpop H. unfold mask_step.
  apply (fold_left_inv (last_step input pc mask)
           (fun st => Inv input st /\ Registered input st)); [| assumption].
  intros a i Hi Ha. apply In_seqZ in Hi. apply last_step_ok; try assumption; lia.
Qed.

Lemma pc_step_ok st pc :
  1 <= pc < N ->
  Inv input st /\ Registered input st ->
  Inv input (pc_step input st pc) /\ Registered input (pc_step input st pc).
Proof.
  intros Hpc [HI HR]. unfold pc_step.
  assert (H : Inv input (fold_left (mask_step input pc) (vget [] (masks_by_pc st) pc) st) /\
              Registered input (fold_left (mask_step input pc) (vget [] (masks_by_pc st) pc) st)).
  { apply (fold_left_inv (mask_step input pc)
             (fun st => Inv input st /\ Registered input st)); [| split; assumption].
    intros a m Hm Ha. destruct (inv_bucket _ _ HI pc m ltac:(lia) Hm) as [Hr Hp].
    apply mask_step_ok; assumption. }
  destruct (pc + 1 <=? N); [| assumption].
  apply dedup_state_ok; apply H.
Qed.

End Preservation.

(** *** Initialisation *)

Section Initialisation.

Variable input : SolverInput.
#[local] Abbreviation N := (n_checkpoints input).
Hypothesis HN : 1 <= N <= MAX_CP.

Lemma empty_tables_ok : Inv input (empty_tables input) /\ InitOnly input (empty_tables input).
Proof.
  split; [constructor |]; unfold InitOnly, empty_tables, dp_at, parent_at; simpl.
  - apply length_replicate.
  - apply length_replicate.
  - apply length_replicate.
  - intros k m _ Hin. rewrite vget_replicate in Hin. contradiction.
  - intros m i _ H. rewrite vget_replicate in H. exfalso. revert H. apply Qlt_irrefl.
  - intros m i _ H. rewrite vget_replicate in H. exfalso. revert H. apply Qlt_irrefl.
  - intros m i _ H. rewrite vget_replicate in H. contradiction.
  - intros m i _ H. rewrite vget_replicate in H. exfalso. revert H. apply Qlt_irrefl.
Qed.

Lemma init_step_ok st j :
  0 <= j < N -> Inv input st /\ InitOnly input st ->
  Inv input (init_step input st j) /\ InitOnly input (init_step input st j).
Proof.
  intros Hj [HI HO]. unfold init_step.
  destruct (Qltb (find_next_open_time _ _ _) 0) eqn:Hopen; [split; assumption |].
  destruct (Qgtb (fadd _ (of_int (dwell input))) _) eqn:Hdep; [split; assumption |].
  destruct (can_reach_finish _ _ _) eqn:Hcrf; simpl; [| split; assumption].
  destruct (Qltb _ (vget _ _ _)) eqn:Hlt; [| split; assumption].
  set (depart_j := (fadd (find_next_open_time j (fadd (of_int (start_time input)) (tt input START_IDX j)) input)
                      (of_int (dwell input)))) in *.
  assert (Hnew : in_range N (Z.shiftl 1 j) j).
  { split; [| assumption]. pose proof (bit_in_range input HN j Hj). lia. }
  split.
  - apply Inv_record; try assumption.
    + apply (inv_len_buckets _ _ HI).
    + apply (inv_bucket _ _ HI).
    + exists [j]. split; [discriminate |]. split; [| split].
      * apply (route_wf_snoc N [] j). split; [apply route_wf_nil |]. split; [intros [] | assumption].
      * unfold mask_of. simpl. reflexivity.
      * unfold route_ok. simpl. unfold visit. rewrite Hopen. fold depart_j.
        rewrite Hdep, Hcrf. reflexivity.
    + lia.
    + rewrite testbit_shiftl_1 by lia. apply Z.eqb_refl.
    + left. split; reflexivity.
  - intros m i Hmi Hf.
    destruct (read_after_write input st (Z.shiftl 1 j) j depart_j (-1) (masks_by_pc st)
                m i HI Hnew Hmi) as [(-> & -> & _) | (_ & Hd & _)]; [reflexivity |].
    apply HO; [assumption |]. rewrite <- Hd. assumption.
Qed.

Lemma first_bucket_step_dp st j : dp (first_bucket_step N st j) = dp st.
Proof. unfold first_bucket_step. destruct (Qltb _ _); reflexivity. Qed.

Lemma first_bucket_step_ok st j :
  0 <= j < N -> Inv input st -> Inv input (first_bucket_step N st j).
Proof.
  intros Hj HI. unfold first_bucket_step. destruct (Qltb _ _); [| assumption].
  destruct (push_mask_bucket input HN st 1 (Z.shiftl 1 j) HI ltac:(lia)
              (bit_in_range input HN j Hj) (popcount_bit j ltac:(lia))) as (Hlen & Hb & _).
  apply Inv_buckets; assumption.
Qed.

Lemma first_bucket_step_hit st i :
  0 <= i < N -> Inv input st -> (dp_at N st (Z.shiftl 1 i) i < INF_TIME)%Q ->
  In (Z.shiftl 1 i) (vget [] (masks_by_pc (first_bucket_step N st i)) 1).
Proof.
  intros Hi HI Hfin. unfold first_bucket_step. apply Qltb_true in Hfin. rewrite Hfin. simpl.
  apply (push_mask_bucket input HN st 1 (Z.shiftl 1 i) HI ltac:(lia)
           (bit_in_range input HN i Hi) (popcount_bit i ltac:(lia))).
Qed.

Lemma init_state_ok : Inv input (init_state input) /\ Registered input (init_state input).
Proof.
  unfold init_state. fold (empty_tables input).
  set (st1 := fold_left (init_step input) (seqZ 0 N) (empty_tables input)).
  assert (H1 : Inv input st1 /\ InitOnly input st1).
  { apply (fold_left_inv (init_step input) (fun st => Inv input st /\ InitOnly input st));
      [| apply empty_tables_ok].
    intros a j Hj Ha. apply In_seqZ in Hj. apply init_step_ok; [lia | assumption]. }
  destruct H1 as [HI1 HO1].
  set (st2 := fold_left (first_bucket_step N) (seqZ 0 N) st1).
  assert (H2 : Inv input st2 /\ dp st2 = dp st1).
  { apply (fold_left_inv (first_bucket_step N) (fun st => Inv input st /\ dp st = dp st1));
      [| split; [assumption | reflexivity]].
    intros a j Hj [Ha Hd]. apply In_seqZ in Hj.
    split; [apply first_bucket_step_ok; [lia | assumption] |].
    rewrite first_bucket_step_dp. assumption. }
  destruct H2 as [HI2 Hdp2].
  assert (HR2 : Registered input st2).
  { intros m i Hmi Hfin.
    assert (Hfin1 : (dp_at N st1 m i < INF_TIME)%Q).
    { unfold dp_at in *. rewrite <- Hdp2. assumption. }
    pose proof (HO1 m i Hmi Hfin1) as ->.
    rewrite popcount_bit by (destruct Hmi; lia).
    apply (fold_left_hit (first_bucket_step N) (fun st => Inv input st /\ dp st = dp st1)
             (fun st => In (Z.shiftl 1 i) (vget [] (masks_by_pc st) 1)) (seqZ 0 N) i).
    - apply In_seqZ. destruct Hmi. lia.
    - intros a j Hj [Ha Hd]. apply In_seqZ in Hj.
      split; [apply first_bucket_step_ok; [lia | assumption] |].
      rewrite first_bucket_step_dp. assumption.
    - intros a [Ha Hd]. apply first_bucket_step_hit; [apply Hmi | assumption |].
      unfold dp_at in *. rewrite Hd. assumption.
    - intros a j Hin. apply (first_bucket_step_Le N a j). assumption.
    - split; [assumption | reflexivity]. }
  apply dedup_state_ok; assumption.
Qed.

Lemma dp_after_S k : dp_after input (S k) = pc_step input (dp_after input k) (1 + Z.of_nat k).
Proof. unfold dp_after. rewrite seqZ_S, fold_left_app. reflexivity. Qed.

Lemma dp_after_ok k :
  Z.of_nat k <= N - 1 -> Inv input (dp_after input k) /\ Registered input (dp_after input k).
Proof.
  induction k as [| k IH]; intros Hk.
  - apply init_state_ok.
  - rewrite dp_after_S. apply pc_step_ok; [assumption | lia | apply IH; lia].
Qed.

Lemma run_dp_after : run_dp input = dp_after input (Z.to_nat (N - 1)).
Proof. unfold run_dp, dp_after. rewrite Z2Nat.id by lia. reflexivity. Qed.

Lemma run_dp_ok : Inv input (run_dp input) /\ Registered input (run_dp input).
Proof. rewrite run_dp_after. apply dp_after_ok. lia. Qed.

End Initialisation.

(** ** The objective scan *)

Section Scan.

Variable input : SolverInput.
Variable st : DPState.
#[local] Abbreviation N := (n_checkpoints input).

Lemma scan_step_beats mask i b cnt af :
  beats cnt af b -> beats cnt af (scan_step input st mask b i).
Proof.
  intros [Hc Hf]. unfold scan_step.
  destruct (Qgeb _ _); [split; assumption |].
  destruct (actual_finish _ _ _) as [af' |]; [| split; assumption].
  destruct (_ || _) eqn:E; [| split; assumption].
  apply orb_true_iff in E. unfold beats. simpl.
  destruct E as [E | E].
  - apply Z.gtb_gt in E. split; lia.
  - apply andb_true_iff in E. destruct E as [E1 E2]. apply Z.eqb_eq in E1. qprop.
    split; [lia |]. intros Heq. specialize (Hf ltac:(lia)). lra.
Qed.

Lemma scan_step_hit mask i b af :
  candidate input st mask i af -> beats (popcount mask) af (scan_step input st mask b i).
Proof.
  intros [Hfin Haf]. unfold scan_step. unfold dp_at in *.
  destruct (Qgeb _ _) eqn:E0; [qprop; lra |].
  rewrite Haf.
  destruct (_ || _) eqn:E.
  - unfold beats. simpl. split; [lia |]. intros _. apply Qle_refl.
  - apply orb_false_iff in E. destruct E as [E1 E2].
    rewrite Z.gtb_ltb in E1. apply Z.ltb_ge in E1.
    split; [assumption |]. intros Heq. rewrite Heq, Z.eqb_refl in E2. simpl in E2.
    qprop. assumption.
Qed.

Lemma scan_step_attained mask i b :
  1 <= mask < Z.shiftl 1 N -> 0 <= i < N ->
  attained input st b -> attained input st (scan_step input st mask b i).
Proof.
  intros Hm Hi Hb. unfold scan_step.
  destruct (Qgeb _ _) eqn:E0; [assumption |].
  destruct (actual_finish _ _ _) as [af' |] eqn:Haf; [| assumption].
  destruct (_ || _); [| assumption].
  right. simpl. repeat (split; [assumption || lia || reflexivity |]).
  split; [| assumption]. qprop. assumption.
Qed.

Lemma find_best_attained : attained input st (find_best input st).
Proof.
  unfold find_best. apply fold_left_inv; [| left; reflexivity].
  intros b mask Hm Hb. apply In_seqZ in Hm. unfold scan_mask.
  apply fold_left_inv; [| assumption].
  intros b' i Hi Hb'. apply In_seqZ in Hi. apply scan_step_attained; [lia | lia | assumption].
Qed.

Lemma find_best_beats mask i af :
  1 <= mask < Z.shiftl 1 N -> 0 <= i < N -> candidate input st mask i af ->
  beats (popcount mask) af (find_best input st).
Proof.
  intros Hm Hi Hc. unfold find_best.
  apply (fold_left_hit (scan_mask input st) (fun _ => True)
           (beats (popcount mask) af) _ mask); auto.
  - apply In_seqZ. lia.
  - intros b _. unfold scan_mask.
    apply (fold_left_hit (scan_step input st mask) (fun _ => True)
             (beats (popcount mask) af) _ i); auto.
    + apply In_seqZ. lia.
    + intros b' _. apply scan_step_hit. assumption.
    + intros b' i' Hb'. apply scan_step_beats. assumption.
  - intros b mask' Hb. unfold scan_mask. apply fold_left_inv; [| assumption].
    intros b' i' _ Hb'. apply scan_step_beats. assumption.
Qed.

Lemma attained_count b : attained input st b -> best_count b = -1 \/ 0 <= best_count b.
Proof.
  intros [-> | (_ & _ & -> & _)]; [left; reflexivity | right; apply popcount_nonneg].
Qed.

End Scan.

(** ** Reconstruction *)

Lemma testbit_lt N m x : 0 <= N -> 0 <= m < Z.shiftl 1 N -> Z.testbit m x = true -> x < N.
Proof.
  intros HN Hm Hb. destruct (Z_lt_le_dec x N) as [Hlt | Hge]; [assumption |].
  rewrite Z.shiftl_1_l in Hm.
  rewrite (proj1 (Z.bounded_iff_bits_nonneg N m HN ltac:(lia))) in Hb by lia.
  discriminate.
Qed.

Section Reconstruct.

Variable input : SolverInput.
#[local] Abbreviation N := (n_checkpoints input).
Hypothesis HN : 1 <= N <= MAX_CP.
Variable st : DPState.
Hypothesis HI : Inv input st.

Lemma reconstruct_chain fuel : forall m i buf,
  in_range N m i -> parent_at N st m i <> -2 -> popcount m <= Z.of_nat fuel ->
  exists l,
    reconstruct fuel N (parent st) m i buf = Some (buf ++ l) /\
    Z.of_nat (length l) = popcount m /\ NoDup l /\
    (forall x, In x l <-> 0 <= x /\ Z.testbit m x = true).
Proof.
  induction fuel as [| fuel IH]; intros m i buf Hmi Hpar Hpop.
  - exfalso. destruct (inv_chain _ _ HI m i Hmi Hpar) as [Hbit _].
    assert (m <> 0) by (intros ->; rewrite Z.bits_0 in Hbit; discriminate).
    pose proof (popcount_positive m). destruct Hmi. lia.
  - destruct (inv_chain _ _ HI m i Hmi Hpar) as [Hbit Hlink].
    simpl. fold (parent_at N st m i).
    destruct Hlink as [[Hp Hm] | (pm & pi & Hp & Hr & Hpb & Hm & Hpp)].
    + rewrite Hp. simpl. exists [i]. split; [reflexivity |].
      subst m. rewrite popcount_bit by (destruct Hmi; lia).
      split; [reflexivity |]. split; [apply NoDup_singleton |].
      intros x. simpl. split.
      * intros [<- | []]. split; [destruct Hmi; lia | assumption].
      * intros [Hx Hb]. rewrite testbit_shiftl_1 in Hb by (destruct Hmi; lia).
        apply Z.eqb_eq in Hb. left. assumption.
    + assert (Hp0 : 0 <= parent_at N st m i).
      { rewrite Hp. apply pack_nonneg; destruct Hr; lia. }
      destruct (Z.eqb_spec (parent_at N st m i) (-1)) as [E | _]; [lia |].
      destruct (Z.eqb_spec (parent_at N st m i) (-2)) as [E | _]; [lia |].
      rewrite Hp, unpack_pos, unpack_mask by (destruct Hr; unfold MAX_CP in HN; lia).
      assert (Hpm : 0 <= pm) by (destruct Hr; lia).
      assert (Hi0 : 0 <= i) by (destruct Hmi; lia).
      assert (Hpc : popcount m = popcount pm + 1)
        by (subst m; apply popcount_add_bit; assumption).
      destruct (IH pm pi (buf ++ [i]) Hr Hpp ltac:(lia)) as (l & Hl & Hlen & Hnd & Hin).
      exists (i :: l). split; [rewrite Hl, <- app_assoc; reflexivity |].
      split; [simpl length; lia |]. split.
      * apply NoDup_cons. split; [| assumption].
        intros Hil. apply list_elem_of_In, Hin in Hil. destruct Hil as [_ Hil]. congruence.
      * intros x. simpl. rewrite Hin. subst m. rewrite testbit_add_bit by assumption.
        rewrite orb_true_iff, Z.eqb_eq. split.
        -- intros [<- | [Hx Hb]]; (split; [lia |]); auto.
        -- intros [Hx [Hb | Hb]]; auto.
Qed.

End Reconstruct.

(** ** What [solve] returns *)

Lemma NoDup_rev_list (l : list Z) : NoDup l -> NoDup (rev l).
Proof.
  induction 1 as [| x l Hx Hnd IH]; simpl; [constructor |].
  apply NoDup_app. split; [assumption |]. split; [| apply NoDup_singleton].
  intros y Hy Hy'. apply list_elem_of_singleton in Hy'. subst y.
  apply Hx. apply list_elem_of_In. apply in_rev. apply list_elem_of_In. assumption.
Qed.

Lemma solve_cases input :
  1 <= n_checkpoints input <= MAX_CP ->
  let b := find_best input (run_dp input) in
  (b = mkBest (-1) INF_TIME (-1) (-1) /\ solve input = Some (mkResult 0 [] 0 0%Q)) \/
  (1 <= best_mask b < Z.shiftl 1 (n_checkpoints input) /\
   0 <= best_last b < n_checkpoints input /\
   best_count b = popcount (best_mask b) /\
   candidate input (run_dp input) (best_mask b) (best_last b) (best_finish_time b) /\
   exists l,
     solve input = Some (mkResult (best_count b) (rev l) (Z.of_nat (length l))
                                  (best_finish_time b)) /\
     Z.of_nat (length l) = popcount (best_mask b) /\ NoDup l /\
     (forall x, In x l <-> 0 <= x /\ Z.testbit (best_mask b) x = true)).
Proof.
  intros HN b. destruct (run_dp_ok input HN) as [HI _].
  pose proof (find_best_attained input (run_dp input)) as Ha. fold b in Ha.
  destruct Ha as [Hb | (Hm & Hl & Hc & Hcand)].
  - left. split; [assumption |]. unfold solve. fold b. rewrite Hb. reflexivity.
  - right. repeat (split; [assumption |]).
    assert (Hr : in_range (n_checkpoints input) (best_mask b) (best_last b))
      by (split; [lia | assumption]).
    destruct (reconstruct_chain input HN (run_dp input) HI (Z.to_nat MAX_CP)
                (best_mask b) (best_last b) [] Hr) as (l & Hrec & Hlen & Hnd & Hin).
    + apply (inv_parent _ _ HI); [assumption | apply Hcand].
    + pose proof (popcount_bound (n_checkpoints input) (best_mask b) ltac:(lia) ltac:(lia)).
      unfold MAX_CP in *. lia.
    + exists l. split; [| auto].
      unfold solve. fold b.
      destruct (Z.ltb_spec (best_count b) 0) as [Hneg | _].
      { pose proof (popcount_nonneg (best_mask b)). lia. }
      rewrite Hrec. reflexivity.
Qed.

Lemma solve_total input :
  1 <= n_checkpoints input <= MAX_CP -> exists res, solve input = Some res.
Proof.
  intros HN.
  destruct (solve_cases input HN) as [[_ Hs] | (_ & _ & _ & _ & l & Hs & _)];
    eexists; exact Hs.
Qed.

(** C8: [solve] returns a result whose route has [count] entries
    ([route_length = count]), all distinct, all checkpoint indices in
    [0, n_checkpoints); when a route is found its entries are exactly the
    members of the winning mask. *)
Theorem route_well_formed (input : SolverInput) :
  1 <= n_checkpoints input <= MAX_CP ->
  exists res,
    solve input = Some res /\
    route_length res = count res /\
    Z.of_nat (length (route res)) = count res /\
    NoDup (route res) /\
    Forall (fun c => 0 <= c < n_checkpoints input) (route res) /\
    (0 < count res ->
     count res = popcount (best_mask (find_best input (run_dp input))) /\
     forall x, In x (route res) <->
               0 <= x /\ Z.testbit (best_mask (find_best input (run_dp input))) x = true).
Proof.
  intros HN.
  destruct (solve_cases input HN) as [[_ Hs] | (Hm & Hl & Hc & _ & l & Hs & Hlen & Hnd & Hin)].
  - eexists. split; [exact Hs |]. simpl.
    repeat (split; [reflexivity || constructor |]). intros; lia.
  - eexists. split; [exact Hs |]. simpl. rewrite length_rev.
    split; [lia |]. split; [lia |]. split; [apply NoDup_rev_list; assumption |].
    split.
    + apply Forall_forall. intros x Hx. apply list_elem_of_In, in_rev, Hin in Hx.
      destruct Hx as [Hx Hb]. split; [assumption |].
      apply (testbit_lt _ (best_mask (find_best input (run_dp input)))); [lia | lia | assumption].
    + intros _. split; [assumption |]. intros x. rewrite <- in_rev. apply Hin.
Qed.

Lemma route_well_formed_witness :
  exists res, solve s2_input = Some res /\ route res = [0] /\ count res = 1.
Proof.
  destruct (route_well_formed s2_input) as (res & Hs & _).
  - vm_compute. split; discriminate.
  - exists res. split; [assumption |].
    vm_compute in Hs. injection Hs as <-. split; reflexivity.
Defined.

(** ** Finish reachability of recorded states *)

Lemma can_reach_finish_true input t i :
  can_reach_finish t i input = true ->
  (fadd t (tt input i FINISH_IDX) <= of_int (end_time input))%Q /\
  exists s,
    0 <= arrival_to_slot_index (fadd t (tt input i FINISH_IDX)) input <= s /\
    s < n_slots input /\ fin_open input s = true /\
    (fmax (fadd t (tt input i FINISH_IDX)) (of_int (slot_start input s))
       <= of_int (end_time input))%Q.
Proof.
  unfold can_reach_finish. intros H.
  destruct (Qgtb _ _) eqn:E; [discriminate |]. qprop. split; [assumption |].
  destruct (_ || _) eqn:E2; [discriminate |].
  apply orb_false_iff in E2. destruct E2 as [E2 E3].
  apply Z.ltb_ge in E2. rewrite Z.geb_leb in E3. apply Z.leb_gt in E3.
  apply existsb_exists in H. destruct H as (s & Hs & Hp).
  apply In_seqZ in Hs. apply andb_true_iff in Hp. destruct Hp as [Hp1 Hp2]. qprop.
  exists s. repeat split; try assumption; lia.
Qed.

(** A write of the initialisation loop stores a departure that passed the
    [end_time] and [can_reach_finish] checks, at the state of [j]. *)
Lemma init_step_writes input st j si :
  vget INF_TIME (dp (init_step input st j)) si <> vget INF_TIME (dp st) si ->
  Z.to_nat si = Z.to_nat (idx (n_checkpoints input) (Z.shiftl 1 j) j) /\
  can_reach_finish (vget INF_TIME (dp (init_step input st j)) si) j input = true /\
  (vget INF_TIME (dp (init_step input st j)) si <= of_int (end_time input))%Q.
Proof.
  unfold init_step.
  destruct (Qltb (find_next_open_time _ _ _) 0); [congruence |].
  destruct (Qgtb (fadd _ (of_int (dwell input))) _) eqn:Hdep; [congruence |].
  destruct (can_reach_finish _ _ _) eqn:Hcrf; simpl; [| congruence].
  destruct (Qltb _ (vget _ _ _)); [| congruence]. simpl.
  destruct (vget_vset_cases INF_TIME (dp st) (idx (n_checkpoints input) (Z.shiftl 1 j) j) si
              (fadd (find_next_open_time j (fadd (of_int (start_time input)) (tt input START_IDX j)) input)
                 (of_int (dwell input)))) as [-> | [E ->]]; [congruence |].
  intros _. split; [symmetry; assumption |]. split; [assumption |].
  apply Qgtb_false. assumption.
Qed.

(** A write of the transition loop stores a departure that passed the
    [end_time] and [can_reach_finish] checks, at the state of [j]. *)
Lemma extend_step_writes input pc mask i depart_i st j si :
  vget INF_TIME (dp (extend_step input pc mask i depart_i st j)) si
    <> vget INF_TIME (dp st) si ->
  Z.to_nat si = Z.to_nat (idx (n_checkpoints input) (Z.lor mask (Z.shiftl 1 j)) j) /\
  can_reach_finish (vget INF_TIME (dp (extend_step input pc mask i depart_i st j)) si)
                   j input = true /\
  (vget INF_TIME (dp (extend_step input pc mask i depart_i st j)) si
     <= of_int (end_time input))%Q.
Proof.
  unfold extend_step.
  destruct (negb _); [congruence |].
  destruct (Qgtb (fadd depart_i (tt input i j)) _); [congruence |].
  destruct (Qltb (find_next_open_time _ _ _) 0); [congruence |].
  destruct (Qgtb (fadd _ (of_int (dwell input))) _) eqn:Hdep; [congruence |].
  destruct (can_reach_finish _ _ _) eqn:Hcrf; simpl; [| congruence].
  destruct (Qltb _ (vget _ _ _)); [| congruence]. simpl.
  destruct (vget_vset_cases INF_TIME (dp st)
              (idx (n_checkpoints input) (Z.lor mask (Z.shiftl 1 j)) j) si
              (fadd (find_next_open_time j (fadd depart_i (tt input i j)) input)
                 (of_int (dwell input)))) as [-> | [E ->]]; [congruence |].
  intros _. split; [symmetry; assumption |]. split; [assumption |].
  apply Qgtb_false. assumption.
Qed.

(** ** The boundary encoding *)

Lemma actual_finish_range input d i af :
  actual_finish input d i = Some af -> (0 <= af)%Q /\ (af <= of_int (end_time input))%Q.
Proof.
  unfold actual_finish. intros H.
  destruct (Qgtb _ _); [discriminate |].
  destruct (_ <? 0); [discriminate |].
  destruct (Qltb _ 0 || Qgtb _ _) eqn:E; [discriminate |].
  injection H as <-. apply orb_false_iff in E. destruct E as [E1 E2]. qprop.
  split; assumption.
Qed.

Lemma solve_finish_range input res :
  solve input = Some res ->
  (0 <= finish_time res)%Q /\
  ((finish_time res <= of_int (end_time input))%Q \/ finish_time res = 0%Q).
Proof.
  unfold solve. intros Hs.
  destruct (best_count _ <? 0) eqn:Hneg.
  { injection Hs as <-. simpl. split; [apply Qle_refl | right; reflexivity]. }
  apply Z.ltb_ge in Hneg.
  destruct (reconstruct _ _ _ _ _ _) as [l |]; [| discriminate].
  injection Hs as <-. simpl.
  destruct (find_best_attained input (run_dp input)) as [Hb | (_ & _ & _ & _ & Haf)].
  { rewrite Hb in Hneg. simpl in Hneg. lia. }
  destruct (actual_finish_range _ _ _ _ Haf) as [H0 H1]. split; [assumption | left; assumption].
Qed.

(** The binary32 product of a small non-negative number stays between the
    floor and the ceiling of the exact product. *)
Lemma centi_minutes_range x :
  (0 <= x)%Q -> (x <= 167772)%Q ->
  to_int (fmul x 100) = Qfloor (fmul x 100) /\
  Qfloor (x * 100) <= to_int (fmul x 100) <= Qceiling (x * 100).
Proof.
  intros H0 H1.
  assert (Hx0 : (0 <= x * 100)%Q) by lra.
  assert (Hx1 : (x * 100 <= 16777200)%Q) by lra.
  pose proof (Qfloor_le (x * 100)) as Hf. pose proof (Qle_ceiling (x * 100)) as Hc.
  assert (HF : 0 <= Qfloor (x * 100) <= 16777200).
  { split.
    - replace 0 with (Qfloor 0) by reflexivity. apply Qfloor_resp_le. assumption.
    - replace 16777200 with (Qfloor 16777200) by reflexivity. apply Qfloor_resp_le. assumption. }
  assert (HC : 0 <= Qceiling (x * 100) <= 16777200).
  { split.
    - replace 0 with (Qceiling 0) by reflexivity. apply Qceiling_resp_le. assumption.
    - replace 16777200 with (Qceiling 16777200) by reflexivity. apply Qceiling_resp_le. assumption. }
  assert (Hlo : (inject_Z (Qfloor (x * 100)) <= fmul x 100)%Q).
  { rewrite <- (round32_Z (Qfloor (x * 100))) by (change (2 ^ 24) with 16777216; lia).
    apply round32_le. assumption. }
  assert (Hhi : (fmul x 100 <= inject_Z (Qceiling (x * 100)))%Q).
  { rewrite <- (round32_Z (Qceiling (x * 100))) by (change (2 ^ 24) with 16777216; lia).
    apply round32_le. assumption. }
  assert (Hp0 : (0 <= fmul x 100)%Q) by (apply round32_nonneg; assumption).
  assert (Hp1 : (fmul x 100 < 2147483648)%Q).
  { apply Qle_lt_trans with (inject_Z (Qceiling (x * 100))); [assumption |].
    change 2147483648%Q with (inject_Z 2147483648). rewrite <- Zlt_Qlt. lia. }
  rewrite to_int_floor by assumption. split; [reflexivity |].
  split.
  - rewrite <- (Qfloor_Z (Qfloor (x * 100))). apply Qfloor_resp_le. assumption.
  - rewrite <- (Qfloor_Z (Qceiling (x * 100))). apply Qfloor_resp_le. assumption.
Qed.

(** C6 (as amended): the output array is [count, route_length, c]
    followed by the route, which has exactly [route_length] entries, where
    [c] is the [(int)] cast of the binary32 product [finish_time * 100.0f].
    For [end_time <= 167772] the cast is the floor of that product, and [c]
    lies between the floor and the ceiling of the exact [finish_time * 100]:
    it is neither the nearest integer (617 + 1/128 gives 61700, not 61701)
    nor always the truncation of the exact product (612 + 819/16384 gives
    61205, the exact product being 61204.998...). *)
Theorem encoding_truncates (input : SolverInput) (res : SolverResult) :
  solve input = Some res ->
  solveNative input =
    Some ([count res; route_length res; to_int (fmul (finish_time res) 100)] ++ route res) /\
  Z.of_nat (length (route res)) = route_length res /\
  (end_time input <= 167772 ->
   to_int (fmul (finish_time res) 100) = Qfloor (fmul (finish_time res) 100) /\
   Qfloor (finish_time res * 100) <= to_int (fmul (finish_time res) 100)
     <= Qceiling (finish_time res * 100)) /\
  (solveNative fraction_input = Some [1; 1; 61700; 0] /\
   round_nearest ((78977 # 128) * 100)%Q = 61701) /\
  (solve product_input = Some (mkResult 1 [0] 1 (10027827 # 16384)) /\
   solveNative product_input = Some [1; 1; 61205; 0] /\
   Qfloor ((10027827 # 16384) * 100) = 61204).
Proof.
  intros Hs.
  assert (Hlen : Z.of_nat (length (route res)) = route_length res).
  { unfold solve in Hs.
    destruct (best_count _ <? 0); [injection Hs as <-; reflexivity |].
    destruct (reconstruct _ _ _ _ _ _) as [l |]; [| discriminate].
    injection Hs as <-. simpl. rewrite length_rev. reflexivity. }
  split.
  { unfold solveNative. rewrite Hs. unfold encode_result. simpl.
    rewrite <- Hlen, Nat2Z.id, firstn_all. reflexivity. }
  split; [assumption |].
  split; [| split; vm_compute; repeat split; reflexivity].
  intros Hend.
  destruct (solve_finish_range input res Hs) as [H0 [H1 | H1]].
  - apply centi_minutes_range; [assumption |].
    apply Qle_trans with (of_int (end_time input)); [assumption |].
    change 167772%Q with (inject_Z 167772).
    rewrite <- (of_int_exact 167772) by (unfold TIME_MAX; lia).
    apply of_int_le. assumption.
  - rewrite H1. vm_compute. repeat split; discriminate.
Qed.

Lemma encoding_truncates_witness :
  solveNative fraction_input = Some [1; 1; 61700; 0].
Proof.
  apply (encoding_truncates fraction_input (mkResult 1 [0] 1 (78977 # 128))).
  vm_compute. reflexivity.
Defined.

(** C6, as worded: on [fraction_input] the finish time is 617 + 1/128, so
    the rounded centi-minute value is 61701, while the third header integer
    of the output is 61700. *)
Lemma encoding_rounds_fails :
  solve fraction_input = Some (mkResult 1 [0] 1 (78977 # 128)) /\
  round_nearest ((78977 # 128) * 100)%Q = 61701 /\
  solveNative fraction_input = Some [1; 1; 61700; 0] /\
  ~ encoding_rounds fraction_input.
Proof.
  assert (Hs : solve fraction_input = Some (mkResult 1 [0] 1 (78977 # 128)))
    by (vm_compute; reflexivity).
  assert (Hn : solveNative fraction_input = Some [1; 1; 61700; 0])
    by (vm_compute; reflexivity).
  split; [assumption |]. split; [vm_compute; reflexivity |]. split; [assumption |].
  intros H. specialize (H _ _ Hs Hn). vm_compute in H. discriminate.
Qed.

(** ** Valid inputs and relaxations *)

Lemma forallb_seqZ (p : Z -> bool) lo n :
  forallb p (seqZ lo n) = true <-> forall s, lo <= s < lo + n -> p s = true.
Proof.
  rewrite forallb_forall. split.
  - intros H s Hs. apply H. apply In_seqZ. assumption.
  - intros H s Hs. apply H. apply In_seqZ. assumption.
Qed.

Lemma valid_input_spec input :
  valid_input input = true ->
  1 <= n_checkpoints input <= MAX_CP /\
  1 <= n_slots input <= MAX_SLOTS /\
  0 <= slot_start input 0 /\
  slot_start input 0 mod 30 = 0 /\
  (forall s, 0 <= s < n_slots input -> slot_start input s = slot_start input 0 + 30 * s) /\
  (forall u v, 0 <= u < ALL_NODES -> 0 <= v < ALL_NODES -> (0 <= tt input u v)%Q) /\
  0 <= dwell input /\
  (of_int (end_time input) < INF_TIME)%Q.
Proof.
  unfold valid_input. intros H. rewrite !andb_true_iff in H.
  destruct H as (((((((((((((H1 & H2) & H3) & H4) & H5) & H6) & H7) & H8) & H9) & H10)
                     & H11) & H12) & H13) & H14).
  apply Z.leb_le in H1, H2, H3, H4, H5, H9. apply Z.eqb_eq in H6. apply Z.ltb_lt in H13.
  split; [lia |]. split; [lia |]. split; [assumption |]. split; [assumption |].
  split; [| split; [| split]].
  - intros s Hs. rewrite forallb_seqZ in H7. apply Z.eqb_eq. apply H7. lia.
  - intros u v Hu Hv. unfold nodes in H8. rewrite forallb_seqZ in H8.
    specialize (H8 u ltac:(lia)). rewrite forallb_seqZ in H8.
    specialize (H8 v ltac:(lia)). unfold valid_travel_time in H8.
    rewrite !andb_true_iff in H8. apply Qle_bool_iff. apply H8.
  - assumption.
  - apply Qle_lt_trans with (of_int TIME_MAX); [apply of_int_le; lia |].
    vm_compute. reflexivity.
Qed.

(** The magnitudes a valid input bounds. *)
Lemma valid_input_bounds input :
  valid_input input = true ->
  (forall u v, 0 <= u < ALL_NODES -> 0 <= v < ALL_NODES -> (tt input u v <= TRAVEL_MAX)%Q) /\
  dwell input < TIME_MAX /\
  0 <= start_time input < TIME_MAX /\
  end_time input < TIME_MAX /\
  (forall s, 0 <= s < n_slots input -> 0 <= slot_start input s < TIME_MAX).
Proof.
  intros Hv. destruct (valid_input_spec input Hv) as (_ & HM & H0 & _ & Hreg & _).
  unfold valid_input in Hv. rewrite !andb_true_iff in Hv.
  destruct Hv as (((((((((((((H1 & H2) & H3) & H4) & H5) & H6) & H7) & H8) & H9) & H10)
                      & H11) & H12) & H13) & H14).
  apply Z.ltb_lt in H10, H12, H13, H14. apply Z.leb_le in H11.
  split; [| split; [assumption | split; [lia | split; [assumption |]]]].
  - intros u v Hu Hv. unfold nodes in H8. rewrite forallb_seqZ in H8.
    specialize (H8 u ltac:(lia)). rewrite forallb_seqZ in H8.
    specialize (H8 v ltac:(lia)). unfold valid_travel_time in H8.
    rewrite !andb_true_iff in H8. apply Qle_bool_iff. apply H8.
  - intros s Hs. rewrite (Hreg (n_slots input - 1)) in H14 by lia.
    rewrite (Hreg s) by lia. lia.
Qed.

Lemma relaxes_spec a b :
  relaxes a b = true ->
  n_checkpoints a = n_checkpoints b /\
  n_slots a = n_slots b /\
  (forall s, 0 <= s < MAX_SLOTS -> slot_start a s = slot_start b s) /\
  dwell a = dwell b /\ start_time a = start_time b /\ end_time a = end_time b /\
  (forall c s, 0 <= c < MAX_CP -> 0 <= s < MAX_SLOTS ->
     is_open a c s = true -> is_open b c s = true) /\
  (forall s, 0 <= s < MAX_SLOTS -> fin_open a s = true -> fin_open b s = true) /\
  (forall u v, 0 <= u < ALL_NODES -> 0 <= v < ALL_NODES -> (tt b u v <= tt a u v)%Q).
Proof.
  unfold relaxes. intros H. rewrite !andb_true_iff in H.
  destruct H as ((((((((H1 & H2) & H3) & H4) & H5) & H6) & H7) & H8) & H9).
  apply Z.eqb_eq in H1, H2, H4, H5, H6.
  split; [assumption |]. split; [assumption |].
  split; [| split; [assumption | split; [assumption | split; [assumption |]]]].
  - intros s Hs. rewrite forallb_seqZ in H3. apply Z.eqb_eq. apply H3. lia.
  - split; [| split].
    + intros c s Hc Hs Ho. rewrite forallb_seqZ in H7. specialize (H7 c ltac:(lia)).
      rewrite forallb_seqZ in H7. specialize (H7 s ltac:(lia)).
      rewrite Ho in H7. assumption.
    + intros s Hs Ho. rewrite forallb_seqZ in H8. specialize (H8 s ltac:(lia)).
      rewrite Ho in H8. assumption.
    + intros u v Hu Hv. unfold nodes in H9. rewrite forallb_seqZ in H9.
      specialize (H9 u ltac:(lia)). rewrite forallb_seqZ in H9.
      apply Qle_bool_iff. apply H9. lia.
Qed.

Lemma relaxes_refl a : relaxes a a = true.
Proof.
  unfold relaxes. rewrite !andb_true_iff.
  repeat split; try apply Z.eqb_refl.
  - apply forallb_forall. intros s _. apply Z.eqb_refl.
  - apply forallb_forall. intros c _. apply forallb_forall. intros s _.
    destruct (is_open a c s); reflexivity.
  - apply forallb_forall. intros s _. destruct (fin_open a s); reflexivity.
  - apply forallb_forall. intros u _. apply forallb_forall. intros v _.
    apply Qle_bool_iff. apply Qle_refl.
Qed.

Lemma find_ext_In {A} (f g : A -> bool) l :
  (forall x, In x l -> f x = g x) -> find f l = find g l.
Proof.
  induction l as [| x l IH]; intros H; simpl; [reflexivity |].
  rewrite <- (H x) by (left; reflexivity).
  destruct (f x); [reflexivity |]. apply IH. intros y Hy. apply H. right. assumption.
Qed.

(** ** Arriving earlier is never worse *)

Lemma find_next_open_time_found input c t :
  Qltb (find_next_open_time c t input) 0 = false ->
  exists s,
    Z.max 0 (arrival_to_slot_index t input) <= s < n_slots input /\
    is_open input c s = true /\
    find_next_open_time c t input = fmax t (of_int (slot_start input s)).
Proof.
  unfold find_next_open_time. rewrite clamp_slot.
  pose proof (find_seqZ_spec (fun s => is_open input c s)
                (Z.max 0 (arrival_to_slot_index t input))
                (n_slots input - Z.max 0 (arrival_to_slot_index t input))) as H.
  destruct (find _ _) as [s |]; [| intros E; vm_compute in E; discriminate].
  intros _. destruct H as (Hr & Ho & _). exists s. split; [lia |]. split; [assumption | reflexivity].
Qed.

Lemma find_next_open_time_float c t input :
  round32 t = t -> round32 (find_next_open_time c t input) = find_next_open_time c t input.
Proof.
  intros Ht. unfold find_next_open_time.
  destruct (find _ _); [| vm_compute; reflexivity].
  apply fmax_float; [assumption | apply of_int_float].
Qed.

(** A sum that is at least a [float] [z] stays at least [z]. *)
Lemma fadd_ge z x y : round32 z = z -> (z <= x)%Q -> (0 <= y)%Q -> (z <= fadd x y)%Q.
Proof. intros Hz Hx Hy. rewrite <- Hz. unfold fadd. apply round32_le. lra. Qed.

(** Leaving by [TIME_MAX], every arrival fits the [(int)] cast. *)
Lemma arrival_below_int x y :
  (x <= inject_Z TIME_MAX)%Q -> (y <= TRAVEL_MAX)%Q -> (fadd x y < 2147483648)%Q.
Proof.
  intros Hx Hy. apply Qle_lt_trans with (round32 1090519040).
  - unfold fadd. apply round32_le. unfold TIME_MAX, TRAVEL_MAX in *.
    change (inject_Z 16777216) with 16777216%Q in Hx. lra.
  - vm_compute. reflexivity.
Qed.

Section Valid.

Variable a : SolverInput.
Hypothesis Hva : valid_input a = true.

Lemma valid_strictly_increasing : strictly_increasing a.
Proof.
  destruct (valid_input_spec a Hva) as (_ & _ & _ & _ & Hreg & _).
  intros s s' H0 Hlt Hm. rewrite (Hreg s), (Hreg s') by lia. lia.
Qed.

Lemma slot_start_mono s s' :
  0 <= s -> s <= s' -> s' < n_slots a -> slot_start a s <= slot_start a s'.
Proof.
  destruct (valid_input_spec a Hva) as (_ & _ & _ & _ & Hreg & _).
  intros H0 Hle Hm. rewrite (Hreg s), (Hreg s') by lia. lia.
Qed.

(** The slot starts of a valid input are binary32 numbers. *)
Lemma slot_start_exact s :
  0 <= s < n_slots a -> of_int (slot_start a s) = inject_Z (slot_start a s).
Proof.
  intros Hs. destruct (valid_input_bounds a Hva) as (_ & _ & _ & _ & Hss).
  apply of_int_exact. specialize (Hss s Hs). lia.
Qed.

Lemma first_slot_exact : of_int (slot_start a 0) = inject_Z (slot_start a 0).
Proof. destruct (valid_input_spec a Hva) as (_ & HM & _). apply slot_start_exact. lia. Qed.

Lemma slot_start_ge_first s :
  0 <= s < n_slots a -> (of_int (slot_start a 0) <= of_int (slot_start a s))%Q.
Proof. intros Hs. apply of_int_le. apply slot_start_mono; lia. Qed.

Lemma first_slot_nonneg : (0 <= of_int (slot_start a 0))%Q.
Proof.
  destruct (valid_input_spec a Hva) as (_ & _ & H0 & _). apply of_int_nonneg. assumption.
Qed.

Lemma dwell_nonneg : (0 <= of_int (dwell a))%Q.
Proof.
  destruct (valid_input_spec a Hva) as (_ & _ & _ & _ & _ & _ & H0 & _).
  apply of_int_nonneg. assumption.
Qed.

Lemma end_time_below : (of_int (end_time a) <= inject_Z TIME_MAX)%Q.
Proof.
  destruct (valid_input_bounds a Hva) as (_ & _ & _ & He & _).
  rewrite <- (of_int_exact TIME_MAX) by (unfold TIME_MAX; lia). apply of_int_le. lia.
Qed.

Lemma start_time_below : (of_int (start_time a) <= inject_Z TIME_MAX)%Q.
Proof.
  destruct (valid_input_bounds a Hva) as (_ & _ & Hs & _).
  rewrite <- (of_int_exact TIME_MAX) by (unfold TIME_MAX; lia). apply of_int_le. lia.
Qed.

Lemma below_end_fits t : (t <= of_int (end_time a))%Q -> (t < 2147483648)%Q.
Proof.
  intros H. pose proof end_time_below as He. unfold TIME_MAX in He.
  change (inject_Z 16777216) with 16777216%Q in He. lra.
Qed.

(** An arrival computed from a departure not after [TIME_MAX]. *)
Lemma arrival_fits t u v :
  0 <= u < ALL_NODES -> 0 <= v < ALL_NODES -> (t <= inject_Z TIME_MAX)%Q ->
  (fadd t (tt a u v) < 2147483648)%Q.
Proof.
  intros Hu Hv Ht. destruct (valid_input_bounds a Hva) as (Htt & _).
  apply arrival_below_int; [assumption | apply Htt; assumption].
Qed.

(** With every half hour listed, the canonical mark of an arrival at or
    after the first slot start is a whole number [q >= -1] of half hours
    from it. *)
Lemma regular_canonical t :
  (of_int (slot_start a 0) <= t)%Q -> (t < 2147483648)%Q ->
  exists q, slot_time_of (to_int t) = slot_start a 0 + 30 * q /\ -1 <= q /\
            (on_the_hour a = true -> 0 <= q).
Proof.
  intros Ht Hb. destruct (valid_input_spec a Hva) as (_ & _ & H0 & Hmod & _).
  rewrite first_slot_exact in Ht.
  assert (Hge : slot_start a 0 <= to_int t) by (apply to_int_ge; assumption).
  assert (Hw : 0 <= to_int t) by lia.
  pose proof (slot_time_of_mod30 _ Hw) as Hc.
  exists ((slot_time_of (to_int t) - slot_start a 0) / 30).
  assert (Hlow : to_int t - 30 <= slot_time_of (to_int t)).
  { rewrite slot_time_of_nonneg by assumption.
    destruct (Z.ltb_spec 30 (to_int t mod 60)); Z.div_mod_to_equations; lia. }
  split; [Z.div_mod_to_equations; lia |]. split; [Z.div_mod_to_equations; lia |].
  intros Hh. unfold on_the_hour in Hh. apply Z.eqb_eq in Hh.
  assert (Hc' : slot_start a 0 <= slot_time_of (to_int t)).
  { rewrite <- (slot_time_of_hour (slot_start a 0)) by assumption.
    apply slot_time_of_mono; assumption. }
  Z.div_mod_to_equations; lia.
Qed.

(** The slot index in closed form: none when the canonical mark is the half
    hour before the first slot, otherwise the number of half hours since
    the first slot start, capped at the last slot. *)
Lemma slot_index_valid t q :
  (of_int (slot_start a 0) <= t)%Q ->
  slot_time_of (to_int t) = slot_start a 0 + 30 * q ->
  arrival_to_slot_index t a = if q <? 0 then -1 else Z.min q (n_slots a - 1).
Proof.
  intros Ht Hq. destruct (valid_input_spec a Hva) as (_ & HM & _ & _ & Hreg & _).
  assert (Hnot : ~ (t < of_int (slot_start a 0))%Q) by (apply Qle_not_lt; assumption).
  pose proof (Hreg (n_slots a - 1) ltac:(lia)) as Hlast.
  destruct (Z.ltb_spec q 0) as [Hneg | Hpos].
  - apply slot_index_missing; [assumption | lia |].
    intros s Hs. rewrite (Hreg s Hs). lia.
  - destruct (Z_lt_le_dec (n_slots a - 1) q) as [Hcap | Hin].
    + rewrite Z.min_r by lia. apply slot_index_last; [assumption | lia].
    + rewrite Z.min_l by lia.
      apply slot_index_found; [apply valid_strictly_increasing | assumption | lia | lia |].
      rewrite Hreg by lia. lia.
Qed.

Lemma slot_index_bounds t : -1 <= arrival_to_slot_index t a < n_slots a.
Proof.
  destruct (valid_input_spec a Hva) as (_ & HM & _).
  unfold arrival_to_slot_index.
  destruct (Qltb _ _); [lia |].
  destruct (_ >? _); [lia |].
  pose proof (find_seqZ_spec (fun s => slot_start a s =? slot_time_of (to_int t))
                             0 (n_slots a)) as H.
  destruct (find _ _); [destruct H as (H & _); lia | lia].
Qed.

(** The slot index never decreases with the arrival time. *)
Lemma slot_index_mono t t' :
  (t' <= t)%Q -> (t < 2147483648)%Q ->
  arrival_to_slot_index t' a <= arrival_to_slot_index t a.
Proof.
  intros Hle Hb. destruct (valid_input_spec a Hva) as (_ & HM & H0 & _).
  destruct (Qlt_le_dec t' (of_int (slot_start a 0))) as [Hlt | Hge].
  - rewrite (slot_index_below a t' Hlt). apply (slot_index_bounds t).
  - assert (Hge' : (of_int (slot_start a 0) <= t)%Q) by (eapply Qle_trans; eassumption).
    assert (Hb' : (t' < 2147483648)%Q) by (eapply Qle_lt_trans; eassumption).
    destruct (regular_canonical t Hge' Hb) as (q & Hq & Hq1 & _).
    destruct (regular_canonical t' Hge Hb') as (q' & Hq' & Hq1' & _).
    rewrite (slot_index_valid t q Hge' Hq), (slot_index_valid t' q' Hge Hq').
    pose proof first_slot_nonneg as Hf.
    assert (Ht0 : (0 <= t')%Q) by (eapply Qle_trans; eassumption).
    pose proof (slot_time_of_mono (to_int t') (to_int t) (to_int_nonneg t' Ht0 Hb')
                  (to_int_mono t' t Ht0 Hle Hb)) as Hm.
    destruct (Z.ltb_spec q' 0), (Z.ltb_spec q 0); lia.
Qed.

Lemma clamp_mono t t' :
  (t' <= t)%Q -> (t < 2147483648)%Q ->
  Z.max 0 (arrival_to_slot_index t' a) <= Z.max 0 (arrival_to_slot_index t a).
Proof. intros Hle Hb. pose proof (slot_index_mono t t' Hle Hb). lia. Qed.

(** When the slots start on a full hour every arrival at or after the first
    slot start has a slot. *)
Lemma slot_index_range t :
  on_the_hour a = true ->
  (of_int (slot_start a 0) <= t)%Q -> (t < 2147483648)%Q ->
  0 <= arrival_to_slot_index t a < n_slots a.
Proof.
  intros Hh Hge Hb. destruct (valid_input_spec a Hva) as (_ & HM & _).
  destruct (regular_canonical t Hge Hb) as (q & Hq & _ & Hq0).
  specialize (Hq0 Hh).
  rewrite (slot_index_valid t q Hge Hq).
  destruct (Z.ltb_spec q 0); lia.
Qed.

End Valid.

Section Relax.

Variables a b : SolverInput.
Hypothesis Hva : valid_input a = true.
Hypothesis Hvb : valid_input b = true.
Hypothesis Hh : on_the_hour a = true.
Hypothesis Hr : relaxes a b = true.

Lemma relax_slot_start s : 0 <= s < n_slots a -> slot_start b s = slot_start a s.
Proof.
  intros Hs. destruct (valid_input_spec a Hva) as (_ & HM & _).
  destruct (relaxes_spec a b Hr) as (_ & _ & Hss & _). symmetry. apply Hss. lia.
Qed.

Lemma relax_n_slots : n_slots b = n_slots a.
Proof. destruct (relaxes_spec a b Hr) as (_ & HM & _). symmetry. assumption. Qed.

Lemma relax_end_time : end_time b = end_time a.
Proof. destruct (relaxes_spec a b Hr) as (_ & _ & _ & _ & _ & He & _). symmetry. assumption. Qed.

Lemma relax_slot_index t : arrival_to_slot_index t b = arrival_to_slot_index t a.
Proof.
  destruct (valid_input_spec a Hva) as (_ & HM & _).
  unfold arrival_to_slot_index. rewrite relax_n_slots.
  rewrite !relax_slot_start by lia.
  rewrite (find_ext_In (fun s => slot_start b s =? slot_time_of (to_int t))
                       (fun s => slot_start a s =? slot_time_of (to_int t))); [reflexivity |].
  intros s Hs. apply In_seqZ in Hs. rewrite relax_slot_start by lia. reflexivity.
Qed.

Lemma find_next_open_time_mono c t t' :
  0 <= c < MAX_CP -> (t' <= t)%Q -> (t < 2147483648)%Q ->
  Qltb (find_next_open_time c t a) 0 = false ->
  Qltb (find_next_open_time c t' b) 0 = false /\
  (find_next_open_time c t' b <= find_next_open_time c t a)%Q /\
  (of_int (slot_start a 0) <= find_next_open_time c t' b)%Q.
Proof.
  intros Hc Hle Hb Hfound.
  destruct (valid_input_spec a Hva) as (_ & HM & _).
  destruct (relaxes_spec a b Hr) as (_ & _ & _ & _ & _ & _ & Hopen & _).
  destruct (find_next_open_time_found a c t Hfound) as (s & Hs & Ho & ->).
  pose proof (clamp_mono a Hva t t' Hle Hb) as Hclamp.
  assert (Hob : is_open b c s = true)
    by (apply Hopen; [assumption | unfold MAX_SLOTS in *; lia | assumption]).
  unfold find_next_open_time. rewrite clamp_slot, relax_slot_index, relax_n_slots.
  pose proof (find_seqZ_spec (fun s => is_open b c s)
                (Z.max 0 (arrival_to_slot_index t' a))
                (n_slots a - Z.max 0 (arrival_to_slot_index t' a))) as H.
  destruct (find _ _) as [s' |].
  - destruct H as (Hr' & Ho' & Hfirst).
    assert (Hss' : s' <= s).
    { destruct (Z_le_gt_dec s' s) as [Hok | Hgt]; [assumption |].
      rewrite Hfirst in Hob by lia. discriminate. }
    rewrite relax_slot_start by lia.
    assert (Hge : (of_int (slot_start a 0) <= fmax t' (of_int (slot_start a s')))%Q).
    { eapply Qle_trans; [apply (slot_start_ge_first a Hva s'); lia | apply fmax_r]. }
    split; [| split; [| assumption]].
    + apply Qltb_false. pose proof (first_slot_nonneg a Hva). lra.
    + apply fmax_mono; [assumption |]. apply of_int_le. apply (slot_start_mono a Hva); lia.
  - exfalso. rewrite H in Hob by lia. discriminate.
Qed.

Lemma visit_mono prev j t t' d :
  0 <= prev < ALL_NODES -> 0 <= j < MAX_CP -> (t' <= t)%Q -> (t <= inject_Z TIME_MAX)%Q ->
  visit a t prev j = Some d ->
  exists d', visit b t' prev j = Some d' /\ (d' <= d)%Q /\ (of_int (slot_start a 0) <= d')%Q.
Proof.
  intros Hprev Hj Hle Hmax Hv.
  destruct (relaxes_spec a b Hr) as (_ & _ & _ & Hdwell & _ & _ & _ & _ & Htt).
  assert (Hj' : 0 <= j < ALL_NODES) by (unfold MAX_CP, ALL_NODES in *; lia).
  unfold visit in *.
  destruct (Qltb (find_next_open_time j (fadd t (tt a prev j)) a) 0) eqn:Hopen; [discriminate |].
  destruct (Qgtb _ _) eqn:Hdep; [discriminate |]. injection Hv as <-. qprop.
  assert (Harr : (fadd t' (tt b prev j) <= fadd t (tt a prev j))%Q).
  { apply fadd_le; [assumption | apply Htt; assumption]. }
  apply Qltb_false in Hopen.
  destruct (find_next_open_time_mono j _ _ Hj Harr (arrival_fits a Hva t prev j Hprev Hj' Hmax)
              Hopen) as (Hopen' & Hmono & Hge).
  rewrite Hopen', relax_end_time, <- Hdwell.
  pose proof (dwell_nonneg a Hva) as Hdw'.
  assert (Hd : (fadd (find_next_open_time j (fadd t' (tt b prev j)) b) (of_int (dwell a))
                <= fadd (find_next_open_time j (fadd t (tt a prev j)) a) (of_int (dwell a)))%Q).
  { apply fadd_le; [assumption | apply Qle_refl]. }
  destruct (Qgtb _ _) eqn:Hdep'; [qprop; lra |].
  eexists. split; [reflexivity |]. split; [assumption |].
  apply fadd_ge; [apply of_int_float | assumption | assumption].
Qed.

Lemma can_reach_finish_mono d d' j :
  0 <= j < ALL_NODES -> (d' <= d)%Q -> (of_int (slot_start a 0) <= d')%Q ->
  can_reach_finish d j a = true -> can_reach_finish d' j b = true.
Proof.
  intros Hj Hle Hge Hc.
  destruct (valid_input_spec a Hva) as (_ & HM & _).
  destruct (valid_input_spec b Hvb) as (_ & _ & _ & _ & _ & Httb & _).
  destruct (relaxes_spec a b Hr) as (_ & _ & _ & _ & _ & _ & _ & Hfo & Htt).
  destruct (can_reach_finish_true a d j Hc) as (Hfa & s & Hs & HsM & Hos & Hwait).
  specialize (Htt j FINISH_IDX Hj ltac:(unfold FINISH_IDX, ALL_NODES; lia)).
  specialize (Httb j FINISH_IDX Hj ltac:(unfold FINISH_IDX, ALL_NODES; lia)).
  assert (Harr : (fadd d' (tt b j FINISH_IDX) <= fadd d (tt a j FINISH_IDX))%Q)
    by (apply fadd_le; assumption).
  assert (Hfit : (fadd d (tt a j FINISH_IDX) < 2147483648)%Q)
    by (apply (below_end_fits a Hva); assumption).
  unfold can_reach_finish. rewrite relax_end_time, relax_slot_index, relax_n_slots.
  destruct (Qgtb _ _) eqn:E; [qprop; lra |].
  assert (Hge' : (of_int (slot_start a 0) <= fadd d' (tt b j FINISH_IDX))%Q)
    by (apply fadd_ge; [apply of_int_float | assumption | assumption]).
  pose proof (slot_index_range a Hva _ Hh Hge' ltac:(lra)) as Hrange.
  destruct (Z.ltb_spec (arrival_to_slot_index (fadd d' (tt b j FINISH_IDX)) a) 0); [lia |].
  rewrite Z.geb_leb.
  destruct (Z.leb_spec (n_slots a) (arrival_to_slot_index (fadd d' (tt b j FINISH_IDX)) a)); [lia |].
  simpl. apply existsb_exists. exists s. split.
  - apply In_seqZ.
    pose proof (clamp_mono a Hva (fadd d (tt a j FINISH_IDX)) (fadd d' (tt b j FINISH_IDX))
                  Harr Hfit). lia.
  - apply andb_true_intro. split.
    + apply Hfo; [unfold MAX_SLOTS in *; lia | assumption].
    + apply Qle_bool_iff. rewrite relax_slot_start by lia.
      eapply Qle_trans; [| apply Hwait]. apply fmax_mono; [assumption | apply Qle_refl].
Qed.

Lemma actual_finish_found input d i af :
  actual_finish input d i = Some af ->
  (fadd d (tt input i FINISH_IDX) <= of_int (end_time input))%Q /\
  exists s,
    0 <= arrival_to_slot_index (fadd d (tt input i FINISH_IDX)) input <= s /\
    s < n_slots input /\ fin_open input s = true /\
    af = fmax (fadd d (tt input i FINISH_IDX)) (of_int (slot_start input s)) /\
    (af <= of_int (end_time input))%Q.
Proof.
  unfold actual_finish.
  destruct (Qgtb _ _) eqn:E; [discriminate |]. qprop.
  destruct (Z.ltb_spec (arrival_to_slot_index (fadd d (tt input i FINISH_IDX)) input) 0);
    [discriminate |].
  pose proof (find_seqZ_spec (fun s => fin_open input s)
                (arrival_to_slot_index (fadd d (tt input i FINISH_IDX)) input)
                (n_slots input - arrival_to_slot_index (fadd d (tt input i FINISH_IDX)) input)) as Hf.
  destruct (find _ _) as [s |].
  - destruct (_ || _) eqn:E2; [discriminate |]. intros Haf. injection Haf as <-.
    apply orb_false_iff in E2. destruct E2 as [_ E2]. qprop.
    destruct Hf as (Hr' & Ho & _). split; [assumption |].
    exists s. repeat split; try assumption; lia.
  - intros Haf. vm_compute in Haf. discriminate.
Qed.

Lemma actual_finish_mono d d' i af :
  0 <= i < ALL_NODES -> (d' <= d)%Q -> (of_int (slot_start a 0) <= d')%Q ->
  actual_finish a d i = Some af ->
  exists af', actual_finish b d' i = Some af' /\ (af' <= af)%Q.
Proof.
  intros Hi Hle Hge Haf.
  destruct (valid_input_spec a Hva) as (_ & HM & _).
  destruct (valid_input_spec b Hvb) as (_ & _ & _ & _ & _ & Httb & _).
  destruct (relaxes_spec a b Hr) as (_ & _ & _ & _ & _ & _ & _ & Hfo & Htt).
  destruct (actual_finish_found a d i af Haf) as (Hfa & s & Hs & HsM & Hos & -> & Hend).
  specialize (Htt i FINISH_IDX Hi ltac:(unfold FINISH_IDX, ALL_NODES; lia)).
  specialize (Httb i FINISH_IDX Hi ltac:(unfold FINISH_IDX, ALL_NODES; lia)).
  assert (Harr : (fadd d' (tt b i FINISH_IDX) <= fadd d (tt a i FINISH_IDX))%Q)
    by (apply fadd_le; assumption).
  assert (Hfit : (fadd d (tt a i FINISH_IDX) < 2147483648)%Q)
    by (apply (below_end_fits a Hva); assumption).
  unfold actual_finish. rewrite relax_end_time, relax_slot_index, relax_n_slots.
  destruct (Qgtb _ _) eqn:E; [qprop; lra |].
  assert (Hge' : (of_int (slot_start a 0) <= fadd d' (tt b i FINISH_IDX))%Q)
    by (apply fadd_ge; [apply of_int_float | assumption | assumption]).
  pose proof (slot_index_range a Hva _ Hh Hge' ltac:(lra)) as Hrange.
  destruct (Z.ltb_spec (arrival_to_slot_index (fadd d' (tt b i FINISH_IDX)) a) 0); [lia |].
  pose proof (clamp_mono a Hva (fadd d (tt a i FINISH_IDX)) (fadd d' (tt b i FINISH_IDX))
                Harr Hfit) as Hcl.
  pose proof (find_seqZ_spec (fun s => fin_open b s)
                (arrival_to_slot_index (fadd d' (tt b i FINISH_IDX)) a)
                (n_slots a - arrival_to_slot_index (fadd d' (tt b i FINISH_IDX)) a)) as Hf.
  assert (Hob : fin_open b s = true) by (apply Hfo; [unfold MAX_SLOTS in *; lia | assumption]).
  destruct (find _ _) as [s' |].
  - destruct Hf as (Hr' & Ho' & Hfirst).
    assert (Hss' : s' <= s).
    { destruct (Z_le_gt_dec s' s) as [Hok | Hgt]; [assumption |].
      rewrite Hfirst in Hob by lia. discriminate. }
    rewrite relax_slot_start by lia.
    assert (Hmono : (fmax (fadd d' (tt b i FINISH_IDX)) (of_int (slot_start a s'))
                     <= fmax (fadd d (tt a i FINISH_IDX)) (of_int (slot_start a s)))%Q).
    { apply fmax_mono; [assumption |]. apply of_int_le. apply (slot_start_mono a Hva); lia. }
    assert (H0 : (0 <= fmax (fadd d' (tt b i FINISH_IDX)) (of_int (slot_start a s')))%Q).
    { pose proof (first_slot_nonneg a Hva).
      pose proof (fmax_l (fadd d' (tt b i FINISH_IDX)) (of_int (slot_start a s'))).
      lra. }
    destruct (Qltb _ 0) eqn:E1; [qprop; lra |].
    destruct (Qgtb (fmax _ _) _) eqn:E2; [qprop; lra |].
    simpl. eexists. split; [reflexivity | assumption].
  - exfalso. rewrite Hf in Hob by lia. discriminate.
Qed.

End Relax.

(** A state that can reach Finish has a Finish minute. *)
Lemma can_reach_finish_actual input d i :
  valid_input input = true ->
  can_reach_finish d i input = true -> is_Some (actual_finish input d i).
Proof.
  intros Hv Hc.
  destruct (valid_input_spec input Hv) as (_ & HM & H0 & _ & Hreg & _).
  destruct (can_reach_finish_true input d i Hc) as (Hfa & s & Hs & HsM & Hos & Hwait).
  unfold actual_finish.
  destruct (Qgtb _ _) eqn:E; [qprop; lra |].
  destruct (Z.ltb_spec (arrival_to_slot_index (fadd d (tt input i FINISH_IDX)) input) 0); [lia |].
  pose proof (find_seqZ_spec (fun s => fin_open input s)
                (arrival_to_slot_index (fadd d (tt input i FINISH_IDX)) input)
                (n_slots input - arrival_to_slot_index (fadd d (tt input i FINISH_IDX)) input)) as Hf.
  destruct (find _ _) as [s' |].
  - destruct Hf as (Hr' & Ho' & Hfirst).
    assert (Hss' : s' <= s).
    { destruct (Z_le_gt_dec s' s) as [Hok | Hgt]; [assumption |].
      rewrite Hfirst in Hos by lia. discriminate. }
    assert (Hmono : (fmax (fadd d (tt input i FINISH_IDX)) (of_int (slot_start input s'))
                     <= fmax (fadd d (tt input i FINISH_IDX)) (of_int (slot_start input s)))%Q).
    { apply fmax_mono; [apply Qle_refl |]. apply of_int_le.
      rewrite (Hreg s), (Hreg s') by lia. lia. }
    assert (H0' : (0 <= fmax (fadd d (tt input i FINISH_IDX)) (of_int (slot_start input s')))%Q).
    { eapply Qle_trans; [| apply fmax_r]. apply of_int_nonneg. rewrite Hreg by lia. lia. }
    destruct (Qltb _ 0) eqn:E1; [qprop; lra |].
    destruct (Qgtb (fmax _ _) _) eqn:E2; [qprop; lra |].
    simpl. eexists. reflexivity.
  - exfalso. rewrite Hf in Hos by lia. discriminate.
Qed.

(** ** Completeness of the DP fill *)

Section Completeness.

Variable input : SolverInput.
#[local] Abbreviation N := (n_checkpoints input).
Hypothesis Hv : valid_input input = true.
Hypothesis Hh : on_the_hour input = true.

Lemma valid_N : 1 <= N <= MAX_CP.
Proof. apply (valid_input_spec input Hv). Qed.

Lemma end_time_finite d : (d <= of_int (end_time input))%Q -> (d < INF_TIME)%Q.
Proof.
  intros Hd. destruct (valid_input_spec input Hv) as (_ & _ & _ & _ & _ & _ & _ & He). lra.
Qed.

Section Hit.

Variables pc mask i j : Z.
Variables d' d : Q.
Hypothesis Hpc : 1 <= pc < N.
Hypothesis Hmask : 0 < mask < Z.shiftl 1 N.
Hypothesis Hpop : popcount mask = pc.
Hypothesis Hi : 0 <= i < N.
Hypothesis Hbit : Z.testbit mask i = true.
Hypothesis Hj : 0 <= j < N.
Hypothesis Hbj : Z.testbit mask j = false.
Hypothesis Hd' : (d' <= of_int (end_time input))%Q.
Hypothesis Hvisit : visit input d' i j = Some d.
Hypothesis Hcrf : can_reach_finish d j input = true.

Lemma Extended_Le st st' :
  Le st st' -> Extended input pc mask j d st -> Extended input pc mask j d st'.
Proof.
  intros HLe [Hin Hd]. split; [apply HLe; assumption |].
  eapply Qle_trans; [apply Le_dp_at; eassumption | assumption].
Qed.

Lemma Ready_Le st st' :
  Le st st' -> Inv input st' /\ Registered input st' ->
  Ready input mask i d' st -> Ready input mask i d' st'.
Proof.
  intros HLe [HI HR] (_ & _ & Hd). split; [assumption |]. split; [assumption |].
  eapply Qle_trans; [apply Le_dp_at; eassumption | assumption].
Qed.

Lemma extend_step_hit st depart_i :
  Reading input mask i depart_i st -> (depart_i <= d')%Q ->
  Extended input pc mask j d (extend_step input pc mask i depart_i st j).
Proof.
  intros (HI & HR & Hdp) Hle.
  pose proof valid_N as HN.
  destruct (valid_input_spec input Hv) as (_ & _ & _ & _ & _ & _ & Hdw & _).
  assert (Hmax : (d' <= inject_Z TIME_MAX)%Q)
    by (eapply Qle_trans; [exact Hd' | apply (end_time_below input Hv)]).
  destruct (visit_mono input input Hv (relaxes_refl input) i j d' depart_i d)
    as (d0 & Hv0 & Hd0 & Hge0); try assumption;
    try (unfold MAX_CP, ALL_NODES in *; lia).
  assert (Hc0 : can_reach_finish d0 j input = true).
  { apply (can_reach_finish_mono input input Hv Hv Hh (relaxes_refl input) d d0 j);
      try assumption. unfold MAX_CP, ALL_NODES in *; lia. }
  unfold visit in Hv0.
  destruct (Qltb (find_next_open_time j (fadd depart_i (tt input i j)) input) 0) eqn:Hopen;
    [discriminate |].
  destruct (Qgtb (fadd _ (of_int (dwell input))) _) eqn:Hdep; [discriminate |].
  injection Hv0 as Hd0eq.
  assert (Hend0 : (d0 <= of_int (end_time input))%Q)
    by (rewrite <- Hd0eq; apply Qgtb_false; assumption).
  assert (Harr : Qgtb (fadd depart_i (tt input i j)) (of_int (end_time input)) = false).
  { apply Qgtb_false.
    destruct (find_next_open_time_found input j _ Hopen) as (s & _ & _ & Hval).
    pose proof (fmax_l (fadd depart_i (tt input i j)) (of_int (slot_start input s))) as Hl.
    rewrite <- Hval in Hl. qprop.
    pose proof (fadd_ge_l (find_next_open_time j (fadd depart_i (tt input i j)) input)
                  (of_int (dwell input))
                  (find_next_open_time_float j _ input (fadd_float _ _))
                  (dwell_nonneg input Hv)) as Hdw'.
    lra. }
  unfold Extended, extend_step.
  rewrite land_bit, Hbj by lia. simpl.
  rewrite Harr, Hopen, Hdep, Hd0eq, Hc0. simpl.
  set (new_mask := Z.lor mask (Z.shiftl 1 j)).
  assert (Hnewpos : 0 < new_mask < Z.shiftl 1 N)
    by (apply add_bit_range; [lia | assumption]).
  assert (Hnew : in_range N new_mask j) by (split; [lia | assumption]).
  assert (Hnewpop : popcount new_mask = pc + 1).
  { subst new_mask. rewrite popcount_add_bit; [lia | lia | lia | assumption]. }
  fold (dp_at N st new_mask j).
  destruct (Qltb d0 (dp_at N st new_mask j)) eqn:Hlt.
  - destruct (push_mask_bucket input HN st (pc + 1) new_mask HI ltac:(lia) Hnewpos Hnewpop)
      as (_ & _ & Hin).
    split; [exact Hin |].
    destruct (read_after_write input st new_mask j d0 (Z.lor (Z.shiftl mask 5) i)
                (push_mask (masks_by_pc st) (pc + 1) new_mask) new_mask j HI Hnew Hnew)
      as [(_ & _ & -> & _) | ([Hne | Hne] & _)]; [assumption | |]; contradiction.
  - qprop. split; [| lra].
    rewrite <- Hnewpop. apply (HR new_mask j Hnew).
    apply end_time_finite. lra.
Qed.

Lemma last_step_hit st :
  Ready input mask i d' st -> Extended input pc mask j d (last_step input pc mask st i).
Proof.
  intros (HI & HR & Hd). pose proof valid_N as HN. unfold last_step.
  rewrite land_bit, Hbit by lia. simpl.
  fold (dp_at N st mask i).
  assert (Hfin : (dp_at N st mask i < INF_TIME)%Q) by (apply end_time_finite; lra).
  destruct (Qgeb _ _) eqn:E; [qprop; lra |].
  apply (fold_left_hit (extend_step input pc mask i (dp_at N st mask i))
           (Reading input mask i (dp_at N st mask i)) (Extended input pc mask j d)
           (seqZ 0 N) j).
  - apply In_seqZ. lia.
  - intros a j' Hj' Ha. apply In_seqZ in Hj'.
    apply (extend_step_ok input HN pc); try assumption; lia.
  - intros a Ha. apply extend_step_hit; assumption.
  - intros a j' Ha. apply (Extended_Le a); [apply extend_step_Le | assumption].
  - split; [assumption | split; [assumption | reflexivity]].
Qed.

Lemma mask_step_hit st :
  Ready input mask i d' st -> Extended input pc mask j d (mask_step input pc st mask).
Proof.
  intros Hready. pose proof valid_N as HN. unfold mask_step.
  apply (fold_left_hit (last_step input pc mask) (Ready input mask i d')
           (Extended input pc mask j d) (seqZ 0 N) i).
  - apply In_seqZ. lia.
  - intros a i' Hi' Ha. apply In_seqZ in Hi'.
    apply (Ready_Le a); [apply last_step_Le | | assumption].
    apply last_step_ok; try assumption; try lia. split; apply Ha.
  - intros a Ha. apply last_step_hit. assumption.
  - intros a i' Ha. apply (Extended_Le a); [apply last_step_Le | assumption].
  - assumption.
Qed.

Lemma pc_step_hit st :
  Ready input mask i d' st -> In mask (vget [] (masks_by_pc st) pc) ->
  Extended input pc mask j d (pc_step input st pc).
Proof.
  intros Hready Hin. pose proof valid_N as HN. unfold pc_step.
  assert (H : Extended input pc mask j d
                (fold_left (mask_step input pc) (vget [] (masks_by_pc st) pc) st)).
  { destruct Hready as (HI & HR & Hd).
    apply (fold_left_hit (mask_step input pc) (Ready input mask i d')
             (Extended input pc mask j d) _ mask); try assumption.
    - intros a m Hm Ha. destruct (inv_bucket _ _ HI pc m ltac:(lia) Hm) as [Hr Hp].
      apply (Ready_Le a); [apply mask_step_Le | | assumption].
      apply mask_step_ok; try assumption. split; apply Ha.
    - intros a Ha. apply mask_step_hit. assumption.
    - intros a m Ha. apply (Extended_Le a); [apply mask_step_Le | assumption].
    - split; [assumption | split; assumption]. }
  destruct (pc + 1 <=? N); [| assumption].
  apply (Extended_Le _ _ (Le_dedup _ _)). assumption.
Qed.

End Hit.

Lemma Complete_step st pc :
  1 <= pc < N -> Inv input st -> Registered input st ->
  Complete input pc st -> Complete input (pc + 1) (pc_step input st pc).
Proof.
  intros Hpc HI HR Hc r d j' Hwf Hlen Hok. pose proof valid_N as HN.
  destruct r as [| j r _] using rev_ind; [simpl in Hlen; lia |].
  rewrite route_ok_snoc in Hok. apply ok_step_Some in Hok.
  destruct Hok as (d' & i & Hok' & Hvisit & Hcrf & ->).
  apply route_wf_snoc in Hwf. destruct Hwf as (Hwf & Hnin & Hj).
  rewrite length_app in Hlen. simpl in Hlen.
  assert (Hne : r <> []) by (intros ->; simpl in Hlen; lia).
  destruct (Hc r d' i Hwf ltac:(lia) Hok') as [Hin Hd].
  destruct (route_ok_nonempty input r d' i Hne Hok') as (Hir & _ & Hend).
  destruct (inv_bucket _ _ HI pc _ ltac:(lia) Hin) as [Hmr Hmp].
  assert (Hi : 0 <= i < N) by (apply (route_wf_In N r); assumption).
  rewrite mask_of_snoc.
  apply (pc_step_hit pc (mask_of r) i j d' d); try assumption.
  - apply (mask_of_testbit N); [assumption | lia | assumption].
  - apply (mask_of_testbit_false N); [assumption | lia | assumption].
  - split; [assumption | split; assumption].
Qed.

Lemma Complete_init : Complete input 1 (init_state input).
Proof.
  intros r d j' Hwf Hlen Hok. pose proof valid_N as HN.
  destruct r as [| j [| j2 r]]; simpl in Hlen; try lia.
  unfold route_ok in Hok. simpl in Hok.
  destruct (visit input (of_int (start_time input)) START_IDX j) as [d0 |] eqn:Hvisit;
    [| discriminate].
  destruct (can_reach_finish d0 j input) eqn:Hcrf; [| discriminate].
  injection Hok as -> ->.
  assert (Hj : 0 <= j' < N) by (apply (route_wf_In N [j']); [assumption | left; reflexivity]).
  change (mask_of [j']) with (Z.lor 0 (Z.shiftl 1 j')). rewrite Z.lor_0_l.
  assert (Hr : in_range N (Z.shiftl 1 j') j').
  { split; [| assumption]. pose proof (bit_in_range input HN j' Hj). lia. }
  destruct (init_state_ok input HN) as [HI HR].
  assert (Hd : (dp_at N (init_state input) (Z.shiftl 1 j') j' <= d)%Q).
  { unfold init_state.
    set (st0 := mkState _ _ _).
    set (st1 := fold_left (init_step input) (seqZ 0 N) st0).
    apply (Qle_trans _ (dp_at N st1 (Z.shiftl 1 j') j')).
    { apply Le_dp_at. eapply Le_trans; [| apply Le_dedup].
      apply fold_left_Le. intros. apply first_bucket_step_Le. }
    subst st1.
    apply (fold_left_hit (init_step input) (fun st => Inv input st /\ InitOnly input st)
             (fun st => (dp_at N st (Z.shiftl 1 j') j' <= d)%Q) (seqZ 0 N) j').
    - apply In_seqZ. lia.
    - intros a j Hjj Ha. apply In_seqZ in Hjj. apply (init_step_ok input HN); [lia | assumption].
    - intros a [Ha _]. unfold init_step. unfold visit in Hvisit.
      destruct (Qltb (find_next_open_time _ _ _) 0); [discriminate |].
      destruct (Qgtb (fadd _ (of_int (dwell input))) _); [discriminate |].
      injection Hvisit as ->. rewrite Hcrf. simpl.
      fold (dp_at N a (Z.shiftl 1 j') j').
      destruct (Qltb d (dp_at N a (Z.shiftl 1 j') j')) eqn:Hlt; [| qprop; assumption].
      destruct (read_after_write input a (Z.shiftl 1 j') j' d (-1) (masks_by_pc a)
                  (Z.shiftl 1 j') j' Ha Hr Hr)
        as [(_ & _ & -> & _) | ([Hne | Hne] & _)]; [apply Qle_refl | |]; contradiction.
    - intros a j Ha. eapply Qle_trans; [apply Le_dp_at; apply init_step_Le | assumption].
    - apply (empty_tables_ok input). }
  split; [| assumption].
  assert (Hfin : (dp_at N (init_state input) (Z.shiftl 1 j') j' < INF_TIME)%Q).
  { destruct (route_ok_nonempty input [j'] d j' ltac:(discriminate)) as (_ & _ & Hend).
    { unfold route_ok. simpl. rewrite Hvisit, Hcrf. reflexivity. }
    apply end_time_finite. lra. }
  pose proof (HR _ j' Hr Hfin) as Hin. rewrite popcount_bit in Hin by lia. exact Hin.
Qed.

Lemma dp_after_complete k :
  Z.of_nat k <= N - 1 ->
  forall k', 1 <= k' <= Z.of_nat k + 1 -> Complete input k' (dp_after input k).
Proof.
  pose proof valid_N as HN.
  induction k as [| k IH]; intros Hk k' Hk'.
  - assert (k' = 1) by lia. subst k'. apply Complete_init.
  - rewrite dp_after_S.
    destruct (dp_after_ok input HN k ltac:(lia)) as [HI HR].
    destruct (Z.eq_dec k' (Z.of_nat (S k) + 1)) as [-> | Hne].
    + replace (Z.of_nat (S k) + 1) with ((1 + Z.of_nat k) + 1) by lia.
      apply Complete_step; [lia | assumption | assumption |]. apply IH; lia.
    + apply (Complete_Le input k' (dp_after input k)); [apply pc_step_Le |].
      apply IH; lia.
Qed.

(** Every checked route is dominated by the state the DP fill records for
    its mask and last checkpoint. *)
Lemma run_dp_complete r d i :
  route_wf N r -> r <> [] -> route_ok input r = Some (d, i) ->
  (dp_at N (run_dp input) (mask_of r) i <= d)%Q.
Proof.
  intros Hwf Hne Hok. pose proof valid_N as HN.
  rewrite (run_dp_after input HN).
  assert (Hlen : 1 <= Z.of_nat (length r) <= N).
  { split; [destruct r; [contradiction | simpl; lia] |].
    rewrite <- (popcount_mask_of N r Hwf). apply popcount_bound; [lia |].
    apply mask_of_range; [lia | assumption]. }
  apply (dp_after_complete (Z.to_nat (N - 1)) ltac:(lia) (Z.of_nat (length r)) ltac:(lia)
           r d i Hwf eq_refl Hok).
Qed.

End Completeness.

(** ** Optimality *)

Lemma route_ok_node input r d i :
  1 <= n_checkpoints input <= MAX_CP ->
  route_wf (n_checkpoints input) r -> route_ok input r = Some (d, i) ->
  0 <= i < ALL_NODES.
Proof.
  intros HN Hwf Hok. unfold MAX_CP, ALL_NODES in *.
  destruct r as [| c r].
  - unfold route_ok in Hok. simpl in Hok. injection Hok as _ <-. unfold START_IDX. lia.
  - destruct (route_ok_nonempty input (c :: r) d i ltac:(discriminate) Hok) as (Hin & _).
    pose proof (route_wf_In _ _ _ Hwf Hin). lia.
Qed.

(** Every departure of a checked route is a minute below [TIME_MAX]. *)
Lemma route_ok_time input r d i :
  valid_input input = true -> route_ok input r = Some (d, i) ->
  (d <= inject_Z TIME_MAX)%Q.
Proof.
  intros Hv Hok. destruct r as [| c r].
  - unfold route_ok in Hok. simpl in Hok. injection Hok as <- _.
    apply (start_time_below input Hv).
  - destruct (route_ok_nonempty input (c :: r) d i ltac:(discriminate) Hok) as (_ & _ & Hd).
    eapply Qle_trans; [exact Hd | apply (end_time_below input Hv)].
Qed.

Lemma route_ok_relax a b r :
  valid_input a = true -> valid_input b = true -> on_the_hour a = true ->
  relaxes a b = true ->
  route_wf (n_checkpoints a) r ->
  forall d i, route_ok a r = Some (d, i) ->
  exists d', route_ok b r = Some (d', i) /\ (d' <= d)%Q /\
             (r <> [] -> (of_int (slot_start a 0) <= d')%Q).
Proof.
  intros Hva Hvb Hh Hr.
  destruct (valid_input_spec a Hva) as (HN & _).
  destruct (relaxes_spec a b Hr) as (_ & _ & _ & _ & Hst & _).
  induction r as [| j r IH] using rev_ind; intros Hwf d i Hok.
  - unfold route_ok in *. simpl in *. injection Hok as <- <-.
    exists (of_int (start_time a)). rewrite Hst. split; [reflexivity |].
    split; [apply Qle_refl | intros H; contradiction].
  - apply route_wf_snoc in Hwf. destruct Hwf as (Hwf & Hnin & Hj).
    rewrite route_ok_snoc in Hok. apply ok_step_Some in Hok.
    destruct Hok as (t & prev & Hok' & Hvisit & Hcrf & ->).
    destruct (IH Hwf t prev Hok') as (t' & Hokb & Hle & _).
    pose proof (route_ok_node a r t prev HN Hwf Hok') as Hprev.
    pose proof (route_ok_time a r t prev Hva Hok') as Hmax.
    destruct (visit_mono a b Hva Hr prev j t t' d Hprev ltac:(lia) Hle Hmax Hvisit)
      as (d' & Hvb' & Hd' & Hge).
    exists d'. rewrite route_ok_snoc, Hokb. simpl. rewrite Hvb'.
    rewrite (can_reach_finish_mono a b Hva Hvb Hh Hr d d' j); try assumption;
      [| unfold MAX_CP, ALL_NODES in *; lia].
    split; [reflexivity |]. split; [assumption | intros _; assumption].
Qed.

(** The result of [solve] dominates every checked route. *)
Lemma solve_dominates input r d i af :
  valid_input input = true -> on_the_hour input = true ->
  route_wf (n_checkpoints input) r -> r <> [] ->
  route_ok input r = Some (d, i) -> actual_finish input d i = Some af ->
  exists res,
    solve input = Some res /\
    Z.of_nat (length r) <= count res /\
    (Z.of_nat (length r) = count res -> (finish_time res <= af)%Q).
Proof.
  intros Hv Hh Hwf Hne Hok Haf.
  destruct (valid_input_spec input Hv) as (HN & _).
  pose proof (run_dp_complete input Hv Hh r d i Hwf Hne Hok) as Hdom.
  destruct (route_ok_nonempty input r d i Hne Hok) as (Hir & Hcrf & Hend).
  pose proof (route_wf_In _ _ _ Hwf Hir) as Hi.
  pose proof (mask_of_range (n_checkpoints input) r ltac:(lia) Hwf) as Hmr.
  pose proof (mask_of_pos _ r Hwf Hne) as Hmp.
  assert (Hr : in_range (n_checkpoints input) (mask_of r) i) by (split; assumption).
  assert (Hfin : (dp_at (n_checkpoints input) (run_dp input) (mask_of r) i < INF_TIME)%Q).
  { apply (end_time_finite input Hv). lra. }
  destruct (run_dp_ok input HN) as [HI _].
  destruct (inv_sound _ _ HI _ _ Hr Hfin) as (r2 & Hne2 & Hwf2 & _ & Hok2).
  destruct (route_ok_relax input input r2 Hv Hv Hh (relaxes_refl input) Hwf2 _ _ Hok2)
    as (d2 & Hok2' & _ & Hge).
  rewrite Hok2 in Hok2'. injection Hok2' as <-. specialize (Hge Hne2).
  destruct (actual_finish_mono input input Hv Hv Hh (relaxes_refl input) d _ i af
              ltac:(unfold MAX_CP, ALL_NODES in *; lia) Hdom Hge Haf) as (af' & Haf' & Hle).
  pose proof (find_best_beats input (run_dp input) (mask_of r) i af' ltac:(lia) Hi
                (conj Hfin Haf')) as [Hcnt Hbf].
  rewrite (popcount_mask_of _ r Hwf) in *.
  assert (Hlen : 1 <= Z.of_nat (length r)) by (destruct r; [contradiction | simpl; lia]).
  destruct (solve_cases input HN) as [[Hb _] | (_ & _ & _ & _ & l & Hs & _)].
  - rewrite Hb in Hcnt. simpl in Hcnt. lia.
  - eexists. split; [exact Hs |]. simpl. split; [assumption |].
    intros Heq. specialize (Hbf Heq). lra.
Qed.

Lemma solve_count_nonneg input res :
  1 <= n_checkpoints input <= MAX_CP -> solve input = Some res -> 0 <= count res.
Proof.
  intros HN Hs.
  destruct (solve_cases input HN) as [[_ Hs'] | (_ & _ & Hc & _ & l & Hs' & _)];
    rewrite Hs' in Hs; injection Hs as <-; simpl; [lia |].
  rewrite Hc. apply popcount_nonneg.
Qed.

(** A visit ends no earlier than the arrival and no earlier than the first
    slot start. *)
Lemma visit_bounds input t prev j d :
  valid_input input = true ->
  visit input t prev j = Some d ->
  (fadd t (tt input prev j) <= d)%Q /\ (of_int (slot_start input 0) <= d)%Q /\
  (d <= of_int (end_time input))%Q /\ round32 d = d.
Proof.
  intros Hv Hvisit. unfold visit in Hvisit.
  destruct (Qltb (find_next_open_time j (fadd t (tt input prev j)) input) 0) eqn:Hopen;
    [discriminate |].
  destruct (Qgtb _ _) eqn:Hdep; [discriminate |]. injection Hvisit as <-.
  apply Qgtb_false in Hdep.
  pose proof (fadd_ge_l (find_next_open_time j (fadd t (tt input prev j)) input)
                (of_int (dwell input))
                (find_next_open_time_float j _ input (fadd_float _ _))
                (dwell_nonneg input Hv)) as Hdw.
  destruct (find_next_open_time_found input j _ Hopen) as (s & Hs & _ & Hval).
  pose proof (fmax_l (fadd t (tt input prev j)) (of_int (slot_start input s))) as Hl.
  pose proof (fmax_r (fadd t (tt input prev j)) (of_int (slot_start input s))) as Hr.
  rewrite <- Hval in Hl, Hr.
  pose proof (slot_start_ge_first input Hv s ltac:(lia)) as H0.
  split; [lra |]. split; [lra |]. split; [assumption | apply fadd_float].
Qed.

(** ** Arrivals at Finish before the first slot *)

(** C10 (as amended): when the arrival at Finish the solver computes, the
    binary32 sum of the departure and the travel time, is before the first
    slot start, [can_reach_finish] answers no (whatever [finish_open] and
    [end_time] are), whereas [find_next_open_time] on such an arrival waits
    for the first slot.  With slots [600], Finish open and
    [end_time = 700]: leaving checkpoint 0 at 560 reaches Finish at 565 and
    is refused, while an arrival at a checkpoint at 560 is served at 600.
    On a valid input the departures [solve] passes to [can_reach_finish]
    are results of a visit, which are never before the first slot start,
    and neither is the Finish arrival computed from them. *)
Theorem can_reach_finish_below_first_slot (input : SolverInput) :
  (forall t i,
     (fadd t (tt input i FINISH_IDX) < of_int (slot_start input 0))%Q ->
     can_reach_finish t i input = false) /\
  (forall c a,
     (a < of_int (slot_start input 0))%Q -> 1 <= n_slots input ->
     is_open input c 0 = true ->
     find_next_open_time c a input = of_int (slot_start input 0)) /\
  (can_reach_finish (560 # 1) 0 s2_input = false /\
   fin_open s2_input 0 = true /\
   slot_start s2_input 0 = 600 /\ end_time s2_input = 700 /\
   find_next_open_time 0 (560 # 1) s2_input = 600 # 1) /\
  (valid_input input = true ->
   forall t prev j d,
     0 <= j < ALL_NODES -> visit input t prev j = Some d ->
     (of_int (slot_start input 0) <= d)%Q /\
     (of_int (slot_start input 0) <= fadd d (tt input j FINISH_IDX))%Q).
Proof.
  split; [| split; [| split]].
  - intros t i Hlt. unfold can_reach_finish.
    destruct (Qgtb _ _); [reflexivity |].
    rewrite slot_index_below by assumption. reflexivity.
  - intros c a Hlt HM Hopen.
    rewrite (find_next_open_time_first input c a 0).
    + unfold fmax. destruct (Qgtb a (of_int (slot_start input 0))) eqn:E; [| reflexivity].
      qprop. lra.
    + rewrite slot_index_below by assumption. lia.
    + assumption.
    + rewrite slot_index_below by assumption. intros; lia.
  - vm_compute. repeat split; reflexivity.
  - intros Hv t prev j d Hj Hvisit.
    destruct (visit_bounds input t prev j d Hv Hvisit) as (_ & Hge & _).
    split; [assumption |].
    destruct (valid_input_spec input Hv) as (_ & _ & _ & _ & _ & Htt & _).
    apply fadd_ge; [apply of_int_float | assumption |].
    apply Htt; [assumption | unfold FINISH_IDX, ALL_NODES; lia].
Qed.

(** C10, as worded: on [early_input], leaving checkpoint 0 at 560 the exact
    arrival at Finish, 560 + 40 - 2^-18, is before the first slot start 600,
    but the binary32 sum is 600 and [can_reach_finish] accepts. *)
Lemma early_arrival_refused_fails :
  valid_input early_input = true /\
  ((560 # 1) + tt early_input 0 FINISH_IDX < inject_Z (slot_start early_input 0))%Q /\
  fadd (560 # 1) (tt early_input 0 FINISH_IDX) = 600 # 1 /\
  can_reach_finish (560 # 1) 0 early_input = true /\
  ~ early_arrival_refused early_input.
Proof.
  assert (Hlt : ((560 # 1) + tt early_input 0 FINISH_IDX
                 < inject_Z (slot_start early_input 0))%Q) by (vm_compute; reflexivity).
  assert (Hc : can_reach_finish (560 # 1) 0 early_input = true) by (vm_compute; reflexivity).
  split; [vm_compute; reflexivity |]. split; [assumption |].
  split; [vm_compute; reflexivity |]. split; [assumption |].
  intros H. rewrite (H (560 # 1) 0 Hlt) in Hc. discriminate.
Qed.

(** ** Whole-minute inputs: the binary32 sums are exact *)

Lemma is_Some_intro {A} (x : option A) (y : A) : x = Some y -> is_Some x.
Proof. intros ->. exists y. reflexivity. Qed.

Lemma to_int_comp p q : (p == q)%Q -> to_int p = to_int q.
Proof.
  intros E.
  assert (Hq : Z.quot (Qnum p) (Z.pos (Qden p)) = Z.quot (Qnum q) (Z.pos (Qden q))).
  { destruct (Z_le_gt_dec 0 (Qnum p)) as [Hp | Hp].
    - assert (Hq' : 0 <= Qnum q) by (unfold Qeq in E; nia).
      rewrite !Z.quot_div_nonneg by lia.
      pose proof (Qfloor_comp p q E) as F. destruct p, q. exact F.
    - assert (Hq' : Qnum q < 0) by (unfold Qeq in E; nia).
      rewrite <- (Z.opp_involutive (Qnum p)), <- (Z.opp_involutive (Qnum q)).
      rewrite (Z.quot_opp_l (- Qnum p)), (Z.quot_opp_l (- Qnum q)) by lia. f_equal.
      rewrite !Z.quot_div_nonneg by lia.
      assert (F : Qfloor (- p) = Qfloor (- q)) by (apply Qfloor_comp; rewrite E; reflexivity).
      destruct p, q. exact F. }
  unfold to_int. rewrite Hq. reflexivity.
Qed.

Lemma Qltb_comp x x' y y' : (x == x')%Q -> (y == y')%Q -> Qltb x y = Qltb x' y'.
Proof. intros Ex Ey. unfold Qltb. rewrite (Qleb_comp y y' Ey x x' Ex). reflexivity. Qed.

Lemma slot_index_comp input t t' :
  (t == t')%Q -> arrival_to_slot_index t input = arrival_to_slot_index t' input.
Proof.
  intros E. unfold arrival_to_slot_index.
  rewrite (Qltb_comp t t' _ _ E (Qeq_refl _)), (to_int_comp t t' E). reflexivity.
Qed.

Lemma fmax_comp a a' b b' : (a == a')%Q -> (b == b')%Q -> (fmax a b == fmax a' b')%Q.
Proof.
  intros Ea Eb. unfold fmax, Qgtb. rewrite (Qltb_comp b b' a a' Eb Ea).
  destruct (Qltb b' a'); assumption.
Qed.

Lemma fmax_inject m n : fmax (inject_Z m) (inject_Z n) = inject_Z (Z.max m n).
Proof.
  unfold fmax. destruct (Qgtb (inject_Z m) (inject_Z n)) eqn:E.
  - apply Qgtb_true in E. rewrite <- Zlt_Qlt in E. rewrite Z.max_l by lia. reflexivity.
  - apply Qgtb_false in E. rewrite <- Zle_Qle in E. rewrite Z.max_r by lia. reflexivity.
Qed.

(** The slot the oracle finds, shared by equal arrival times. *)
Lemma find_next_open_time_comp input c t t' :
  (t == t')%Q ->
  (find_next_open_time c t input = (-1)%Q /\ find_next_open_time c t' input = (-1)%Q) \/
  exists s,
    0 <= s < n_slots input /\
    find_next_open_time c t input = fmax t (of_int (slot_start input s)) /\
    find_next_open_time c t' input = fmax t' (of_int (slot_start input s)).
Proof.
  intros E. unfold find_next_open_time. rewrite <- (slot_index_comp input t t' E).
  rewrite clamp_slot.
  pose proof (find_seqZ_spec (fun s => is_open input c s)
                (Z.max 0 (arrival_to_slot_index t input))
                (n_slots input - Z.max 0 (arrival_to_slot_index t input))) as H.
  destruct (find _ _) as [s |]; [| left; split; reflexivity].
  right. exists s. destruct H as (Hr & _). split; [lia |]. split; reflexivity.
Qed.

Lemma finish_slot_comp input t t' :
  (t == t')%Q ->
  find (fun s => fin_open input s)
       (seqZ (arrival_to_slot_index t input) (n_slots input - arrival_to_slot_index t input))
  = find (fun s => fin_open input s)
       (seqZ (arrival_to_slot_index t' input) (n_slots input - arrival_to_slot_index t' input)).
Proof. intros E. rewrite (slot_index_comp input t t' E). reflexivity. Qed.

Lemma fadd_whole x y k a :
  (x == inject_Z k)%Q -> (y == inject_Z a)%Q -> Z.abs (k + a) <= TIME_MAX ->
  fadd x y = inject_Z (k + a).
Proof.
  intros Hx Hy Hb. unfold fadd.
  rewrite (round32_comp (x + y) (inject_Z (k + a))); [apply round32_Z; assumption |].
  rewrite inject_Z_plus, Hx, Hy. reflexivity.
Qed.

Lemma fadd_large x y k a :
  (x == inject_Z k)%Q -> (y == inject_Z a)%Q -> TIME_MAX <= k + a ->
  (inject_Z TIME_MAX <= fadd x y)%Q.
Proof.
  intros Hx Hy Hb. rewrite <- (round32_Z TIME_MAX) by (unfold TIME_MAX; lia).
  unfold fadd. apply round32_le. rewrite Hx, Hy, <- inject_Z_plus, <- Zle_Qle. assumption.
Qed.

Section Whole.

Variable input : SolverInput.
Hypothesis Hv : valid_input input = true.
Hypothesis Hw : whole_minutes input = true.

Lemma tt_whole u v :
  0 <= u < ALL_NODES -> 0 <= v < ALL_NODES ->
  exists a, 0 <= a /\ (tt input u v == inject_Z a)%Q.
Proof.
  intros Hu Hv'. destruct (valid_input_spec input Hv) as (_ & _ & _ & _ & _ & Htt & _).
  unfold whole_minutes, nodes in Hw. rewrite forallb_seqZ in Hw.
  specialize (Hw u ltac:(lia)). rewrite forallb_seqZ in Hw. specialize (Hw v ltac:(lia)).
  apply Qeq_bool_iff in Hw. exists (Qfloor (tt input u v)). split.
  - change 0 with (Qfloor 0). apply Qfloor_resp_le. apply Htt; assumption.
  - symmetry. assumption.
Qed.

Lemma end_time_strict : (of_int (end_time input) < inject_Z TIME_MAX)%Q.
Proof.
  destruct (valid_input_bounds input Hv) as (_ & _ & _ & He & _).
  apply Qle_lt_trans with (of_int (TIME_MAX - 1)); [apply of_int_le; lia |].
  vm_compute. reflexivity.
Qed.

(** With [end_time] not negative it is a binary32 number. *)
Lemma end_time_exact :
  (0 <= of_int (end_time input))%Q -> of_int (end_time input) = inject_Z (end_time input).
Proof.
  intros H0. destruct (valid_input_bounds input Hv) as (_ & _ & _ & He & _).
  apply of_int_exact.
  destruct (Z_lt_le_dec (end_time input) 0) as [Hneg | Hpos]; [| lia].
  exfalso. pose proof (of_int_le (end_time input) (-1) ltac:(lia)) as Hle.
  change (of_int (-1)) with (-1)%Q in Hle. lra.
Qed.

Lemma dwell_exact : of_int (dwell input) = inject_Z (dwell input) /\ 0 <= dwell input.
Proof.
  destruct (valid_input_spec input Hv) as (_ & _ & _ & _ & _ & _ & Hd & _).
  destruct (valid_input_bounds input Hv) as (_ & Hd' & _).
  split; [apply of_int_exact; lia | assumption].
Qed.

Lemma start_time_exact :
  of_int (start_time input) = inject_Z (start_time input) /\ 0 <= start_time input.
Proof.
  destruct (valid_input_bounds input Hv) as (_ & _ & Hs & _).
  split; [apply of_int_exact; lia | lia].
Qed.

(** One visit in binary32, from a whole minute: every sum is exact, and the
    real-valued visit gives the same departure. *)
Lemma visit_to_real t tr k prev j d :
  0 <= k -> (t == inject_Z k)%Q -> (tr == inject_Z k)%Q ->
  0 <= prev < ALL_NODES -> 0 <= j < ALL_NODES ->
  visit input t prev j = Some d ->
  exists kd dr,
    0 <= kd /\ d = inject_Z kd /\
    real_visit input tr prev j = Some dr /\ (dr == inject_Z kd)%Q /\
    (t + tt input prev j <= d)%Q.
Proof.
  intros Hk Ht Htr Hprev Hj Hvisit.
  destruct (tt_whole prev j Hprev Hj) as (a & Ha & Hta).
  destruct dwell_exact as [Hdw Hdw0].
  destruct (visit_bounds input t prev j d Hv Hvisit) as (Harr & _ & Hend & _).
  pose proof end_time_strict as Hes.
  destruct (Z_lt_le_dec (k + a) TIME_MAX) as [Hsmall | Hlarge];
    [| pose proof (fadd_large t (tt input prev j) k a Ht Hta Hlarge); lra].
  assert (Ef : fadd t (tt input prev j) = inject_Z (k + a))
    by (apply fadd_whole; [assumption | assumption | lia]).
  assert (Er : (tr + tt input prev j == inject_Z (k + a))%Q)
    by (rewrite inject_Z_plus, Htr, Hta; reflexivity).
  unfold visit in Hvisit. rewrite Ef in Hvisit, Harr.
  destruct (find_next_open_time_comp input j (inject_Z (k + a)) (tr + tt input prev j))
    as [[Hn _] | (s & Hs & Hof & Hor)]; [symmetry; assumption | |].
  { rewrite Hn in Hvisit. vm_compute in Hvisit. discriminate. }
  rewrite (slot_start_exact input Hv s Hs) in Hof, Hor.
  rewrite fmax_inject in Hof. rewrite Hof in Hvisit.
  destruct (valid_input_bounds input Hv) as (_ & _ & _ & _ & Hss). specialize (Hss s Hs).
  set (o := Z.max (k + a) (slot_start input s)) in *.
  destruct (Qltb (inject_Z o) 0); [discriminate |].
  destruct (Qgtb _ _) eqn:Hdep; [discriminate |]. injection Hvisit as Hd.
  destruct (Z_lt_le_dec (o + dwell input) TIME_MAX) as [Hs2 | Hl2].
  2:{ pose proof (fadd_large (inject_Z o) (of_int (dwell input)) o (dwell input)
                    (Qeq_refl _) ltac:(rewrite Hdw; reflexivity) Hl2).
      rewrite Hd in *. lra. }
  assert (Ed : fadd (inject_Z o) (of_int (dwell input)) = inject_Z (o + dwell input)).
  { apply fadd_whole; [reflexivity | rewrite Hdw; reflexivity | lia]. }
  rewrite Ed in Hd. subst d.
  assert (He0 : (0 <= of_int (end_time input))%Q).
  { eapply Qle_trans; [| exact Hend]. change 0%Q with (inject_Z 0).
    rewrite <- Zle_Qle. lia. }
  rewrite (end_time_exact He0) in Hend. rewrite <- Zle_Qle in Hend.
  exists (o + dwell input), (find_next_open_time j (tr + tt input prev j) input
                             + inject_Z (dwell input))%Q.
  assert (Eo : (find_next_open_time j (tr + tt input prev j) input == inject_Z o)%Q).
  { rewrite Hor. unfold o. rewrite <- fmax_inject. apply fmax_comp; [assumption | reflexivity]. }
  split; [lia |]. split; [reflexivity |]. split; [| split].
  - unfold real_visit.
    rewrite (Qltb_comp _ (inject_Z o) 0 0 Eo (Qeq_refl _)).
    destruct (Qltb (inject_Z o) 0) eqn:E0.
    { apply Qltb_true in E0. change 0%Q with (inject_Z 0) in E0.
      rewrite <- Zlt_Qlt in E0. lia. }
    destruct (Qgtb _ (inject_Z (end_time input))) eqn:E1; [| reflexivity].
    apply Qgtb_true in E1. rewrite Eo, <- inject_Z_plus, <- Zlt_Qlt in E1. lia.
  - rewrite Eo, <- inject_Z_plus. reflexivity.
  - rewrite Ht, Hta, <- inject_Z_plus, <- Zle_Qle. lia.
Qed.

(** Conversely a real-valued visit from a whole minute is computed exactly
    in binary32. *)
Lemma real_to_visit t tr k prev j dr :
  0 <= k -> (t == inject_Z k)%Q -> (tr == inject_Z k)%Q ->
  0 <= prev < ALL_NODES -> 0 <= j < ALL_NODES ->
  real_visit input tr prev j = Some dr ->
  exists kd, 0 <= kd /\ (dr == inject_Z kd)%Q /\ visit input t prev j = Some (inject_Z kd).
Proof.
  intros Hk Ht Htr Hprev Hj Hvisit.
  destruct (tt_whole prev j Hprev Hj) as (a & Ha & Hta).
  destruct dwell_exact as [Hdw Hdw0].
  destruct (valid_input_bounds input Hv) as (_ & _ & _ & Hemax & Hss).
  assert (Er : (tr + tt input prev j == inject_Z (k + a))%Q)
    by (rewrite inject_Z_plus, Htr, Hta; reflexivity).
  unfold real_visit in Hvisit.
  destruct (find_next_open_time_comp input j (tr + tt input prev j) (inject_Z (k + a)) Er)
    as [[Hn _] | (s & Hs & Hor & Hof)].
  { rewrite Hn in Hvisit. vm_compute in Hvisit. discriminate. }
  specialize (Hss s Hs).
  rewrite (slot_start_exact input Hv s Hs) in Hof, Hor.
  rewrite fmax_inject in Hof.
  set (o := Z.max (k + a) (slot_start input s)) in *.
  assert (Eo : (find_next_open_time j (tr + tt input prev j) input == inject_Z o)%Q).
  { rewrite Hor. unfold o. rewrite <- fmax_inject. apply fmax_comp; [assumption | reflexivity]. }
  destruct (Qltb _ 0); [discriminate |].
  destruct (Qgtb _ _) eqn:Hdep; [discriminate |]. injection Hvisit as <-.
  apply Qgtb_false in Hdep. rewrite Eo, <- inject_Z_plus, <- Zle_Qle in Hdep.
  exists (o + dwell input). split; [lia |]. split.
  { rewrite Eo, <- inject_Z_plus. reflexivity. }
  assert (Ef : fadd t (tt input prev j) = inject_Z (k + a))
    by (apply fadd_whole; [assumption | assumption | lia]).
  assert (Ed : fadd (inject_Z o) (of_int (dwell input)) = inject_Z (o + dwell input)).
  { apply fadd_whole; [reflexivity | rewrite Hdw; reflexivity | lia]. }
  assert (Ee : of_int (end_time input) = inject_Z (end_time input))
    by (apply of_int_exact; lia).
  unfold visit. rewrite Ef, Hof, Ed, Ee.
  destruct (Qltb (inject_Z o) 0) eqn:E0.
  { apply Qltb_true in E0. change 0%Q with (inject_Z 0) in E0.
    rewrite <- Zlt_Qlt in E0. lia. }
  destruct (Qgtb _ _) eqn:E1; [| reflexivity].
  apply Qgtb_true in E1. rewrite <- Zlt_Qlt in E1. lia.
Qed.

(** The Finish minute in binary32, leaving at a whole minute, is the
    real-valued one. *)
Lemma finish_to_real t tr k i af :
  0 <= k -> (t == inject_Z k)%Q -> (tr == inject_Z k)%Q -> 0 <= i < ALL_NODES ->
  actual_finish input t i = Some af ->
  exists afr, real_finish input tr i = Some afr /\ (afr == af)%Q.
Proof.
  intros Hk Ht Htr Hi Haf.
  destruct (tt_whole i FINISH_IDX Hi ltac:(unfold FINISH_IDX, ALL_NODES; lia))
    as (b & Hb & Htb).
  destruct (valid_input_spec input Hv) as (_ & HM & _).
  pose proof end_time_strict as Hes.
  destruct (actual_finish_found input t i af Haf) as (Hfa & _).
  destruct (Z_lt_le_dec (k + b) TIME_MAX) as [Hsmall | Hlarge];
    [| pose proof (fadd_large t (tt input i FINISH_IDX) k b Ht Htb Hlarge); lra].
  assert (Ef : fadd t (tt input i FINISH_IDX) = inject_Z (k + b))
    by (apply fadd_whole; [assumption | assumption | lia]).
  assert (Er : (tr + tt input i FINISH_IDX == inject_Z (k + b))%Q)
    by (rewrite inject_Z_plus, Htr, Htb; reflexivity).
  rewrite Ef in Hfa.
  assert (He0 : (0 <= of_int (end_time input))%Q).
  { eapply Qle_trans; [| exact Hfa]. change 0%Q with (inject_Z 0).
    rewrite <- Zle_Qle. lia. }
  pose proof (end_time_exact He0) as Ee.
  unfold actual_finish in Haf. rewrite Ef, Ee in Haf.
  unfold real_finish.
  rewrite (Qltb_comp _ _ _ _ (Qeq_refl (inject_Z (end_time input))) Er : 
             Qgtb (tr + tt input i FINISH_IDX) (inject_Z (end_time input))
             = Qgtb (inject_Z (k + b)) (inject_Z (end_time input))).
  rewrite (slot_index_comp input _ _ Er).
  destruct (Qgtb (inject_Z (k + b)) (inject_Z (end_time input))); [discriminate |].
  destruct (Z.ltb_spec (arrival_to_slot_index (inject_Z (k + b)) input) 0); [discriminate |].
  pose proof (find_seqZ_spec (fun s => fin_open input s)
                (arrival_to_slot_index (inject_Z (k + b)) input)
                (n_slots input - arrival_to_slot_index (inject_Z (k + b)) input)) as Hf.
  destruct (find _ _) as [s |]; [| vm_compute in Haf; discriminate].
  destruct Hf as (Hs & _).
  rewrite (slot_start_exact input Hv s ltac:(lia)) in Haf.
  assert (Em : (fmax (tr + tt input i FINISH_IDX) (inject_Z (slot_start input s))
                == fmax (inject_Z (k + b)) (inject_Z (slot_start input s)))%Q)
    by (apply fmax_comp; [assumption | reflexivity]).
  rewrite (Qltb_comp _ _ _ _ (Qeq_refl (inject_Z (end_time input))) Em :
             Qgtb (fmax (tr + tt input i FINISH_IDX) (inject_Z (slot_start input s)))
                  (inject_Z (end_time input))
             = Qgtb (fmax (inject_Z (k + b)) (inject_Z (slot_start input s)))
                    (inject_Z (end_time input))).
  destruct (_ || _) eqn:E2; [discriminate |]. injection Haf as <-.
  apply orb_false_iff in E2. destruct E2 as [_ E2]. rewrite E2.
  eexists. split; [reflexivity | assumption].
Qed.

Lemma real_to_finish t tr k i afr :
  0 <= k -> (t == inject_Z k)%Q -> (tr == inject_Z k)%Q -> 0 <= i < ALL_NODES ->
  real_finish input tr i = Some afr ->
  exists af, actual_finish input t i = Some af /\ (af == afr)%Q.
Proof.
  intros Hk Ht Htr Hi Haf.
  destruct (tt_whole i FINISH_IDX Hi ltac:(unfold FINISH_IDX, ALL_NODES; lia))
    as (b & Hb & Htb).
  destruct (valid_input_spec input Hv) as (_ & HM & _).
  destruct (valid_input_bounds input Hv) as (_ & _ & _ & Hemax & Hss).
  assert (Er : (tr + tt input i FINISH_IDX == inject_Z (k + b))%Q)
    by (rewrite inject_Z_plus, Htr, Htb; reflexivity).
  unfold real_finish in Haf.
  rewrite (Qltb_comp _ _ _ _ (Qeq_refl (inject_Z (end_time input))) Er : 
             Qgtb (tr + tt input i FINISH_IDX) (inject_Z (end_time input))
             = Qgtb (inject_Z (k + b)) (inject_Z (end_time input))) in Haf.
  rewrite (slot_index_comp input _ _ Er) in Haf.
  destruct (Qgtb (inject_Z (k + b)) (inject_Z (end_time input))) eqn:E1; [discriminate |].
  pose proof E1 as E1'. apply Qgtb_false in E1'. rewrite <- Zle_Qle in E1'.
  assert (Ef : fadd t (tt input i FINISH_IDX) = inject_Z (k + b))
    by (apply fadd_whole; [assumption | assumption | lia]).
  assert (Ee : of_int (end_time input) = inject_Z (end_time input))
    by (apply of_int_exact; lia).
  unfold actual_finish. rewrite Ef, Ee, E1.
  destruct (Z.ltb_spec (arrival_to_slot_index (inject_Z (k + b)) input) 0); [discriminate |].
  pose proof (find_seqZ_spec (fun s => fin_open input s)
                (arrival_to_slot_index (inject_Z (k + b)) input)
                (n_slots input - arrival_to_slot_index (inject_Z (k + b)) input)) as Hf.
  destruct (find _ _) as [s |]; [| discriminate].
  destruct Hf as (Hs & _).
  rewrite (slot_start_exact input Hv s ltac:(lia)).
  assert (Em : (fmax (tr + tt input i FINISH_IDX) (inject_Z (slot_start input s))
                == fmax (inject_Z (k + b)) (inject_Z (slot_start input s)))%Q)
    by (apply fmax_comp; [assumption | reflexivity]).
  rewrite (Qltb_comp _ _ _ _ (Qeq_refl (inject_Z (end_time input))) Em :
             Qgtb (fmax (tr + tt input i FINISH_IDX) (inject_Z (slot_start input s)))
                  (inject_Z (end_time input))
             = Qgtb (fmax (inject_Z (k + b)) (inject_Z (slot_start input s)))
                    (inject_Z (end_time input))) in Haf.
  destruct (Qgtb (fmax (inject_Z (k + b)) (inject_Z (slot_start input s))) _) eqn:E2;
    [discriminate |].
  injection Haf as <-.
  assert (E0 : Qltb (fmax (inject_Z (k + b)) (inject_Z (slot_start input s))) 0 = false).
  { apply Qltb_false. rewrite fmax_inject. change 0%Q with (inject_Z 0).
    rewrite <- Zle_Qle. lia. }
  rewrite E0. simpl. eexists. split; [reflexivity |]. symmetry. assumption.
Qed.

Lemma real_route_depart_snoc r j :
  real_route_depart input (r ++ [j]) = real_step input (real_route_depart input r) j.
Proof. unfold real_route_depart. rewrite fold_left_app. reflexivity. Qed.

Lemma real_step_Some acc j d i :
  real_step input acc j = Some (d, i) ->
  exists t prev, acc = Some (t, prev) /\ real_visit input t prev j = Some d /\ i = j.
Proof.
  unfold real_step. destruct acc as [[t prev] |]; [| discriminate].
  destruct (real_visit input t prev j) as [d' |] eqn:E; [| discriminate].
  intros H. injection H as <- <-. exists t, prev. auto.
Qed.

(** A route walked in binary32 is walked with the same whole-minute
    departures in real-valued time. *)
Lemma route_depart_real r :
  route_wf (n_checkpoints input) r ->
  forall d i, route_depart input r = Some (d, i) ->
  exists k dr,
    0 <= k /\ d = inject_Z k /\ 0 <= i < ALL_NODES /\
    real_route_depart input r = Some (dr, i) /\ (dr == inject_Z k)%Q.
Proof.
  destruct (valid_input_spec input Hv) as (HN & _).
  destruct start_time_exact as [Hst Hst0].
  induction r as [| j r IH] using rev_ind; intros Hwf d i Hdep.
  - unfold route_depart in Hdep. simpl in Hdep. injection Hdep as <- <-.
    exists (start_time input), (inject_Z (start_time input)).
    split; [assumption |]. split; [assumption |].
    split; [unfold START_IDX, ALL_NODES; lia |]. split; reflexivity.
  - apply route_wf_snoc in Hwf. destruct Hwf as (Hwf & _ & Hj).
    rewrite route_depart_snoc in Hdep. apply plain_step_Some in Hdep.
    destruct Hdep as (t & prev & Hdep' & Hvisit & ->).
    destruct (IH Hwf t prev Hdep') as (k & tr & Hk & -> & Hprev & Hreal & Htr).
    assert (Hj' : 0 <= j < ALL_NODES) by (unfold MAX_CP, ALL_NODES in *; lia).
    destruct (visit_to_real (inject_Z k) tr k prev j d Hk (Qeq_refl _) Htr Hprev Hj' Hvisit)
      as (kd & dr & Hkd & -> & Hrv & Hdr & _).
    exists kd, dr. split; [assumption |]. split; [reflexivity |]. split; [assumption |].
    rewrite real_route_depart_snoc, Hreal. simpl. rewrite Hrv. split; [reflexivity | assumption].
Qed.

Lemma real_route_depart_float r :
  route_wf (n_checkpoints input) r ->
  forall dr i, real_route_depart input r = Some (dr, i) ->
  exists k,
    0 <= k /\ (dr == inject_Z k)%Q /\ 0 <= i < ALL_NODES /\
    route_depart input r = Some (inject_Z k, i).
Proof.
  destruct (valid_input_spec input Hv) as (HN & _).
  destruct start_time_exact as [Hst Hst0].
  induction r as [| j r IH] using rev_ind; intros Hwf dr i Hdep.
  - unfold real_route_depart in Hdep. simpl in Hdep. injection Hdep as <- <-.
    exists (start_time input).
    split; [assumption |]. split; [reflexivity |].
    split; [unfold START_IDX, ALL_NODES; lia |].
    unfold route_depart. simpl. rewrite Hst. reflexivity.
  - apply route_wf_snoc in Hwf. destruct Hwf as (Hwf & _ & Hj).
    rewrite real_route_depart_snoc in Hdep. apply real_step_Some in Hdep.
    destruct Hdep as (tr & prev & Hdep' & Hvisit & ->).
    destruct (IH Hwf tr prev Hdep') as (k & Htr & Hk & Hprev & Hfl).
    assert (Hj' : 0 <= j < ALL_NODES) by (unfold MAX_CP, ALL_NODES in *; lia).
    destruct (real_to_visit (inject_Z k) tr k prev j dr Htr (Qeq_refl _) Hk Hprev Hj' Hvisit)
      as (kd & Hkd & Hdr & Hfv).
    exists kd. split; [assumption |]. split; [assumption |]. split; [assumption |].
    rewrite route_depart_snoc, Hfl. simpl. rewrite Hfv. reflexivity.
Qed.

(** On whole-minute inputs the two notions of a route's Finish minute
    agree. *)
Lemma route_finish_real r f :
  route_wf (n_checkpoints input) r -> route_finish input r = Some f ->
  exists fr, real_route_finish input r = Some fr /\ (fr == f)%Q.
Proof.
  intros Hwf Hf. unfold route_finish in Hf.
  destruct (route_depart input r) as [[d i] |] eqn:Hdep; [| discriminate].
  destruct (route_depart_real r Hwf d i Hdep) as (k & dr & Hk & -> & Hi & Hreal & Hdr).
  unfold real_route_finish. rewrite Hreal.
  apply (finish_to_real (inject_Z k) dr k i f Hk (Qeq_refl _) Hdr Hi Hf).
Qed.

Lemma real_route_finish_float r fr :
  route_wf (n_checkpoints input) r -> real_route_finish input r = Some fr ->
  exists f, route_finish input r = Some f /\ (f == fr)%Q.
Proof.
  intros Hwf Hf. unfold real_route_finish in Hf.
  destruct (real_route_depart input r) as [[dr i] |] eqn:Hdep; [| discriminate].
  destruct (real_route_depart_float r Hwf dr i Hdep) as (k & Hk & Hdr & Hi & Hfl).
  unfold route_finish. rewrite Hfl.
  apply (real_to_finish (inject_Z k) dr k i fr Hk (Qeq_refl _) Hdr Hi Hf).
Qed.

Lemma feasible_iff_real r : feasible input r <-> real_feasible input r.
Proof.
  split; intros (Hne & Hwf & [f Hf]); (split; [assumption |]; split; [assumption |]).
  - destruct (route_finish_real r f Hwf Hf) as (fr & Hfr & _).
    apply (is_Some_intro _ _ Hfr).
  - destruct (real_route_finish_float r f Hwf Hf) as (f' & Hf' & _).
    apply (is_Some_intro _ _ Hf').
Qed.

Lemma triangle_to_finish_spec i j :
  triangle_to_finish input = true ->
  0 <= i < n_checkpoints input -> 0 <= j < n_checkpoints input ->
  (tt input i FINISH_IDX <= tt input i j + tt input j FINISH_IDX)%Q.
Proof.
  unfold triangle_to_finish. intros H Hi Hj. rewrite forallb_seqZ in H.
  specialize (H i ltac:(lia)). rewrite forallb_seqZ in H.
  apply Qle_bool_iff. apply H. lia.
Qed.

Lemma actual_finish_can_reach d i af :
  actual_finish input d i = Some af -> can_reach_finish d i input = true.
Proof.
  intros Haf.
  destruct (actual_finish_found input d i af Haf) as (Hfa & s & Hs & HsM & Hos & -> & Hend).
  unfold can_reach_finish.
  destruct (Qgtb _ _) eqn:E; [qprop; lra |].
  destruct (Z.ltb_spec (arrival_to_slot_index (fadd d (tt input i FINISH_IDX)) input) 0); [lia |].
  rewrite Z.geb_leb.
  destruct (Z.leb_spec (n_slots input)
              (arrival_to_slot_index (fadd d (tt input i FINISH_IDX)) input)); [lia |].
  simpl. apply existsb_exists. exists s. split; [apply In_seqZ; lia |].
  apply andb_true_intro. split; [assumption |]. apply Qle_bool_iff. assumption.
Qed.

(** Reaching Finish earlier (from any checkpoint) is never worse. *)
Lemma can_reach_finish_earlier d i d' i' :
  on_the_hour input = true ->
  (fadd d' (tt input i' FINISH_IDX) <= fadd d (tt input i FINISH_IDX))%Q ->
  (of_int (slot_start input 0) <= fadd d' (tt input i' FINISH_IDX))%Q ->
  can_reach_finish d i input = true -> can_reach_finish d' i' input = true.
Proof.
  intros Hh Hle Hge Hc.
  destruct (can_reach_finish_true input d i Hc) as (Hfa & s & Hs & HsM & Hos & Hwait).
  pose proof (below_end_fits input Hv _ Hfa) as Hfit.
  unfold can_reach_finish.
  destruct (Qgtb _ _) eqn:E; [qprop; lra |].
  pose proof (slot_index_range input Hv _ Hh Hge ltac:(lra)) as Hrange.
  destruct (Z.ltb_spec (arrival_to_slot_index (fadd d' (tt input i' FINISH_IDX)) input) 0); [lia |].
  rewrite Z.geb_leb.
  destruct (Z.leb_spec (n_slots input)
              (arrival_to_slot_index (fadd d' (tt input i' FINISH_IDX)) input)); [lia |].
  simpl. apply existsb_exists. exists s. split.
  - apply In_seqZ. pose proof (clamp_mono input Hv _ _ Hle Hfit). lia.
  - apply andb_true_intro. split; [assumption |]. apply Qle_bool_iff.
    eapply Qle_trans; [| apply Hwait]. apply fmax_mono; [assumption | apply Qle_refl].
Qed.

Lemma route_depart_nonempty r d i :
  r <> [] -> route_depart input r = Some (d, i) -> In i r.
Proof.
  intros Hne H. destruct r as [| j r _] using rev_ind; [contradiction |].
  rewrite route_depart_snoc in H. apply plain_step_Some in H.
  destruct H as (_ & _ & _ & _ & ->). apply in_or_app. right. left. reflexivity.
Qed.

(** With whole-minute travel times and the triangle inequality toward
    Finish, a route whose last checkpoint can reach Finish passes the check
    at every checkpoint. *)
Lemma route_depart_checked r :
  on_the_hour input = true -> triangle_to_finish input = true ->
  route_wf (n_checkpoints input) r -> r <> [] ->
  forall d i, route_depart input r = Some (d, i) ->
  can_reach_finish d i input = true -> route_ok input r = Some (d, i).
Proof.
  intros Hh Htri.
  destruct (valid_input_spec input Hv) as (HN & _ & _ & _ & _ & Htt & _).
  induction r as [| k r IH] using rev_ind; intros Hwf Hne d i Hdep Hcrf; [contradiction |].
  apply route_wf_snoc in Hwf. destruct Hwf as (Hwf & Hnin & Hk).
  rewrite route_depart_snoc in Hdep. apply plain_step_Some in Hdep.
  destruct Hdep as (t & prev & Hdep' & Hvisit & ->).
  rewrite route_ok_snoc.
  destruct r as [| c r'].
  - unfold route_depart in Hdep'. simpl in Hdep'. injection Hdep' as <- <-.
    unfold route_ok. simpl. rewrite Hvisit, Hcrf. reflexivity.
  - assert (Hprev : 0 <= prev < n_checkpoints input).
    { apply (route_wf_In _ (c :: r')); [assumption |].
      apply (route_depart_nonempty (c :: r') t prev); [discriminate | assumption]. }
    destruct (route_depart_real (c :: r') Hwf t prev Hdep')
      as (kt & tr & Hkt & Et & Hprev' & _ & _).
    assert (Hk' : 0 <= k < ALL_NODES) by (unfold MAX_CP, ALL_NODES in *; lia).
    destruct (visit_to_real t t kt prev k d Hkt ltac:(rewrite Et; reflexivity)
                ltac:(rewrite Et; reflexivity) Hprev' Hk' Hvisit)
      as (kd & _ & _ & _ & _ & _ & Hexact).
    assert (Ht : (of_int (slot_start input 0) <= t)%Q).
    { destruct (c :: r') as [| k0 r0 _] eqn:E using rev_ind; [discriminate |].
      rewrite route_depart_snoc in Hdep'. apply plain_step_Some in Hdep'.
      destruct Hdep' as (t0 & prev0 & _ & Hv0 & _).
      apply (visit_bounds input t0 prev0 k0 t Hv Hv0). }
    pose proof (triangle_to_finish_spec prev k Htri Hprev Hk) as Htr.
    pose proof (Htt prev FINISH_IDX Hprev' ltac:(unfold FINISH_IDX, ALL_NODES; lia)) as Hnn.
    assert (Hc' : can_reach_finish t prev input = true).
    { apply (can_reach_finish_earlier d k t prev Hh); [| | assumption].
      - unfold fadd. apply round32_le. lra.
      - apply fadd_ge; [apply of_int_float | assumption | assumption]. }
    rewrite (IH Hwf ltac:(discriminate) t prev Hdep' Hc'). simpl.
    rewrite Hvisit, Hcrf. reflexivity.
Qed.

(** With whole-minute travel times and the triangle inequality toward
    Finish every feasible route, in the real-valued sense, is a checked
    route with the same Finish minute. *)
Lemma real_feasible_checked r fr :
  on_the_hour input = true -> triangle_to_finish input = true ->
  route_wf (n_checkpoints input) r -> r <> [] ->
  real_route_finish input r = Some fr ->
  exists d i af,
    route_ok input r = Some (d, i) /\ actual_finish input d i = Some af /\
    route_finish input r = Some af /\ (af == fr)%Q.
Proof.
  intros Hh Htri Hwf Hne Hfr.
  destruct (real_route_finish_float r fr Hwf Hfr) as (af & Hf & Haf).
  pose proof Hf as Hf'. unfold route_finish in Hf.
  destruct (route_depart input r) as [[d i] |] eqn:Hdep; [| discriminate].
  exists d, i, af. split; [| split; [assumption | split; assumption]].
  apply route_depart_checked; try assumption.
  apply (actual_finish_can_reach d i af). assumption.
Qed.

End Whole.
(** ** What the dp table records *)

(** C5 (as amended): every write to the dp table, in the initialisation
    loop and in the transition loop, stores a departure that is not after
    [end_time] and from which [can_reach_finish] holds for the state's last
    checkpoint; hence after initialisation and after every round of the
    main loop each state holding a finite dp value can reach Finish as the
    solver computes it -- the binary32 sum [dp + T[i, Finish]] is not after
    [end_time] and some open Finish slot at or after that sum's slot lets
    it in by [end_time] -- and its dp value is not after [end_time].  When
    the travel times of a valid input are whole minutes the sums are exact
    and the invariant holds in real-valued time. *)
Theorem recorded_states_reach_finish (input : SolverInput) :
  (forall st j si,
     vget INF_TIME (dp (init_step input st j)) si <> vget INF_TIME (dp st) si ->
     Z.to_nat si = Z.to_nat (idx (n_checkpoints input) (Z.shiftl 1 j) j) /\
     can_reach_finish (vget INF_TIME (dp (init_step input st j)) si) j input = true /\
     (vget INF_TIME (dp (init_step input st j)) si <= of_int (end_time input))%Q) /\
  (forall pc mask i depart_i st j si,
     vget INF_TIME (dp (extend_step input pc mask i depart_i st j)) si
       <> vget INF_TIME (dp st) si ->
     Z.to_nat si = Z.to_nat (idx (n_checkpoints input) (Z.lor mask (Z.shiftl 1 j)) j) /\
     can_reach_finish (vget INF_TIME (dp (extend_step input pc mask i depart_i st j)) si)
                      j input = true /\
     (vget INF_TIME (dp (extend_step input pc mask i depart_i st j)) si
        <= of_int (end_time input))%Q) /\
  (forall (k : nat) (m i : Z),
     1 <= n_checkpoints input <= MAX_CP ->
     Z.of_nat k <= n_checkpoints input - 1 ->
     in_range (n_checkpoints input) m i ->
     let d := dp_at (n_checkpoints input) (dp_after input k) m i in
     (d < INF_TIME)%Q ->
     can_reach_finish d i input = true /\
     (d <= of_int (end_time input))%Q /\
     (fadd d (tt input i FINISH_IDX) <= of_int (end_time input))%Q /\
     exists s,
       0 <= arrival_to_slot_index (fadd d (tt input i FINISH_IDX)) input <= s /\
       s < n_slots input /\ fin_open input s = true /\
       (fmax (fadd d (tt input i FINISH_IDX)) (of_int (slot_start input s))
          <= of_int (end_time input))%Q) /\
  run_dp input = dp_after input (Z.to_nat (n_checkpoints input - 1)) /\
  (valid_input input = true -> whole_minutes input = true ->
   recorded_reach_finish input).
Proof.
  split; [apply init_step_writes |]. split; [apply extend_step_writes |].
  split; [| split].
  - intros k m i HN Hk Hmi d Hfin.
    destruct (dp_after_ok input HN k Hk) as [HI _].
    destruct (inv_sound _ _ HI m i Hmi Hfin) as (r & Hne & _ & _ & Hok).
    destruct (route_ok_nonempty input r _ _ Hne Hok) as (_ & Hc & Hd).
    split; [assumption |]. split; [assumption |].
    apply can_reach_finish_true. assumption.
  - unfold run_dp, dp_after.
    destruct (Z_le_gt_dec (n_checkpoints input - 1) 0) as [Hle | Hgt].
    + rewrite seqZ_nil by assumption.
      replace (Z.to_nat (n_checkpoints input - 1)) with O by lia. reflexivity.
    + rewrite Z2Nat.id by lia. reflexivity.
  - intros Hv Hw m i Hmi Hfin.
    destruct (valid_input_spec input Hv) as (HN & _).
    destruct (run_dp_ok input HN) as [HI _].
    destruct (inv_sound _ _ HI m i Hmi Hfin) as (r & Hne & Hwf & _ & Hok).
    destruct (route_ok_nonempty input r _ _ Hne Hok) as (_ & Hc & Hd).
    destruct (route_depart_real input Hv Hw r Hwf _ _ (route_ok_depart input r _ Hok))
      as (k & _ & Hk & Ek & Hi & _).
    destruct (can_reach_finish_actual input _ i Hv Hc) as (af & Haf).
    rewrite Ek in *.
    destruct (finish_to_real input Hv Hw (inject_Z k) (inject_Z k) k i af Hk
                (Qeq_refl _) (Qeq_refl _) Hi Haf) as (afr & Hafr & _).
    split; [apply (is_Some_intro _ _ Hafr) |].
    rewrite <- (end_time_exact input Hv); [assumption |].
    eapply Qle_trans; [| exact Hd]. change 0%Q with (inject_Z 0).
    rewrite <- Zle_Qle. assumption.
Qed.

Lemma recorded_states_reach_finish_witness :
  dp_at 2 (dp_after two_stop_input 1) 3 1 = 624 # 1 /\
  can_reach_finish (624 # 1) 1 two_stop_input = true.
Proof.
  split; [vm_compute; reflexivity |].
  destruct (recorded_states_reach_finish two_stop_input) as (_ & _ & H & _).
  apply (H 1%nat 3 1).
  - vm_compute. split; discriminate.
  - vm_compute. discriminate.
  - vm_compute. repeat split; discriminate.
  - vm_compute. reflexivity.
Defined.

(** C5, as worded: on [rounding_input] the state of checkpoint 0 is
    recorded with departure 612.  Its exact arrival at Finish,
    612 + 88.0000076..., is after [end_time = 700]; the binary32 sum the
    solver tests is 700. *)
Lemma recorded_reach_finish_fails :
  valid_input rounding_input = true /\
  dp_at 1 (run_dp rounding_input) 1 0 = 612 # 1 /\
  (inject_Z (end_time rounding_input) < (612 # 1) + tt rounding_input 0 FINISH_IDX)%Q /\
  fadd (612 # 1) (tt rounding_input 0 FINISH_IDX) = 700 # 1 /\
  real_finish rounding_input (612 # 1) 0 = None /\
  ~ recorded_reach_finish rounding_input.
Proof.
  split; [vm_compute; reflexivity |].
  split; [vm_compute; reflexivity |].
  split; [vm_compute; reflexivity |].
  split; [vm_compute; reflexivity |].
  split; [vm_compute; reflexivity |].
  intros H. destruct (H 1 0) as [[af Haf] _].
  - vm_compute. repeat split; discriminate.
  - vm_compute. reflexivity.
  - vm_compute in Haf. discriminate.
Qed.

(** ** Coverage first, earliest tie-break *)

(** C1 (as amended): for a valid input whose slots list every half hour
    from a full hour on, no route from which Finish is directly reachable
    ([can_reach_finish], in the solver's binary32 arithmetic) at the
    departure from every visited checkpoint visits more checkpoints than
    [count]; and when in addition the travel times are whole minutes and
    going to Finish directly is never slower than going through another
    checkpoint, no feasible route at all does. *)
Theorem count_maximal_checked (input : SolverInput) :
  valid_input input = true -> on_the_hour input = true ->
  (forall r d i,
     route_wf (n_checkpoints input) r -> route_ok input r = Some (d, i) ->
     exists res, solve input = Some res /\ Z.of_nat (length r) <= count res) /\
  (whole_minutes input = true -> triangle_to_finish input = true ->
   count_maximal input).
Proof.
  intros Hv Hh.
  destruct (valid_input_spec input Hv) as (HN & _).
  assert (Hchecked : forall r d i,
            route_wf (n_checkpoints input) r -> route_ok input r = Some (d, i) ->
            exists res, solve input = Some res /\ Z.of_nat (length r) <= count res).
  { intros r d i Hwf Hok. destruct r as [| c r].
    - destruct (solve_total input HN) as (res & Hs).
      exists res. split; [assumption |]. simpl. apply (solve_count_nonneg input); assumption.
    - destruct (route_ok_nonempty input (c :: r) d i ltac:(discriminate) Hok)
        as (_ & Hcrf & _).
      destruct (can_reach_finish_actual input d i Hv Hcrf) as (af & Haf).
      destruct (solve_dominates input (c :: r) d i af Hv Hh Hwf ltac:(discriminate) Hok Haf)
        as (res & Hs & Hle & _).
      exists res. split; assumption. }
  split; [exact Hchecked |].
  intros Hw Htri res r Hs (Hne & Hwf & [fr Hfr]).
  destruct (real_feasible_checked input Hv Hw r fr Hh Htri Hwf Hne Hfr)
    as (d & i & _ & Hok & _).
  destruct (Hchecked r d i Hwf Hok) as (res' & Hs' & Hle).
  rewrite Hs in Hs'. injection Hs' as <-. assumption.
Qed.

Lemma route_wf_two N x y : x <> y -> 0 <= x < N -> 0 <= y < N -> route_wf N [x; y].
Proof.
  intros Hne Hx Hy. split.
  - constructor; [| apply NoDup_singleton].
    intros H. apply list_elem_of_singleton in H. contradiction.
  - repeat (constructor; [assumption |]). constructor.
Qed.

Lemma route_wf_four N : 4 <= N -> route_wf N [0; 1; 2; 3].
Proof.
  intros HN. split.
  - repeat (constructor; [rewrite ?not_elem_of_cons; repeat split;
                          try lia; apply not_elem_of_nil |]).
    constructor.
  - repeat (constructor; [lia |]). constructor.
Qed.

Lemma two_stop_route_wf : route_wf (n_checkpoints two_stop_input) [0; 1].
Proof. apply route_wf_two; vm_compute; try split; congruence. Qed.

Lemma count_maximal_checked_witness :
  (exists res, solve two_stop_input = Some res /\ Z.of_nat (length [0; 1]) <= count res) /\
  route_ok two_stop_input [0; 1] = Some (624 # 1, 1) /\
  count_maximal two_stop_input.
Proof.
  destruct (count_maximal_checked two_stop_input) as [Ha Hb].
  - vm_compute. reflexivity.
  - vm_compute. reflexivity.
  - split; [| split].
    + apply (Ha [0; 1] (624 # 1) 1); [exact two_stop_route_wf | vm_compute; reflexivity].
    + vm_compute. reflexivity.
    + apply Hb; vm_compute; reflexivity.
Defined.

(** C1, as worded: on [prune_count_input] checkpoint 0 cannot reach Finish
    directly, so the state after visiting 0 is dropped; [solve] returns
    count 1 although the route 0, 1 is feasible.  On
    [half_hour_input 100], whose slots start at 630, the route 0, 1, 2, 3
    passes every check of the DP, yet [solve] returns count 3: the earlier
    departure recorded for (0,1,2 ending at 2) reaches Finish from 3 within
    the minute 630, which has no slot.  On [half_hour_triangle_input], also
    starting at 630, with whole-minute travel times satisfying the triangle
    inequality, the route 0, 1 is feasible but [solve] returns count 0.
    The times of these routes are the same in binary32 and in real-valued
    time. *)
Lemma count_maximal_fails :
  (valid_input prune_count_input = true /\ on_the_hour prune_count_input = true /\
   whole_minutes prune_count_input = true /\
   triangle_to_finish prune_count_input = false /\
   solve prune_count_input = Some (mkResult 1 [1] 1 (617 # 1)) /\
   route_finish prune_count_input [0; 1] = Some (629 # 1) /\
   real_route_finish prune_count_input [0; 1] = Some (629 # 1) /\
   ~ count_maximal prune_count_input) /\
  (valid_input (half_hour_input 100) = true /\
   on_the_hour (half_hour_input 100) = false /\
   solve (half_hour_input 100) = Some (mkResult 3 [2; 1; 0] 3 (631 # 1)) /\
   route_ok (half_hour_input 100) [0; 1; 2; 3] = Some (1263 # 2, 3) /\
   real_route_finish (half_hour_input 100) [0; 1; 2; 3] = Some (1263 # 2) /\
   ~ count_maximal (half_hour_input 100)) /\
  (valid_input half_hour_triangle_input = true /\
   on_the_hour half_hour_triangle_input = false /\
   whole_minutes half_hour_triangle_input = true /\
   triangle_to_finish half_hour_triangle_input = true /\
   solve half_hour_triangle_input = Some (mkResult 0 [] 0 0%Q) /\
   route_finish half_hour_triangle_input [0; 1] = Some (631 # 1) /\
   real_route_finish half_hour_triangle_input [0; 1] = Some (631 # 1) /\
   ~ count_maximal half_hour_triangle_input).
Proof.
  split; [| split].
  - assert (Hs : solve prune_count_input = Some (mkResult 1 [1] 1 (617 # 1)))
      by (vm_compute; reflexivity).
    assert (Hf : real_route_finish prune_count_input [0; 1] = Some (629 # 1))
      by (vm_compute; reflexivity).
    repeat (split; [assumption || (vm_compute; reflexivity) |]).
    intros H. specialize (H _ [0; 1] Hs). simpl in H.
    assert (Hfeas : real_feasible prune_count_input [0; 1]).
    { split; [discriminate |]. split; [| apply (is_Some_intro _ _ Hf)].
      apply route_wf_two; vm_compute; try split; congruence. }
    specialize (H Hfeas). lia.
  - assert (Hs : solve (half_hour_input 100) = Some (mkResult 3 [2; 1; 0] 3 (631 # 1)))
      by (vm_compute; reflexivity).
    assert (Hf : real_route_finish (half_hour_input 100) [0; 1; 2; 3] = Some (1263 # 2))
      by (vm_compute; reflexivity).
    repeat (split; [assumption || (vm_compute; reflexivity) |]).
    intros H. specialize (H _ [0; 1; 2; 3] Hs). simpl in H.
    assert (Hfeas : real_feasible (half_hour_input 100) [0; 1; 2; 3]).
    { split; [discriminate |]. split; [| apply (is_Some_intro _ _ Hf)].
      apply route_wf_four. vm_compute. discriminate. }
    specialize (H Hfeas). lia.
  - assert (Hs : solve half_hour_triangle_input = Some (mkResult 0 [] 0 0%Q))
      by (vm_compute; reflexivity).
    assert (Hf : real_route_finish half_hour_triangle_input [0; 1] = Some (631 # 1))
      by (vm_compute; reflexivity).
    repeat (split; [assumption || (vm_compute; reflexivity) |]).
    intros H. specialize (H _ [0; 1] Hs). simpl in H.
    assert (Hfeas : real_feasible half_hour_triangle_input [0; 1]).
    { split; [discriminate |]. split; [| apply (is_Some_intro _ _ Hf)].
      apply route_wf_two; vm_compute; try split; congruence. }
    specialize (H Hfeas). lia.
Qed.

(** C2 (as amended): for a valid input whose slots list every half hour
    from a full hour on, no route with exactly [count] checkpoints from
    which Finish is directly reachable ([can_reach_finish], in the solver's
    binary32 arithmetic) at the departure from every visited checkpoint
    reaches Finish before [finish_time]; and when in addition the travel
    times are whole minutes and going to Finish directly is never slower
    than going through another checkpoint, no feasible route with exactly
    [count] checkpoints does. *)
Theorem finish_minimal_checked (input : SolverInput) :
  valid_input input = true -> on_the_hour input = true ->
  (forall r d i f,
     route_wf (n_checkpoints input) r -> route_ok input r = Some (d, i) ->
     route_finish input r = Some f ->
     exists res,
       solve input = Some res /\
       (Z.of_nat (length r) = count res -> (finish_time res <= f)%Q)) /\
  (whole_minutes input = true -> triangle_to_finish input = true ->
   finish_minimal input).
Proof.
  intros Hv Hh.
  destruct (valid_input_spec input Hv) as (HN & HM & H0 & _ & Hreg & _).
  assert (Hchecked : forall r d i f,
            route_wf (n_checkpoints input) r -> route_ok input r = Some (d, i) ->
            route_finish input r = Some f ->
            exists res,
              solve input = Some res /\
              (Z.of_nat (length r) = count res -> (finish_time res <= f)%Q)).
  { intros r d i f Hwf Hok Hf.
    unfold route_finish in Hf. rewrite (route_ok_depart input r _ Hok) in Hf.
    destruct r as [| c r].
    - destruct (solve_cases input HN) as [[_ Hs] | (Hm & _ & Hc & _ & l & Hs & _)];
        (eexists; split; [exact Hs |]); simpl.
      + intros _.
        destruct (actual_finish_found input d i f Hf) as (_ & s & Hs1 & Hs2 & _ & -> & _).
        eapply Qle_trans; [| apply fmax_r]. apply of_int_nonneg. rewrite Hreg by lia. lia.
      + intros Heq. exfalso.
        pose proof (popcount_positive (best_mask (find_best input (run_dp input)))
                      ltac:(lia)).
        lia.
    - destruct (solve_dominates input (c :: r) d i f Hv Hh Hwf ltac:(discriminate) Hok Hf)
        as (res & Hs & _ & Hle).
      exists res. split; assumption. }
  split; [exact Hchecked |].
  intros Hw Htri res r fr Hs (Hne & Hwf & _) Hlen Hfr.
  destruct (real_feasible_checked input Hv Hw r fr Hh Htri Hwf Hne Hfr)
    as (d & i & af & Hok & _ & Hf & Haf).
  destruct (Hchecked r d i af Hwf Hok Hf) as (res' & Hs' & Hle).
  rewrite Hs in Hs'. injection Hs' as <-. rewrite <- Haf. apply Hle. assumption.
Qed.

Lemma finish_minimal_checked_witness :
  (exists res,
     solve two_stop_input = Some res /\
     (Z.of_nat (length [0; 1]) = count res -> (finish_time res <= 629 # 1)%Q)) /\
  route_ok two_stop_input [0; 1] = Some (624 # 1, 1) /\
  solve two_stop_input = Some (mkResult 2 [1; 0] 2 (629 # 1)) /\
  finish_minimal two_stop_input.
Proof.
  destruct (finish_minimal_checked two_stop_input) as [Ha Hb].
  - vm_compute. reflexivity.
  - vm_compute. reflexivity.
  - split; [| split; [| split]].
    + apply (Ha [0; 1] (624 # 1) 1).
      * exact two_stop_route_wf.
      * vm_compute. reflexivity.
      * vm_compute. reflexivity.
    + vm_compute. reflexivity.
    + vm_compute. reflexivity.
    + apply Hb; vm_compute; reflexivity.
Defined.

(** C2, as worded: on [prune_finish_input] the quickest pair of
    checkpoints is 2, 0 (Finish at 617), but Finish is not directly
    reachable from 2, so [solve] returns the pair 1, 0 with Finish at 635.
    On [half_hour_input 40], whose slots start at 630, the route
    0, 1, 2, 3 passes every check of the DP and reaches Finish at 631.5,
    yet [solve] returns four checkpoints with Finish at 670.  The times of
    these routes are the same in binary32 and in real-valued time. *)
Lemma finish_minimal_fails :
  (valid_input prune_finish_input = true /\ on_the_hour prune_finish_input = true /\
   whole_minutes prune_finish_input = true /\
   triangle_to_finish prune_finish_input = false /\
   solve prune_finish_input = Some (mkResult 2 [1; 0] 2 (635 # 1)) /\
   route_finish prune_finish_input [2; 0] = Some (617 # 1) /\
   real_route_finish prune_finish_input [2; 0] = Some (617 # 1) /\
   ~ finish_minimal prune_finish_input) /\
  (valid_input (half_hour_input 40) = true /\
   on_the_hour (half_hour_input 40) = false /\
   solve (half_hour_input 40) = Some (mkResult 4 [2; 1; 0; 3] 4 (670 # 1)) /\
   route_ok (half_hour_input 40) [0; 1; 2; 3] = Some (1263 # 2, 3) /\
   route_finish (half_hour_input 40) [0; 1; 2; 3] = Some (1263 # 2) /\
   real_route_finish (half_hour_input 40) [0; 1; 2; 3] = Some (1263 # 2) /\
   ~ finish_minimal (half_hour_input 40)).
Proof.
  split.
  - assert (Hs : solve prune_finish_input = Some (mkResult 2 [1; 0] 2 (635 # 1)))
      by (vm_compute; reflexivity).
    assert (Hf : real_route_finish prune_finish_input [2; 0] = Some (617 # 1))
      by (vm_compute; reflexivity).
    repeat (split; [assumption || (vm_compute; reflexivity) |]).
    intros H. specialize (H _ [2; 0] (617 # 1) Hs).
    assert (Hfeas : real_feasible prune_finish_input [2; 0]).
    { split; [discriminate |]. split; [| apply (is_Some_intro _ _ Hf)].
      apply route_wf_two; vm_compute; try split; congruence. }
    specialize (H Hfeas eq_refl Hf). vm_compute in H. apply H. reflexivity.
  - assert (Hs : solve (half_hour_input 40) = Some (mkResult 4 [2; 1; 0; 3] 4 (670 # 1)))
      by (vm_compute; reflexivity).
    assert (Hf : real_route_finish (half_hour_input 40) [0; 1; 2; 3] = Some (1263 # 2))
      by (vm_compute; reflexivity).
    repeat (split; [assumption || (vm_compute; reflexivity) |]).
    intros H. specialize (H _ [0; 1; 2; 3] (1263 # 2) Hs).
    assert (Hfeas : real_feasible (half_hour_input 40) [0; 1; 2; 3]).
    { split; [discriminate |]. split; [| apply (is_Some_intro _ _ Hf)].
      apply route_wf_four. vm_compute. discriminate. }
    specialize (H Hfeas eq_refl Hf). vm_compute in H. apply H. reflexivity.
Qed.

(** ** Infeasible inputs *)

(** C7 (as amended): when no route is feasible in the solver's binary32
    arithmetic, [solve] returns normally with [count = 0], an empty route
    ([route_length = 0]) and [finish_time = 0]; for a valid input with
    whole-minute travel times this is when no route is feasible at all. *)
Theorem infeasible_gives_zero (input : SolverInput) :
  1 <= n_checkpoints input <= MAX_CP ->
  ((forall r, ~ feasible input r) -> solve input = Some (mkResult 0 [] 0 0%Q)) /\
  (valid_input input = true -> whole_minutes input = true -> infeasible_zero input).
Proof.
  intros HN.
  assert (Hfloat : (forall r, ~ feasible input r) ->
                   solve input = Some (mkResult 0 [] 0 0%Q)).
  { intros Hnone.
    destruct (solve_cases input HN) as [[_ Hs] | (Hm & Hl & _ & [Hfin Haf] & _)];
      [assumption |].
    exfalso. destruct (run_dp_ok input HN) as [HI _].
    assert (Hr : in_range (n_checkpoints input) (best_mask (find_best input (run_dp input)))
                   (best_last (find_best input (run_dp input)))) by (split; [lia | assumption]).
    destruct (inv_sound _ _ HI _ _ Hr Hfin) as (r & Hne & Hwf & _ & Hok).
    apply (Hnone r). split; [assumption |]. split; [assumption |].
    unfold route_finish. rewrite (route_ok_depart input r _ Hok).
    eapply is_Some_intro. exact Haf. }
  split; [exact Hfloat |].
  intros Hv Hw Hnone. apply Hfloat. intros r Hf. apply (Hnone r).
  apply (feasible_iff_real input Hv Hw). assumption.
Qed.

Lemma s1_infeasible : forall r, ~ feasible s1_input r.
Proof.
  intros r (Hne & [Hnd Hall] & Hf).
  destruct r as [| c r]; [contradiction |].
  apply Forall_cons in Hall. destruct Hall as [Hc Hall].
  change (n_checkpoints s1_input) with 1 in *. assert (c = 0) by lia. subst c.
  destruct r as [| c r].
  - destruct Hf as [f Hf]. vm_compute in Hf. discriminate.
  - apply Forall_cons in Hall. destruct Hall as [Hc' _]. assert (c = 0) by lia. subst c.
    apply NoDup_cons in Hnd. destruct Hnd as [Hnd _]. apply Hnd. left.
Qed.

Lemma infeasible_gives_zero_witness :
  solve s1_input = Some (mkResult 0 [] 0 0%Q) /\ infeasible_zero s1_input.
Proof.
  destruct (infeasible_gives_zero s1_input) as [Ha Hb].
  - vm_compute. split; discriminate.
  - split; [apply Ha; exact s1_infeasible | apply Hb; vm_compute; reflexivity].
Defined.

(** C7, as worded: on [rounding_input] the only route, checkpoint 0, leaves
    at 612 and would reach Finish at 612 + 88.0000076..., after
    [end_time = 700], so no route is feasible; the binary32 sum is 700 and
    [solve] returns count 1 with Finish at 700. *)
Lemma infeasible_zero_fails :
  valid_input rounding_input = true /\ on_the_hour rounding_input = true /\
  (forall r, ~ real_feasible rounding_input r) /\
  real_route_depart rounding_input [0] = Some (612 # 1, 0) /\
  (inject_Z (end_time rounding_input) < (612 # 1) + tt rounding_input 0 FINISH_IDX)%Q /\
  solve rounding_input = Some (mkResult 1 [0] 1 (700 # 1)) /\
  ~ infeasible_zero rounding_input.
Proof.
  assert (Hnone : forall r, ~ real_feasible rounding_input r).
  { intros r (Hne & [Hnd Hall] & Hf).
    destruct r as [| c r]; [contradiction |].
    apply Forall_cons in Hall. destruct Hall as [Hc Hall].
    change (n_checkpoints rounding_input) with 1 in *. assert (c = 0) by lia. subst c.
    destruct r as [| c r].
    - destruct Hf as [f Hf]. vm_compute in Hf. discriminate.
    - apply Forall_cons in Hall. destruct Hall as [Hc' _]. assert (c = 0) by lia. subst c.
      apply NoDup_cons in Hnd. destruct Hnd as [Hnd _]. apply Hnd. left. }
  assert (Hs : solve rounding_input = Some (mkResult 1 [0] 1 (700 # 1)))
    by (vm_compute; reflexivity).
  split; [vm_compute; reflexivity |]. split; [vm_compute; reflexivity |].
  split; [assumption |]. split; [vm_compute; reflexivity |].
  split; [vm_compute; reflexivity |]. split; [assumption |].
  intros H. specialize (H Hnone). rewrite Hs in H. discriminate.
Qed.

(** ** Relaxation *)

(** C9 (as amended): for valid inputs whose slots list every half hour
    from a full hour on, if the second input has every opening of the first
    and no longer travel times, [solve] returns on it a [count] at least as
    large and, at equal [count], a [finish_time] no later. *)
Theorem relaxation_is_monotone (a b : SolverInput) :
  valid_input a = true -> valid_input b = true -> on_the_hour a = true ->
  relaxes a b = true ->
  exists ra rb,
    solve a = Some ra /\ solve b = Some rb /\
    count ra <= count rb /\
    (count ra = count rb -> (finish_time rb <= finish_time ra)%Q).
Proof.
  intros Hva Hvb Hh Hr.
  destruct (valid_input_spec a Hva) as (HNa & HMa & _).
  destruct (valid_input_spec b Hvb) as (HNb & _).
  destruct (relaxes_spec a b Hr) as (HN & _ & Hss & _).
  assert (Hhb : on_the_hour b = true).
  { unfold on_the_hour in *. rewrite <- (Hss 0) by (unfold MAX_SLOTS; lia). assumption. }
  destruct (solve_cases a HNa) as [[_ Hsa] | (Hm & Hl & Hc & [Hfin Haf] & l & Hsa & _)].
  - destruct (solve_total b HNb) as (rb & Hsb).
    exists (mkResult 0 [] 0 0%Q), rb. split; [assumption |]. split; [assumption |]. simpl.
    pose proof (solve_count_nonneg b rb HNb Hsb) as H0. split; [assumption |].
    intros Heq.
    destruct (solve_cases b HNb) as [[_ Hsb'] | (Hm' & _ & Hc' & _ & l' & Hsb' & _)];
      rewrite Hsb' in Hsb; injection Hsb as <-; simpl in *; [apply Qle_refl |].
    exfalso. pose proof (popcount_positive (best_mask (find_best b (run_dp b))) ltac:(lia)). lia.
  - destruct (run_dp_ok a HNa) as [HI _].
    assert (Hrg : in_range (n_checkpoints a) (best_mask (find_best a (run_dp a)))
                    (best_last (find_best a (run_dp a)))) by (split; [lia | assumption]).
    destruct (inv_sound _ _ HI _ _ Hrg Hfin) as (r & Hne & Hwf & Hmask & Hok).
    destruct (route_ok_relax a b r Hva Hvb Hh Hr Hwf _ _ Hok) as (d' & Hokb & Hle & Hge).
    specialize (Hge Hne).
    assert (Hnode : 0 <= best_last (find_best a (run_dp a)) < ALL_NODES)
      by (unfold MAX_CP, ALL_NODES in *; lia).
    destruct (actual_finish_mono a b Hva Hvb Hh Hr _ d' _ _ Hnode Hle Hge Haf)
      as (af' & Hafb & Hafle).
    rewrite HN in Hwf.
    destruct (solve_dominates b r d' _ af' Hvb Hhb Hwf Hne Hokb Hafb) as (rb & Hsb & Hcnt & Hft).
    eexists. exists rb. split; [exact Hsa |]. split; [assumption |]. simpl.
    rewrite <- HN in Hwf.
    rewrite Hc, <- Hmask, (popcount_mask_of _ r Hwf).
    split; [assumption |]. intros Heq. specialize (Hft Heq). lra.
Qed.

Lemma relaxation_is_monotone_witness :
  exists ra rb,
    solve s3_input = Some ra /\ solve s3_open_input = Some rb /\
    count ra <= count rb /\
    (count ra = count rb -> (finish_time rb <= finish_time ra)%Q).
Proof.
  apply (relaxation_is_monotone s3_input s3_open_input); vm_compute; reflexivity.
Defined.

(** C9, as worded: with slots starting at 630, lowering the travel time
    Start -> 0 from 31 to 30 minutes makes the walker reach Finish at
    exactly 630, a minute the slot rule assigns to no slot; the count drops
    from 1 to 0.  With the slot starting on the full hour 67108980, which
    [(float)] rounds down to 67108976, lowering Start -> 0 from 8 minutes
    to none makes the walker reach Finish at 67108976, whose canonical mark
    is the half hour before the slot; the count drops from 1 to 0. *)
Lemma relaxation_monotone_fails :
  (valid_input (relax_input 31) = true /\ valid_input (relax_input 30) = true /\
   relaxes (relax_input 31) (relax_input 30) = true /\
   solve (relax_input 31) = Some (mkResult 1 [0] 1 (631 # 1)) /\
   solve (relax_input 30) = Some (mkResult 0 [] 0 0%Q) /\
   ~ relaxation_monotone (relax_input 31) (relax_input 30)) /\
  (on_the_hour (large_minutes_input 8) = true /\
   relaxes (large_minutes_input 8) (large_minutes_input 0) = true /\
   of_int (slot_start (large_minutes_input 8) 0) = 67108976 # 1 /\
   solve (large_minutes_input 8) = Some (mkResult 1 [0] 1 (67108984 # 1)) /\
   solve (large_minutes_input 0) = Some (mkResult 0 [] 0 0%Q) /\
   ~ relaxation_monotone (large_minutes_input 8) (large_minutes_input 0)).
Proof.
  split.
  - assert (Ha : solve (relax_input 31) = Some (mkResult 1 [0] 1 (631 # 1)))
      by (vm_compute; reflexivity).
    assert (Hb : solve (relax_input 30) = Some (mkResult 0 [] 0 0%Q))
      by (vm_compute; reflexivity).
    repeat (split; [assumption || (vm_compute; reflexivity) |]).
    intros H. destruct (H _ _ Ha Hb) as [Hc _]. simpl in Hc. lia.
  - assert (Ha : solve (large_minutes_input 8) = Some (mkResult 1 [0] 1 (67108984 # 1)))
      by (vm_compute; reflexivity).
    assert (Hb : solve (large_minutes_input 0) = Some (mkResult 0 [] 0 0%Q))
      by (vm_compute; reflexivity).
    repeat (split; [assumption || (vm_compute; reflexivity) |]).
    intros H. destruct (H _ _ Ha Hb) as [Hc _]. simpl in Hc. lia.
Qed.
